(** * LSP/MCP bridge: a shallow embedding of the tool utilities, the
    workspace-edit writer, the symbol wrappers, the open-file registry, the
    watcher's registration test and the framing transport, with the
    properties the specification states about them.

    Conventions of the embedding.
    - A JavaScript number that holds a line, a column, a version or a length
      is a [Z]; fractional and non-finite values are outside the model
      except where the source can produce [NaN] (see [parseInt]).
    - A JavaScript string is a [string]; each character stands for one code
      unit, of which the model has the 256 lowest.  [undefined] array
      elements and thrown [TypeError]s are made explicit with [option] and
      with the [result] type below.
    - [Map] is a [gmap], [Set<number>] is a [gset Z], arrays are lists. *)

From Stdlib Require Import ZArith Lia String Ascii Permutation.
From stdpp Require Import base option list gmap strings sorting pretty.

Open Scope Z_scope.

(** ** Errors *)

Inductive result (A : Type) : Type :=
| Ok (a : A)
| Throw (msg : string).
Arguments Ok {A} a.
Arguments Throw {A} msg.

Definition bind {A B : Type} (r : result A) (k : A -> result B) : result B :=
  match r with
  | Ok a => k a
  | Throw m => Throw m
  end.

Notation "x <-! r ;; k" := (bind r (fun x => k))
  (at level 100, r at next level, right associativity).

(** ** JavaScript built-ins used by the sources *)

Module JS.

(** [arr[i]] : [None] is [undefined]. *)
Definition index {A : Type} (l : list A) (i : Z) : option A :=
  if i <? 0 then None else l !! Z.to_nat i.

(** [Array.prototype.slice(a, b)] with its treatment of negative bounds. *)
Definition clampIndex (len i : Z) : Z :=
  if i <? 0 then Z.max (len + i) 0 else Z.min i len.

Definition slice {A : Type} (l : list A) (a b : Z) : list A :=
  let len := Z.of_nat (length l) in
  let a' := clampIndex len a in
  let b' := clampIndex len b in
  take (Z.to_nat (b' - a')) (drop (Z.to_nat a') l).

(** [arr.splice(start, deleteCount, item)], on a copy. *)
Definition splice {A : Type} (l : list A) (start deleteCount : Z) (item : A) : list A :=
  let len := Z.of_nat (length l) in
  let actualStart := clampIndex len start in
  let actualDeleteCount := Z.min (Z.max deleteCount 0) (len - actualStart) in
  take (Z.to_nat actualStart) l ++ [item]
    ++ drop (Z.to_nat (actualStart + actualDeleteCount)) l.

(** [for (i = from; i < to; i++)] visits [range from to]. *)
Definition range (from to : Z) : list Z := seqZ from (to - from).

(** Strings. *)
Definition LF : string := String (ascii_of_nat 10) EmptyString.
Definition CR : string := String (ascii_of_nat 13) EmptyString.
Definition CRLF : string := CR +:+ LF.

Definition strlen (s : string) : Z := Z.of_nat (String.length s).

Fixpoint take_str (n : nat) (s : string) : string :=
  match n, s with
  | O, _ => EmptyString
  | S _, EmptyString => EmptyString
  | S k, String c s' => String c (take_str k s')
  end.

Fixpoint drop_str (n : nat) (s : string) : string :=
  match n, s with
  | O, _ => s
  | S _, EmptyString => EmptyString
  | S k, String _ s' => drop_str k s'
  end.

(** [s.substring(0, n)] and [s.substring(n)]: a negative bound counts as 0
    and a bound past the end as the length. *)
Definition substring_to (s : string) (n : Z) : string := take_str (Z.to_nat n) s.
Definition substring_from (s : string) (n : Z) : string := drop_str (Z.to_nat n) s.

Definition startsWith (s p : string) : bool := String.prefix p s.

Definition endsWith (s suf : string) : bool :=
  (String.length suf <=? String.length s)%nat &&
  String.eqb (drop_str (String.length s - String.length suf) s) suf.

Fixpoint includes (s sub : string) : bool :=
  String.prefix sub s ||
  match s with
  | EmptyString => false
  | String _ s' => includes s' sub
  end.

Fixpoint rev_str_onto (s acc : string) : string :=
  match s with
  | EmptyString => acc
  | String c s' => rev_str_onto s' (String c acc)
  end.

Definition rev_str (s : string) : string := rev_str_onto s EmptyString.

(** White space of [String.prototype.trim] among 8-bit code units. *)
Definition isWhiteSpace (c : ascii) : bool :=
  let n := nat_of_ascii c in
  ((9 <=? n) && (n <=? 13) || (n =? 32) || (n =? 160))%nat.

Fixpoint trimStart (s : string) : string :=
  match s with
  | EmptyString => EmptyString
  | String c s' => if isWhiteSpace c then trimStart s' else s
  end.

Definition trim (s : string) : string := rev_str (trimStart (rev_str (trimStart s))).

(** [s.split(sep)] for a non-empty separator.  [skip] counts the characters
    of a separator still to be passed over, [cur] is the piece being read,
    reversed. *)
Fixpoint split_go (sep : string) (skip : nat) (cur : string) (s : string) : list string :=
  match s with
  | EmptyString => [rev_str cur]
  | String c s' =>
      match skip with
      | S k => split_go sep k cur s'
      | O =>
          if String.prefix sep s
          then rev_str cur :: split_go sep (String.length sep - 1) EmptyString s'
          else split_go sep O (String c cur) s'
      end
  end.

Definition split (s sep : string) : list string := split_go sep O EmptyString s.

(** [arr.join(sep)]. *)
Fixpoint join (sep : string) (l : list string) : string :=
  match l with
  | [] => EmptyString
  | [x] => x
  | x :: rest => x +:+ sep +:+ join sep rest
  end.

(** [s.padStart(n, ' ')]. *)
Definition padStart (n : nat) (s : string) : string :=
  String.concat EmptyString (replicate (n - String.length s) " "%string) +:+ s.

(** [n.toString()] of an integer. *)
Definition toString (n : Z) : string := pretty n.

(** A number that may be [NaN]. *)
Inductive Num := NaN | Int (z : Z).

(** [a < b]: false as soon as one side is [NaN]. *)
Definition num_ltb (a b : Num) : bool :=
  match a, b with
  | Int x, Int y => x <? y
  | _, _ => false
  end.

Definition isDigit (c : ascii) : bool :=
  let n := nat_of_ascii c in ((48 <=? n) && (n <=? 57))%nat.

Definition digitValue (c : ascii) : Z := Z.of_nat (nat_of_ascii c) - 48.

(** The digits at the head of [s], read in base ten onto [acc]; [None]
    while no digit has been read. *)
Fixpoint parseDigits (s : string) (acc : option Z) : option Z :=
  match s with
  | EmptyString => acc
  | String c s' =>
      if isDigit c then parseDigits s' (Some (10 * default 0 acc + digitValue c))
      else acc
  end.

(** [parseInt(s, 10)]: leading white space, an optional sign, then the
    longest run of digits; [NaN] when there is no digit. *)
Definition parseInt (s : string) : Num :=
  let s1 := trimStart s in
  let '(negative, s2) :=
    match s1 with
    | String c rest =>
        if Ascii.eqb c "-" then (true, rest)
        else if Ascii.eqb c "+" then (false, rest)
        else (false, s1)
    | EmptyString => (false, s1)
    end in
  match parseDigits s2 None with
  | None => NaN
  | Some v => Int (if negative then - v else v)
  end.

(** [buf.indexOf(needle)], counting from [i]; [None] is -1. *)
Fixpoint indexOfFrom (needle hay : string) (i : nat) : option nat :=
  if String.prefix needle hay then Some i
  else
    match hay with
    | EmptyString => None
    | String _ hay' => indexOfFrom needle hay' (S i)
    end.

Definition indexOf (hay needle : string) : option nat := indexOfFrom needle hay O.

(** [s.replace(pattern, replacement)] with a string for pattern: the first
    occurrence is replaced, if there is one. *)
Fixpoint replace (s pattern replacement : string) : string :=
  if String.prefix pattern s then replacement +:+ drop_str (String.length pattern) s
  else
    match s with
    | EmptyString => EmptyString
    | String c s' => String c (replace s' pattern replacement)
    end.

(** [Array.prototype.sort(cmp)]: a stable sort; [cmp a b > 0] puts [b]
    before [a]. *)
Fixpoint sort_insert {A : Type} (cmp : A -> A -> Z) (x : A) (l : list A) : list A :=
  match l with
  | [] => [x]
  | y :: l' => if 0 <? cmp y x then x :: y :: l' else y :: sort_insert cmp x l'
  end.

Definition sort {A : Type} (cmp : A -> A -> Z) (l : list A) : list A :=
  foldl (fun acc x => sort_insert cmp x acc) [] l.

End JS.

(** ** Protocol types (vscode-languageserver-types) *)

Record Position := { line : Z; character : Z }.
Record Range := { start : Position; end_ : Position }.
Record Location := { uri : string; range : Range }.

Global Instance Position_eq_dec : EqDecision Position.
Proof. solve_decision. Defined.

(** ** tools/utilities.ts *)

Module Utilities.

(** [for (i = from; i < to; i++) set.add(i)]. *)
Definition addAll (from to : Z) (set : gset Z) : gset Z :=
  foldl (fun acc i => {[ i ]} ∪ acc) set (JS.range from to).

Definition addLocation (totalLines contextLines : Z) (linesToShow : gset Z)
    (loc : Location) : gset Z :=
  let startLine := line (start (range loc)) in
  let endLine := line (end_ (range loc)) in
  (* context before: i = max(0, startLine - contextLines); i <= startLine *)
  let s1 := addAll (Z.max 0 (startLine - contextLines)) (startLine + 1) linesToShow in
  (* the reference lines: i = startLine; i <= endLine *)
  let s2 := addAll startLine (endLine + 1) s1 in
  (* context after: i = endLine; i < min(totalLines, endLine + contextLines + 1) *)
  addAll endLine (Z.min totalLines (endLine + contextLines + 1)) s2.

Definition getLineRangesToDisplay (locations : list Location)
    (totalLines contextLines : Z) : gset Z :=
  foldl (addLocation totalLines contextLines) ∅ locations.

Record LineRange := { lr_start : Z; lr_end : Z }.

(** The loop state of [convertLinesToRanges]. *)
Record CollapseState := {
  ranges : list LineRange;
  rangeStart : Z;
  rangeEnd : Z
}.

Definition collapseStep (st : CollapseState) (ln : Z) : CollapseState :=
  if rangeStart st =? -1 then
    {| ranges := ranges st; rangeStart := ln; rangeEnd := ln |}
  else if ln =? rangeEnd st + 1 then
    {| ranges := ranges st; rangeStart := rangeStart st; rangeEnd := ln |}
  else
    {| ranges := ranges st ++ [ {| lr_start := rangeStart st; lr_end := rangeEnd st |} ];
       rangeStart := ln; rangeEnd := ln |}.

Definition collapseFinish (st : CollapseState) : list LineRange :=
  if negb (rangeStart st =? -1)
  then ranges st ++ [ {| lr_start := rangeStart st; lr_end := rangeEnd st |} ]
  else ranges st.

Definition collapseLoop (sortedLines : list Z) : list LineRange :=
  collapseFinish
    (foldl collapseStep {| ranges := []; rangeStart := -1; rangeEnd := -1 |} sortedLines).

(** [Array.from(lines).sort((a, b) => a - b)]: the elements in ascending
    order. *)
Definition sortedLines (lines : gset Z) : list Z := merge_sort Z.le (elements lines).

Definition convertLinesToRanges (lines : gset Z) (_totalLines : Z) : list LineRange :=
  collapseLoop (sortedLines lines).

Definition gutter (lineNum : Z) (text : string) : string :=
  JS.padStart 6 (JS.toString lineNum) +:+ "| " +:+ text.

(** A missing array element prints as [undefined] in a template string. *)
Definition lineText (lines : list string) (i : Z) : string :=
  default "undefined"%string (JS.index lines i).

Definition formatRange (lines : list string) (r : LineRange) : list string :=
  (* lineNum = range.start; lineNum <= range.end && lineNum < lines.length *)
  map (fun lineNum => gutter (lineNum + 1) (lineText lines lineNum))
      (JS.range (lr_start r) (Z.min (lr_end r + 1) (Z.of_nat (length lines)))).

Fixpoint formatOutput (lines : list string) (first : bool) (rs : list LineRange)
  : list string :=
  match rs with
  | [] => []
  | r :: rest =>
      (if first then [] else ["..."%string]) ++ formatRange lines r
        ++ formatOutput lines false rest
  end.

Definition formatLinesWithRanges (lines : list string) (rs : list LineRange) : string :=
  JS.join JS.LF (formatOutput lines true rs).

Definition addLineNumbers (text : string) (startLine : Z) : string :=
  JS.join JS.LF
    (imap (fun i ln => gutter (startLine + Z.of_nat i) ln) (JS.split text JS.LF)).

(** *** getFullDefinition *)

Definition isCommentStart (prevLine : string) : bool :=
  JS.startsWith prevLine "//" || JS.startsWith prevLine "/*" || JS.startsWith prevLine "*"
  || JS.startsWith prevLine "#" || JS.startsWith prevLine "@".

(** [while (startLine > 0)]: [n] is the current [startLine]; reading a line
    the file does not have throws. *)
Fixpoint expandUp (lines : list string) (n : nat) : result nat :=
  match n with
  | O => Ok O
  | S k =>
      match lines !! k with
      | None => Throw "TypeError: cannot read properties of undefined (reading 'trim')"
      | Some prev =>
          if isCommentStart (JS.trim prev) then expandUp lines k else Ok (S k)
      end
  end.

Definition expandUpFrom (lines : list string) (startLine : Z) : result Z :=
  if 0 <? startLine
  then n <-! expandUp lines (Z.to_nat startLine) ;; Ok (Z.of_nat n)
  else Ok startLine.

Record ScanState := {
  braceCount : Z;
  inString : bool;
  stringChar : option ascii   (* [None] is the initial [''] *)
}.

Definition scanInit : ScanState :=
  {| braceCount := 0; inString := false; stringChar := None |}.

(** The double quote, code 34, and the single quote. *)
Definition isQuote (c : ascii) : bool :=
  Ascii.eqb c (ascii_of_nat 34) || Ascii.eqb c "'".

Definition scanChar (prev : option ascii) (st : ScanState) (c : ascii) : ScanState :=
  let unescaped :=
    match prev with
    | None => true                       (* j === 0 *)
    | Some p => negb (Ascii.eqb p "\")   (* line[j - 1] !== '\\' *)
    end in
  let st1 :=
    if isQuote c && unescaped then
      if negb (inString st) then
        {| braceCount := braceCount st; inString := true; stringChar := Some c |}
      else if bool_decide (Some c = stringChar st) then
        {| braceCount := braceCount st; inString := false; stringChar := stringChar st |}
      else st
    else st in
  if negb (inString st1) then
    let b1 := if Ascii.eqb c "{" then braceCount st1 + 1 else braceCount st1 in
    let b2 := if Ascii.eqb c "}" then b1 - 1 else b1 in
    {| braceCount := b2; inString := inString st1; stringChar := stringChar st1 |}
  else st1.

Fixpoint scanFrom (prev : option ascii) (st : ScanState) (ln : string) : ScanState :=
  match ln with
  | EmptyString => st
  | String c rest => scanFrom (Some c) (scanChar prev st c) rest
  end.

Definition scanLine (st : ScanState) (ln : string) : ScanState := scanFrom None st ln.

(** The downward loop over the indices [idxs]; [origStart] is
    [location.range.start.line] and [endLine] the value kept when the loop
    runs out without a [break]. *)
Fixpoint expandDown (lines : list string) (origStart endLine : Z) (st : ScanState)
    (idxs : list Z) : result Z :=
  match idxs with
  | [] => Ok endLine
  | i :: rest =>
      match JS.index lines i with
      | None => Throw "TypeError: cannot read properties of undefined (reading 'length')"
      | Some ln =>
          let st' := scanLine st ln in
          if (braceCount st' =? 0) && (origStart <? i) then Ok i
          else expandDown lines origStart endLine st' rest
      end
  end.

(** [getFullDefinition] on the content read from [filePath]. *)
Definition getFullDefinition (content : string) (location : Location)
  : result (string * Location) :=
  let lines := JS.split content JS.LF in
  let startLine0 := line (start (range location)) in
  let endLine0 := line (end_ (range location)) in
  startLine <-! expandUpFrom lines startLine0 ;;
  (* for (i = startLine; i <= endLine && i < lines.length; i++) *)
  endLine <-! expandDown lines startLine0 endLine0 scanInit
                (JS.range startLine (Z.min (endLine0 + 1) (Z.of_nat (length lines)))) ;;
  let definitionText := JS.join JS.LF (JS.slice lines startLine (endLine + 1)) in
  let endChar := default 0 (JS.strlen <$> JS.index lines endLine) in
  Ok (definitionText,
      {| uri := uri location;
         range := {| start := {| line := startLine; character := 0 |};
                     end_ := {| line := endLine; character := endChar |} |} |}).

End Utilities.

(** Vocabulary of the statements about [tools/utilities.ts]. *)
Module UtilitiesSpec.
Import Utilities.

Definition covers (r : LineRange) (x : Z) : Prop := lr_start r <= x <= lr_end r.

(** [a] ends at least one missing index before [b] starts. *)
Definition separated (a b : LineRange) : Prop := lr_end a + 1 < lr_start b.

(** The ranges still to come once a range [s..e] is being read. *)
Fixpoint collapseFrom (s e : Z) (l : list Z) : list LineRange :=
  match l with
  | [] => [ {| lr_start := s; lr_end := e |} ]
  | x :: l' =>
      if x =? e + 1 then collapseFrom s x l'
      else {| lr_start := s; lr_end := e |} :: collapseFrom x x l'
  end.

(** The lines one location contributes, as the three loops write them. *)
Definition shownFor (totalLines contextLines : Z) (loc : Location) (x : Z) : Prop :=
  let sl := line (start (range loc)) in
  let el := line (end_ (range loc)) in
  Z.max 0 (sl - contextLines) <= x <= sl
  \/ sl <= x <= el
  \/ el <= x < Z.min totalLines (el + contextLines + 1).

(** A reference that lies in a file of [totalLines] lines. *)
Definition withinFile (totalLines : Z) (loc : Location) : Prop :=
  0 <= line (start (range loc)) <= line (end_ (range loc))
  /\ line (end_ (range loc)) < totalLines.

(** The context interval of a reference: it stops at the last line of the
    file, index [totalLines - 1]. *)
Definition contextInterval (totalLines contextLines : Z) (loc : Location) (x : Z) : Prop :=
  Z.max 0 (line (start (range loc)) - contextLines) <= x
  <= Z.min (totalLines - 1) (line (end_ (range loc)) + contextLines).

(** The interval as the specification words it, closed at [totalLines]. *)
Definition specInterval (totalLines contextLines : Z) (loc : Location) (x : Z) : Prop :=
  Z.max 0 (line (start (range loc)) - contextLines) <= x
  <= Z.min totalLines (line (end_ (range loc)) + contextLines).

(** Sample inputs. *)
Definition sampleLineSet : gset Z := {[ 1; 2; 3; 5; 6; 10 ]}.

Definition lineAt (l : Z) : Location :=
  {| uri := "file:///a.ts";
     range := {| start := {| line := l; character := 0 |};
                 end_ := {| line := l; character := 3 |} |} |}.

(** A file of twenty lines, [line 0] to [line 19]. *)
Definition file20 : list string := map (fun i => "line " +:+ pretty i) (seqZ 0 20).

Definition scenarioRefs : list Location := [lineAt 3; lineAt 4; lineAt 12].

(** The four-line file of the range-expansion scenario and the range the
    server reports for [f], [(1,0)-(1,12)]. *)
Definition docFunctionFile : string :=
  "// doc
function f() {
  return 1;
}".

Definition reportedRange : Location :=
  {| uri := "file:///f.ts";
     range := {| start := {| line := 1; character := 0 |};
                 end_ := {| line := 1; character := 12 |} |} |}.

(** A line that the upward loop of [getFullDefinition] takes in. *)
Definition commentLike (lines : list string) (i : Z) : Prop :=
  exists ln, JS.index lines i = Some ln /\ isCommentStart (JS.trim ln) = true.

Definition notCommentLike (lines : list string) (i : Z) : Prop :=
  exists ln, JS.index lines i = Some ln /\ isCommentStart (JS.trim ln) = false.

Definition locationAt (u : string) (sl el : Z) : Location :=
  {| uri := u;
     range := {| start := {| line := sl; character := 0 |};
                 end_ := {| line := el; character := 0 |} |} |}.

End UtilitiesSpec.

(** ** protocol/types.ts: the symbol wrappers *)

Module Types.

(** [SymbolKind] is a numeric enum; [Method] is 6. *)
Definition SymbolKind := Z.
Definition SymbolKind_Method : SymbolKind := 6.

(** The [location] object of a symbol as it arrives from the server.  A
    [SymbolInformation] carries [{uri, range}]; a [WorkspaceSymbol] carries
    either that or [{uri}] alone.  A field that is [None] is a property the
    object does not have. *)
Record LocationObject := { loc_uri : option string; loc_range : option Range }.

(** A [workspace/symbol] result of either shape.  Both shapes declare
    [location], so ['location' in symbol] holds for each of them. *)
Record RawSymbol := {
  sym_name : string;
  sym_kind : option SymbolKind;
  sym_location : LocationObject;
  sym_containerName : option string
}.

Inductive ISymbol :=
| SymbolInformationWrapper (symbol : RawSymbol)
| WorkspaceSymbolWrapper (symbol : RawSymbol).

Definition wrapped (w : ISymbol) : RawSymbol :=
  match w with
  | SymbolInformationWrapper s => s
  | WorkspaceSymbolWrapper s => s
  end.

Definition getName (w : ISymbol) : string := sym_name (wrapped w).

Definition zeroRange : Range :=
  {| start := {| line := 0; character := 0 |};
     end_ := {| line := 0; character := 0 |} |}.

Definition getLocation (w : ISymbol) : LocationObject :=
  match w with
  | SymbolInformationWrapper s => sym_location s
  | WorkspaceSymbolWrapper s =>
      let location := sym_location s in
      match loc_range location with
      | Some _ => location                (* 'range' in location *)
      | None => {| loc_uri := loc_uri location; loc_range := Some zeroRange |}
      end
  end.

(** The [kind] getter of both wrappers. *)
Definition kind (w : ISymbol) : option SymbolKind := sym_kind (wrapped w).

(** The [containerName] getter, which only [SymbolInformationWrapper] has. *)
Definition containerName (w : ISymbol) : option string :=
  match w with
  | SymbolInformationWrapper s => sym_containerName s
  | WorkspaceSymbolWrapper _ => None
  end.

(** ['location' in symbol && 'uri' in symbol.location]. *)
Definition wrapSymbol (symbol : RawSymbol) : ISymbol :=
  if bool_decide (is_Some (loc_uri (sym_location symbol)))
  then SymbolInformationWrapper symbol
  else WorkspaceSymbolWrapper symbol.

(** A [WorkspaceSymbol] whose location is a URI and nothing else. *)
Definition uriOnlySymbol (name : string) (k : SymbolKind) (u : string) : RawSymbol :=
  {| sym_name := name; sym_kind := Some k;
     sym_location := {| loc_uri := Some u; loc_range := None |};
     sym_containerName := None |}.

End Types.

(** ** tools/definition.ts: the match policy of [readDefinition] *)

Module DefinitionTool.
Import Types.

(** The test under which the loop [continue]s past a symbol. *)
Definition skipped (symbolName : string) (sym : ISymbol) : bool :=
  if JS.includes symbolName "." then
    negb (String.eqb (getName sym) symbolName)
  else if bool_decide (kind sym = Some SymbolKind_Method) then
    negb (JS.endsWith (getName sym) ("::" +:+ symbolName))
    && negb (JS.endsWith (getName sym) ("." +:+ symbolName))
    && negb (String.eqb (getName sym) symbolName)
  else
    negb (String.eqb (getName sym) symbolName).

Definition accepted (symbolName : string) (rawSymbol : RawSymbol) : bool :=
  negb (skipped symbolName (wrapSymbol rawSymbol)).

(** The symbols of a [workspace/symbol] result that [readDefinition] goes on
    to render, in order. *)
Definition acceptedSymbols (symbolName : string) (results : list RawSymbol)
  : list RawSymbol :=
  filter (fun s => accepted symbolName s = true) results.

(** Vocabulary of the statement. *)
Definition containsDot (s : string) : Prop := exists a b, s = a +:+ "." +:+ b.
Definition hasSuffix (s suf : string) : Prop := exists p, s = p +:+ suf.

Definition methodNamed (name : string) : RawSymbol :=
  {| sym_name := name; sym_kind := Some SymbolKind_Method;
     sym_location := {| loc_uri := Some "file:///a.cpp"%string; loc_range := Some zeroRange |};
     sym_containerName := None |}.

End DefinitionTool.

(** ** watcher/watcher.ts: registrations and event filtering *)

Module Watcher.

(** [WatchKind] bits and the [FileChangeType] enum of protocol/types.ts. *)
Definition WatchKind_Create : Z := 1.
Definition WatchKind_Change : Z := 2.
Definition WatchKind_Delete : Z := 4.

Inductive FileChangeType := Created | Changed | Deleted.

Definition FileChangeType_value (t : FileChangeType) : Z :=
  match t with Created => 1 | Changed => 2 | Deleted => 3 end.

(** The [globPattern] of a registration is typed [any]: a string, an object
    with a [pattern] property, or something else. *)
Inductive GlobPattern :=
| PatternString (pattern : string)
| RelativePattern (pattern : string)
| PatternOther.

Record WatcherPattern := {
  globPattern : GlobPattern;
  kind : option Z            (* [kind?: WatchKind] *)
}.

Inductive Action :=
| OpenFile (filePath : string)
| DebounceNotifyChange (filePath : string)
| DebounceFileEvent (filePath : string) (changeType : FileChangeType).

(** [s.replace(/\\/g, '/')]. *)
Fixpoint replaceBackslashes (s : string) : string :=
  match s with
  | EmptyString => EmptyString
  | String c s' =>
      String (if Ascii.eqb c "\" then "/"%char else c) (replaceBackslashes s')
  end.

Section WithPath.

(** Node's [path.relative]. *)
Variable path_relative : string -> string -> string.

Variable workspacePath : string.

Definition matchGlob (filePath pattern : string) : bool :=
  let relativePath := path_relative workspacePath filePath in
  let normalizedPath := replaceBackslashes relativePath in
  if String.eqb pattern "**/*" then true
  else
    let viaDoubleStar :=
      if JS.startsWith pattern "**/" then
        let rest := JS.substring_from pattern 3 in
        if JS.startsWith rest "*." then
          Some (JS.endsWith normalizedPath (JS.substring_from rest 1))
        else None
      else None in
    match viaDoubleStar with
    | Some answer => answer
    | None =>
        if JS.startsWith pattern "*." then
          JS.endsWith normalizedPath (JS.substring_from pattern 1)
        else false
    end.

Definition matchesPattern (filePath : string) (pattern : GlobPattern) : bool :=
  match pattern with
  | PatternString p => matchGlob filePath p
  | RelativePattern p => matchGlob filePath p
  | PatternOther => false
  end.

Definition allKinds : Z :=
  Z.lor (Z.lor WatchKind_Create WatchKind_Change) WatchKind_Delete.

(** The [for] loop of [isPathWatched]. *)
Fixpoint firstMatch (filePath : string) (registrations : list WatcherPattern)
  : bool * Z :=
  match registrations with
  | [] => (false, 0)
  | reg :: rest =>
      if matchesPattern filePath (globPattern reg)
      then (true, default allKinds (kind reg))     (* reg.kind ?? (...) *)
      else firstMatch filePath rest
  end.

Definition isPathWatched (registrations : list WatcherPattern) (filePath : string)
  : bool * Z :=
  if (length registrations =? 0)%nat then (true, allKinds)
  else firstMatch filePath registrations.

Definition isType (a b : FileChangeType) : bool :=
  FileChangeType_value a =? FileChangeType_value b.

(** [handleFileEvent]: [excluded] is the answer of [shouldExcludeFile] and
    [isFileOpen] that of the client, both for [filePath]; the result lists
    what the handler sets off, in order. *)
Definition handleFileEvent (registrations : list WatcherPattern)
    (excluded isFileOpen : bool) (filePath : string) (changeType : FileChangeType)
  : list Action :=
  if excluded then []
  else
    let '(watched, kind) := isPathWatched registrations filePath in
    if negb watched then []
    else if isType changeType Created && (Z.land kind WatchKind_Create =? 0) then []
    else if isType changeType Changed && (Z.land kind WatchKind_Change =? 0) then []
    else if isType changeType Deleted && (Z.land kind WatchKind_Delete =? 0) then []
    else
      (if isType changeType Created then [OpenFile filePath] else [])
      ++ (if isType changeType Changed && isFileOpen
          then [DebounceNotifyChange filePath]
          else [DebounceFileEvent filePath changeType]).

End WithPath.

(** Sample registrations. *)
Definition tsOnly : WatcherPattern :=
  {| globPattern := PatternString "**/*.ts"; kind := Some WatchKind_Change |}.
Definition anyFile : WatcherPattern :=
  {| globPattern := RelativePattern "**/*"; kind := None |}.

(** A stand-in for [path.relative] on paths already relative. *)
Definition relativeAsIs (_ filePath : string) : string := filePath.

(** [addRegistrations]: the watchers of a registration are pushed onto the
    list, in order; nothing is ever taken off it. *)
Definition addRegistrations (registrations watchers : list WatcherPattern)
  : list WatcherPattern :=
  foldl (fun regs watcher =>
           regs ++ [ {| globPattern := globPattern watcher; kind := kind watcher |} ])
        registrations watchers.

Definition sourceFiles : WatcherPattern :=
  {| globPattern := PatternString "*.js"; kind := None |}.

End Watcher.

(** ** lsp/client.ts: the open-file registry *)

Module Client.

Record OpenFileInfo := { version : Z; info_uri : string }.

(** The notifications the registry operations write to the server. *)
Inductive Notification :=
| DidOpen (uri languageId : string) (version : Z) (text : string)
| DidChange (uri : string) (version : Z) (text : string)   (* one full-text change *)
| DidClose (uri : string).

(** What the operations meet outside the client: the file system, where
    [readFile] of a path that cannot be read is [None], and whether a write
    to the server's stdin goes through. *)
Record World := {
  readFile : string -> option string;
  stdinWritable : bool
}.

Record State := {
  openFiles : gmap string OpenFileInfo;
  sent : list Notification          (* in the order written *)
}.

(** Operations return their outcome and the state they leave. *)
Definition M (A : Type) : Type := State -> result A * State.

Definition ret {A} (a : A) : M A := fun st => (Ok a, st).
Definition throw {A} (msg : string) : M A := fun st => (Throw msg, st).
Definition mbind {A B} (m : M A) (k : A -> M B) : M B :=
  fun st =>
    match m st with
    | (Ok a, st') => k a st'
    | (Throw msg, st') => (Throw msg, st')
    end.

Notation "x <- m ;;; k" := (mbind m (fun x => k))
  (at level 100, m at next level, right associativity).

Definition getOpenFile (uri : string) : M (option OpenFileInfo) :=
  fun st => (Ok (openFiles st !! uri), st).

Definition setOpenFile (uri : string) (info : OpenFileInfo) : M unit :=
  fun st => (Ok tt, {| openFiles := <[uri := info]> (openFiles st); sent := sent st |}).

Definition deleteOpenFile (uri : string) : M unit :=
  fun st => (Ok tt, {| openFiles := delete uri (openFiles st); sent := sent st |}).

Section WithRuntime.

(** [pathToUri] goes through the vscode-uri package; the language id comes
    from the extension table of [detectLanguageId]. *)
Variable pathToUri : string -> string.
Variable detectLanguageId : string -> string.

Variable world : World.

(** [notify]: [writeMessage] on the server's stdin. *)
Definition notify (n : Notification) : M unit :=
  fun st =>
    if stdinWritable world
    then (Ok tt, {| openFiles := openFiles st; sent := sent st ++ [n] |})
    else (Throw "Failed to write message", st).

Definition readFileOrThrow (filePath : string) : M string :=
  match readFile world filePath with
  | Some content => ret content
  | None => throw "ENOENT: no such file or directory"
  end.

Definition openFile (filePath : string) : M unit :=
  let uri := pathToUri filePath in
  already <- getOpenFile uri ;;;
  match already with
  | Some _ => ret tt
  | None =>
      content <- readFileOrThrow filePath ;;;
      _ <- notify (DidOpen uri (detectLanguageId uri) 1 content) ;;;
      setOpenFile uri {| version := 1; info_uri := uri |}
  end.

Definition notifyChange (filePath : string) : M unit :=
  let uri := pathToUri filePath in
  fileInfo <- getOpenFile uri ;;;
  match fileInfo with
  | None => throw "Cannot notify change for unopened file"
  | Some info =>
      content <- readFileOrThrow filePath ;;;
      (* fileInfo.version++ on the object the map holds *)
      let info' := {| version := version info + 1; info_uri := info_uri info |} in
      _ <- setOpenFile uri info' ;;;
      notify (DidChange uri (version info') content)
  end.

Definition closeFile (filePath : string) : M unit :=
  let uri := pathToUri filePath in
  already <- getOpenFile uri ;;;
  match already with
  | None => ret tt
  | Some _ =>
      _ <- notify (DidClose uri) ;;;
      deleteOpenFile uri
  end.

Definition isFileOpen (filePath : string) (st : State) : bool :=
  bool_decide (is_Some (openFiles st !! pathToUri filePath)).

End WithRuntime.

(** A run of [notifyChange] calls, each in the world it meets; a failed
    call is logged by its caller and the run goes on. *)
Definition notifyChanges (pathToUri : string -> string)
    (calls : list (World * string)) (st : State) : State :=
  foldl (fun st call => snd (notifyChange pathToUri (fst call) (snd call) st)) st calls.

(** The versions reported for [uri] by the change notifications of [ns]. *)
Definition changeVersion (uri : string) (n : Notification) : option Z :=
  match n with
  | DidChange u v _ => if String.eqb u uri then Some v else None
  | _ => None
  end.

Definition changeVersions (uri : string) (ns : list Notification) : list Z :=
  omap (changeVersion uri) ns.

Definition storedVersion (uri : string) (st : State) : option Z :=
  version <$> openFiles st !! uri.

(** Sample data: [a.ts] is open at version 1 and has been deleted from
    disk; [b.ts] is open and readable. *)
Definition fileUri (filePath : string) : string := "file://" +:+ filePath.

Definition sampleState : State :=
  {| openFiles :=
       {[ "file:///a.ts"%string := {| version := 1; info_uri := "file:///a.ts" |};
          "file:///b.ts"%string := {| version := 4; info_uri := "file:///b.ts" |} ]};
     sent := [] |}.

Definition sampleWorld : World :=
  {| readFile := fun p => if String.eqb p "/b.ts" then Some "let x = 1;"%string else None;
     stdinWritable := true |}.

(** *** Runs of registry operations

    The operations are run one after another, each to completion, each in
    the world it meets; a caller that catches a failure goes on with the
    state the failed call left. *)

Inductive Op :=
| Open (filePath : string)
| Change (filePath : string)
| Close (filePath : string).

Definition runOp (pathToUri detectLanguageId : string -> string) (world : World)
    (op : Op) : M unit :=
  match op with
  | Open filePath => openFile pathToUri detectLanguageId world filePath
  | Change filePath => notifyChange pathToUri world filePath
  | Close filePath => closeFile pathToUri world filePath
  end.

Definition run (pathToUri detectLanguageId : string -> string)
    (calls : list (World * Op)) (st : State) : State :=
  foldl (fun st call => snd (runOp pathToUri detectLanguageId (fst call) (snd call) st))
    st calls.

(** The state of a fresh client. *)
Definition initialState : State := {| openFiles := ∅; sent := [] |}.

(** [closeAllFiles]: [files] is [Array.from(this.openFiles.keys())], the
    keys in the order the Map holds them; a failed [closeFile] is logged and
    the loop goes on. *)
Definition closeAllFiles (pathToUri uriToPath : string -> string) (world : World)
    (files : list string) (st : State) : State :=
  foldl (fun st uri => snd (closeFile pathToUri world (uriToPath uri) st)) st files.

(** What a server that follows the document lifecycle makes of a trace: the
    documents it holds open, each with the last version it was told; [None]
    once a notification breaks the lifecycle (a [didOpen] for an open
    document, a [didChange] or [didClose] for one that is not open, a
    [didChange] whose version does not go up). *)
Definition serverStep (docs : option (gmap string Z)) (n : Notification)
  : option (gmap string Z) :=
  match docs with
  | None => None
  | Some docs =>
      match n with
      | DidOpen u _ v _ =>
          match docs !! u with
          | None => Some (<[u := v]> docs)
          | Some _ => None
          end
      | DidChange u v _ =>
          match docs !! u with
          | Some v0 => if v0 <? v then Some (<[u := v]> docs) else None
          | None => None
          end
      | DidClose u =>
          match docs !! u with
          | Some _ => Some (delete u docs)
          | None => None
          end
      end
  end.

Definition serverView (ns : list Notification) : option (gmap string Z) :=
  foldl serverStep (Some ∅) ns.

(** The registry and the wire agree: the documents open on the wire are the
    URIs of the registry, each stored under its own URI with a version at
    least the last one sent. *)
Definition agrees (st : State) : Prop :=
  exists docs,
    serverView (sent st) = Some docs
    /\ dom docs = dom (openFiles st)
    /\ forall u v, docs !! u = Some v ->
         exists info, openFiles st !! u = Some info
                      /\ 1 <= v <= version info /\ info_uri info = u.

(** A world in which every file reads as [content] and writes go through. *)
Definition steadyWorld (content : string) : World :=
  {| readFile := fun _ => Some content; stdinWritable := true |}.

End Client.

(** ** tools/rename.ts and tools/edit.ts: applyWorkspaceEdit *)

Module WorkspaceEdit.

Record TextEdit := { edit_range : Range; newText : string }.

(** The comparator handed to [sort]. *)
Definition compareEdits (a b : TextEdit) : Z :=
  if negb (line (start (edit_range b)) =? line (start (edit_range a)))
  then line (start (edit_range b)) - line (start (edit_range a))
  else character (start (edit_range b)) - character (start (edit_range a)).

Definition undefinedLine : string :=
  "TypeError: cannot read properties of undefined (reading 'substring')".

(** One round of the loop over the sorted edits. *)
Definition applyEdit (lines : list string) (edit : TextEdit) : result (list string) :=
  let startLine := line (start (edit_range edit)) in
  let startChar := character (start (edit_range edit)) in
  let endLine := line (end_ (edit_range edit)) in
  let endChar := character (end_ (edit_range edit)) in
  if startLine =? endLine then
    match JS.index lines startLine with
    | None => Throw undefinedLine
    | Some ln =>
        Ok (<[Z.to_nat startLine :=
                JS.substring_to ln startChar +:+ newText edit +:+ JS.substring_from ln endChar]>
              lines)
    end
  else
    match JS.index lines startLine with
    | None => Throw undefinedLine
    | Some first =>
        match JS.index lines endLine with
        | None => Throw undefinedLine
        | Some last =>
            let startLineText := JS.substring_to first startChar in
            let endLineText := JS.substring_from last endChar in
            Ok (JS.splice lines startLine (endLine - startLine + 1)
                  (startLineText +:+ newText edit +:+ endLineText))
        end
    end.

Fixpoint applySorted (lines : list string) (sortedEdits : list TextEdit)
  : result (list string) :=
  match sortedEdits with
  | [] => Ok lines
  | edit :: rest => lines' <-! applyEdit lines edit ;; applySorted lines' rest
  end.

(** What [applyWorkspaceEdit] does to the content of one file. *)
Definition applyFileEdits (content : string) (edits : list TextEdit) : result string :=
  let lines := JS.split content JS.LF in
  let sortedEdits := JS.sort compareEdits edits in
  lines' <-! applySorted lines sortedEdits ;;
  Ok (JS.join JS.LF lines').

(** [applyWorkspaceEdit] over the entries of [edit.changes], on a file
    system that maps a path to its content.  A failure leaves the files
    written so far as they are. *)
Fixpoint applyWorkspaceEdit (uriToPath : string -> string)
    (changes : list (string * list TextEdit)) (fs : gmap string string)
  : result unit * gmap string string :=
  match changes with
  | [] => (Ok tt, fs)
  | (uri, edits) :: rest =>
      let filePath := uriToPath uri in
      match fs !! filePath with
      | None => (Throw "ENOENT: no such file or directory", fs)
      | Some content =>
          match applyFileEdits content edits with
          | Throw msg => (Throw msg, fs)
          | Ok content' => applyWorkspaceEdit uriToPath rest (<[filePath := content']> fs)
          end
      end
  end.

(** Vocabulary of the statements. *)
Definition positionLe (p q : Position) : Prop :=
  line p < line q \/ (line p = line q /\ character p <= character q).

(** Two edits do not overlap when one ends at or before the start of the
    other. *)
Definition disjointEdits (a b : TextEdit) : Prop :=
  positionLe (end_ (edit_range a)) (start (edit_range b))
  \/ positionLe (end_ (edit_range b)) (start (edit_range a)).

Definition nonOverlapping (edits : list TextEdit) : Prop :=
  forall i j a b,
    i <> j -> edits !! i = Some a -> edits !! j = Some b -> disjointEdits a b.

Definition startOf (e : TextEdit) : Position := start (edit_range e).

Definition distinctStarts (edits : list TextEdit) : Prop := NoDup (startOf <$> edits).

(** [a] may stand before [b] in the sorted array. *)
Definition descends (a b : TextEdit) : Prop := compareEdits a b <= 0.

Definition ascendingOrder (edits : list TextEdit) : list TextEdit :=
  JS.sort (fun a b => compareEdits b a) edits.

Definition mkEdit (sl sc el ec : Z) (t : string) : TextEdit :=
  {| edit_range := {| start := {| line := sl; character := sc |};
                      end_ := {| line := el; character := ec |} |};
     newText := t |}.

(** Sample inputs: the two edits of the spec's scenario, and two inserts at
    one position. *)
Definition scenarioContent : string :=
  "0123456789
second
third line
fourth".

Definition editXYZ : TextEdit := mkEdit 0 5 0 8 "XYZ".
Definition editAB : TextEdit := mkEdit 2 0 3 4 "AB".

Definition insertA : TextEdit := mkEdit 0 0 0 0 "A".
Definition insertB : TextEdit := mkEdit 0 0 0 0 "B".

End WorkspaceEdit.

(** ** tools/edit.ts: line-based edits *)

Module EditTool.
Import WorkspaceEdit.

(** The tool's input: 1-indexed lines, inclusive on both ends. *)
Record LineEdit := { startLine : Z; endLine : Z; lineText : string }.

Definition lineEnding (content : string) : string :=
  if JS.includes content JS.CRLF then JS.CRLF else JS.LF.

(** [lines[i]?.length || 0]. *)
Definition lengthOrZero (lines : list string) (i : Z) : Z :=
  default 0 (JS.strlen <$> JS.index lines i).

(** [fs.promises.readFile(filePath, 'utf8')] on the files the disk holds,
    by path; a path that is not there rejects. *)
Definition fs_readFile (disk : gmap string string) (filePath : string) : result string :=
  match disk !! filePath with
  | Some content => Ok content
  | None => Throw "ENOENT: no such file or directory"
  end.

(** [getRange] from "Detect line ending style" on, for the content read. *)
Definition lineRange (content : string) (startLine endLine : Z) : result Range :=
  let lines := JS.split content (lineEnding content) in
  let len := Z.of_nat (length lines) in
  if startLine <? 1 then Throw ("Start line must be >= 1, got " +:+ JS.toString startLine)
  else
    let startIdx := startLine - 1 in
    let endIdx := endLine - 1 in
    if len <=? startIdx then
      (* EOF positioning *)
      let last0 := len - 1 in
      let last1 :=
        if (0 <=? last0) && bool_decide (JS.index lines last0 = Some ""%string)
        then last0 - 1 else last0 in
      let lastContentLineIdx := if last1 <? 0 then 0 else last1 in
      let pos := {| line := lastContentLineIdx;
                    character := lengthOrZero lines lastContentLineIdx |} in
      Ok {| start := pos; end_ := pos |}
    else
      let endIdx' := if len <=? endIdx then len - 1 else endIdx in
      Ok {| start := {| line := startIdx; character := 0 |};
            end_ := {| line := endIdx'; character := lengthOrZero lines endIdx' |} |}.

Definition getRange (disk : gmap string string) (filePath : string)
    (startLine endLine : Z) : result Range :=
  content <-! fs_readFile disk filePath ;;
  lineRange content startLine endLine.

(** The loop that turns the tool's edits into LSP edits; the edits come
    sorted by descending [startLine], and each range is computed on the
    file as it is on disk, before anything is written. *)
Fixpoint toLspEdits (disk : gmap string string) (filePath : string)
    (descendingEdits : list LineEdit) : result (list TextEdit) :=
  match descendingEdits with
  | [] => Ok []
  | e :: rest =>
      r <-! getRange disk filePath (startLine e) (endLine e) ;;
      rs <-! toLspEdits disk filePath rest ;;
      Ok ({| edit_range := r; newText := lineText e |} :: rs)
  end.

(** The two counts of the tool's report, summed over the edits in
    ascending order of [startLine]. *)
Definition countStep (counts : Z * Z) (edit : LineEdit) : Z * Z :=
  let removedLineCount := endLine edit - startLine edit + 1 in
  let addedLineCount :=
    if negb (String.eqb (lineText edit) "")
    then Z.of_nat (length (JS.split (lineText edit) JS.LF))
    else 0 in
  (fst counts + removedLineCount, snd counts + addedLineCount).

Definition reportCounts (edits : list LineEdit) : Z * Z :=
  let sortedEdits := JS.sort (fun a b => startLine a - startLine b) edits in
  foldl countStep (0, 0) sortedEdits.

(** What [applyTextEdits] returns once the file is written. *)
Definition report (edits : list LineEdit) : string :=
  let '(linesRemoved, linesAdded) := reportCounts edits in
  "Successfully applied text edits. " +:+ JS.toString linesRemoved
    +:+ " lines removed, " +:+ JS.toString linesAdded +:+ " lines added.".

(** The [applyWorkspaceEdit] of edit.ts takes the path of a file from its
    URI by [uri.replace('file://', '')]. *)
Definition uriPath (uri : string) : string := JS.replace uri "file://" "".

(** What [applyTextEdits] works on: the files on disk and the client's
    registry of open files. *)
Record Env := {
  disk : gmap string string;
  client : Client.State
}.

Section WithClient.

(** [pathToUri] goes through the vscode-uri package; [detectLanguageId] is
    the client's extension table; [stdinWritable] tells whether a write to
    the server goes through. *)
Variable pathToUri : string -> string.
Variable detectLanguageId : string -> string.
Variable stdinWritable : bool.

(** [client.openFile(filePath)], on the files the disk holds. *)
Definition openFile (filePath : string) (env : Env) : result unit * Client.State :=
  Client.openFile pathToUri detectLanguageId
    {| Client.readFile := fun path => disk env !! path;
       Client.stdinWritable := stdinWritable |}
    filePath (client env).

(** [applyTextEdits]: the outcome, and the disk and the registry the call
    leaves. *)
Definition applyTextEdits (filePath : string) (edits : list LineEdit) (env : Env)
  : result string * Env :=
  let uri := pathToUri filePath in
  match openFile filePath env with
  | (Throw err, client') =>
      (Throw ("Could not open file: Error: " +:+ err),
       {| disk := disk env; client := client' |})
  | (Ok _, client') =>
      let descendingEdits := JS.sort (fun a b => startLine b - startLine a) edits in
      match toLspEdits (disk env) filePath descendingEdits with
      | Throw msg => (Throw msg, {| disk := disk env; client := client' |})
      | Ok lspEdits =>
          match applyWorkspaceEdit uriPath [(uri, lspEdits)] (disk env) with
          | (Throw msg, disk') => (Throw msg, {| disk := disk'; client := client' |})
          | (Ok _, disk') => (Ok (report edits), {| disk := disk'; client := client' |})
          end
      end
  end.

End WithClient.

(** The line a past-EOF edit is placed on: the last line, or the line
    before it when the last line is empty and is not the only one. *)
Definition lastContentLine (lines : list string) : nat :=
  match reverse lines with
  | EmptyString :: _ :: _ => length lines - 2
  | _ => length lines - 1
  end.

(** Sample input: a two-line file that ends with a line feed, and an edit
    that starts on line 4. *)
Definition twoLines : string :=
  "a
b
".

Definition pastEof : LineEdit := {| startLine := 4; endLine := 4; lineText := "X" |}.

(** A disk that holds one file, and a client that has opened nothing. *)
Definition oneFile (filePath content : string) : Env :=
  {| disk := {[ filePath := content ]}; client := Client.initialState |}.

(** A file with both kinds of line ending. *)
Definition mixedEndings : string := "a" +:+ JS.LF +:+ "b" +:+ JS.CRLF +:+ "c".

(** A [pathToUri] that writes a space as [%20], as vscode-uri does. *)
Fixpoint encodeSpaces (filePath : string) : string :=
  match filePath with
  | EmptyString => EmptyString
  | String c rest =>
      if Ascii.eqb c " " then "%20" +:+ encodeSpaces rest
      else String c (encodeSpaces rest)
  end.

Definition encodingUri (filePath : string) : string := "file://" +:+ encodeSpaces filePath.

(** The tool on sample paths: [file://] goes before the path, as vscode-uri
    has it for an absolute path of plain characters. *)
Definition sampleApply (filePath : string) (edits : list LineEdit) (env : Env)
  : result string * Env :=
  applyTextEdits Client.fileUri (fun _ => "plaintext"%string) true filePath edits env.

(** The number of lines of a file, a final empty one included. *)
Definition lineCount (content : string) : Z :=
  Z.of_nat (length (JS.split content JS.LF)).

Definition lineEdit (s e : Z) (text : string) : LineEdit :=
  {| startLine := s; endLine := e; lineText := text |}.

Definition fiveLines : string :=
  "one
two
three
four
five".

(** Vocabulary for batches.  [separated below edits]: the edits, listed
    from the bottom of the file up, each cover existing lines
    ([1 <= startLine <= endLine]), the first one ends above line [below],
    and each next one ends above the start of the one before. *)
Fixpoint separated (below : Z) (descending : list LineEdit) : Prop :=
  match descending with
  | [] => True
  | edit :: rest =>
      1 <= startLine edit <= endLine edit /\ endLine edit < below
      /\ separated (startLine edit) rest
  end.

(** The lines of the file with the lines of each edit replaced by the
    edit's text. *)
Fixpoint replaceLines (lines : list string) (descending : list LineEdit) : list string :=
  match descending with
  | [] => lines
  | edit :: rest =>
      replaceLines (take (Z.to_nat (startLine edit - 1)) lines) rest
        ++ [lineText edit] ++ drop (Z.to_nat (endLine edit)) lines
  end.

(** The LSP edit for the whole lines of a line edit, on a file with the
    lines [lines]. *)
Definition wholeLines (lines : list string) (edit : LineEdit) : TextEdit :=
  mkEdit (startLine edit - 1) 0 (endLine edit - 1)
    (lengthOrZero lines (endLine edit - 1)) (lineText edit).

End EditTool.

(** ** lsp/transport.ts: framing *)

Module Transport.

(** A [Buffer] is a string of bytes: each character is one byte. *)
Definition Buffer := string.

(** [buf.slice(0, n)] and [buf.slice(n)]. *)
Definition sliceTo (buf : Buffer) (n : Z) : Buffer :=
  JS.take_str (Z.to_nat (JS.clampIndex (JS.strlen buf) n)) buf.
Definition sliceFrom (buf : Buffer) (n : Z) : Buffer :=
  JS.drop_str (Z.to_nat (JS.clampIndex (JS.strlen buf) n)) buf.

Definition numOrZero (n : JS.Num) : Z :=
  match n with JS.NaN => 0 | JS.Int z => z end.

(** [Buffer.concat(list)]. *)
Fixpoint concatBuffers (l : list Buffer) : Buffer :=
  match l with
  | [] => EmptyString
  | b :: l' => b +:+ concatBuffers l'
  end.

Record MessageReader := {
  buffer : Buffer;
  contentLength : JS.Num
}.

(** [new MessageReader(stream)]. *)
Definition newReader : MessageReader :=
  {| buffer := EmptyString; contentLength := JS.Int (-1) |}.

Inductive Outcome (Msg : Type) :=
| Pending                       (* return without settling the promise *)
| Resolved (message : Msg)
| Rejected (error : string).
Arguments Pending {Msg}.
Arguments Resolved {Msg} message.
Arguments Rejected {Msg} error.

Definition headerSeparator : string := JS.CRLF +:+ JS.CRLF.
Definition contentLengthPrefix : string := "Content-Length: ".

Section WithRuntime.

(** The runtime's part: the messages as JavaScript values with
    [JSON.stringify] and [JSON.parse] ([None] when it throws), and the UTF-8
    codec between strings and buffers. *)
Variable LSPMessage : Type.
Variable JSON_stringify : LSPMessage -> string.
Variable JSON_parse : string -> option LSPMessage.
Variable utf8_encode : string -> Buffer.
Variable utf8_decode : Buffer -> string.

(** [writeMessage]: the bytes handed to [stream.write] in one call. *)
Definition writeMessage (message : LSPMessage) : Buffer :=
  let content := JSON_stringify message in
  let contentLength := JS.strlen (utf8_encode content) in     (* Buffer.byteLength *)
  let header :=
    contentLengthPrefix +:+ JS.toString contentLength +:+ JS.CRLF +:+ JS.CRLF in
  let fullMessage := header +:+ content in
  utf8_encode fullMessage.

(** The loop over the header lines. *)
Definition readHeaderLine (contentLength : JS.Num) (ln : string) : JS.Num :=
  if JS.startsWith ln contentLengthPrefix
  then JS.parseInt (JS.substring_from ln 16)
  else contentLength.

(** The second half of [tryParse], from "Check if we have the complete
    content". *)
Definition parseContent (r : MessageReader) : Outcome LSPMessage * MessageReader :=
  if JS.num_ltb (JS.Int (JS.strlen (buffer r))) (contentLength r) then (Pending, r)
  else
    let n := numOrZero (contentLength r) in
    let content := utf8_decode (sliceTo (buffer r) n) in
    let r' := {| buffer := sliceFrom (buffer r) n; contentLength := JS.Int (-1) |} in
    match JSON_parse content with
    | Some message => (Resolved message, r')
    | None => (Rejected "Failed to parse LSP message", r')
    end.

Definition tryParse (r : MessageReader) : Outcome LSPMessage * MessageReader :=
  if JS.num_ltb (contentLength r) (JS.Int 0) then
    match JS.indexOf (buffer r) headerSeparator with
    | None => (Pending, r)                      (* need more data for headers *)
    | Some headerEnd =>
        let headers := utf8_decode (sliceTo (buffer r) (Z.of_nat headerEnd)) in
        let lines := JS.split headers JS.CRLF in
        let contentLength' := foldl readHeaderLine (contentLength r) lines in
        if JS.num_ltb contentLength' (JS.Int 0) then
          (Rejected "Missing Content-Length header",
           {| buffer := buffer r; contentLength := contentLength' |})
        else
          parseContent {| buffer := sliceFrom (buffer r) (Z.of_nat headerEnd + 4);
                          contentLength := contentLength' |}
    end
  else parseContent r.

(** [onData]: the chunk joins the buffer, then [tryParse]. *)
Definition onData (r : MessageReader) (chunk : Buffer) : Outcome LSPMessage * MessageReader :=
  tryParse {| buffer := buffer r +:+ chunk; contentLength := contentLength r |}.

(** [awaitData] is the promise once its listeners are in place.  [chunks]
    are the chunks the stream emits from then on, in order; when none is
    left the stream ends.  It gives the first settlement, the reader then,
    and the chunks the stream emits after the settlement. *)
Fixpoint awaitData (r : MessageReader) (chunks : list Buffer)
  : Outcome LSPMessage * MessageReader * list Buffer :=
  match chunks with
  | [] => (Rejected "LSP connection closed (EOF)", r, [])
  | chunk :: rest =>
      match onData r chunk with
      | (Pending, r') => awaitData r' rest
      | (settled, r') => (settled, r', rest)
      end
  end.

Definition readMessage (r : MessageReader) (chunks : list Buffer)
  : Outcome LSPMessage * MessageReader * list Buffer :=
  match tryParse r with             (* "Try to parse if we already have data" *)
  | (Pending, r') => awaitData r' chunks
  | (settled, r') => (settled, r', chunks)
  end.

(** The stream emits its chunks in bursts: the chunks of one burst are
    emitted one after the other within a single turn of the event loop (the
    chunks the stream holds when it starts to flow, for one), and the
    stream ends in a turn of its own, after the last burst.  The client's
    loop, [handleMessages], awaits each read, so that it calls [readMessage]
    again only once the turn is over. *)
Definition Burst := list Buffer.

(** The bursts not yet started when a read settles, the stream having
    emitted [consumed] chunks for it.  A read that resolves takes its
    listeners off the stream ("Cleanup listeners") and the stream stays
    flowing: what is left of the burst in which the read resolved is
    emitted to no listener and is gone, so that these bursts are all the
    next read is given.  A read that resolves from the buffer alone
    ([consumed = 0]) leaves the bursts as they are. *)
Fixpoint afterRead (consumed : nat) (bursts : list Burst) : list Burst :=
  match bursts with
  | [] => []
  | burst :: later =>
      match consumed with
      | O => bursts
      | S _ =>
          if (consumed <=? length burst)%nat then later
          else afterRead (consumed - length burst) later
      end
  end.

(** Every chunk in a turn of its own. *)
Definition oneByOne (chunks : list Buffer) : list Burst :=
  map (fun chunk => [chunk]) chunks.

(** [n] successive [readMessage] calls, as the client's loop makes them,
    each started between two bursts; the loop stops at the first rejection.
    The result is the messages read, the reader after the last read, and
    the bursts not yet started then. *)
Fixpoint readMessages (n : nat) (r : MessageReader) (bursts : list Burst)
  : list LSPMessage * MessageReader * list Burst :=
  match n with
  | O => ([], r, bursts)
  | S k =>
      let chunks := concat bursts in
      match readMessage r chunks with
      | (Resolved message, r', chunks') =>
          let bursts' := afterRead (length chunks - length chunks') bursts in
          let '(messages, r'', bursts'') := readMessages k r' bursts' in
          (message :: messages, r'', bursts'')
      | (_, r', chunks') => ([], r', afterRead (length chunks - length chunks') bursts)
      end
  end.

(** The header lines [writeMessage] produces for a body of [n] bytes. *)
Definition headerFields (n : Z) : string := contentLengthPrefix +:+ JS.toString n.

(** The bytes of a stream of messages. *)
Definition framed (messages : list LSPMessage) : Buffer :=
  concatBuffers (map writeMessage messages).

(** What the statements ask of the runtime for one message: the text
    survives encoding and decoding, and parses back to the message. *)
Definition roundTrips (message : LSPMessage) : Prop :=
  JSON_parse (utf8_decode (utf8_encode (JSON_stringify message))) = Some message.

(** The body of a message on the wire. *)
Definition body (message : LSPMessage) : Buffer := utf8_encode (JSON_stringify message).

(** A read that resolves with [message], leaves the reader between two
    messages, and leaves [rest] behind, part in the buffer and part in the
    chunks the stream emits after it. *)
Definition delivers (message : LSPMessage) (rest : Buffer)
    (res : Outcome LSPMessage * MessageReader * list Buffer) : Prop :=
  exists r' chunks',
    res = (Resolved message, r', chunks')
    /\ contentLength r' = JS.Int (-1)
    /\ buffer r' +:+ concatBuffers chunks' = rest.

End WithRuntime.

(** Characters below 128 are one byte each in UTF-8 and stand for
    themselves. *)
Definition isAscii (c : ascii) : bool := (nat_of_ascii c <? 128)%nat.

Fixpoint allAscii (s : string) : bool :=
  match s with
  | EmptyString => true
  | String c s' => isAscii c && allAscii s'
  end.

Fixpoint allDigits (s : string) : bool :=
  match s with
  | EmptyString => true
  | String c s' => JS.isDigit c && allDigits s'
  end.

(** No carriage return in [s]. *)
Fixpoint noCR (s : string) : bool :=
  match s with
  | EmptyString => true
  | String c s' => negb (Ascii.eqb c (ascii_of_nat 13)) && noCR s'
  end.

(** A codec for the 8-bit code units of the model: one byte below 128, two
    bytes from 128 on, as UTF-8 has them; a byte sequence that is not of
    this form decodes byte by byte. *)
Definition encodeUnit (c : ascii) : string :=
  let n := nat_of_ascii c in
  if (n <? 128)%nat then String c EmptyString
  else String (ascii_of_nat (192 + n / 64))
         (String (ascii_of_nat (128 + n mod 64)) EmptyString).

Fixpoint latin1_utf8_encode (s : string) : Buffer :=
  match s with
  | EmptyString => EmptyString
  | String c s' => encodeUnit c +:+ latin1_utf8_encode s'
  end.

Fixpoint latin1_utf8_decode (b : Buffer) : string :=
  match b with
  | EmptyString => EmptyString
  | String c1 b1 =>
      let n1 := nat_of_ascii c1 in
      match b1 with
      | String c2 b2 =>
          let n2 := nat_of_ascii c2 in
          if ((194 <=? n1) && (n1 <=? 195) && (128 <=? n2) && (n2 <=? 191))%nat
          then String (ascii_of_nat ((n1 - 192) * 64 + (n2 - 128))) (latin1_utf8_decode b2)
          else String c1 (latin1_utf8_decode b1)
      | EmptyString => String c1 EmptyString
      end
  end.

(** Sample stream.  The messages are JSON texts standing for their values,
    so that [JSON.stringify] and [JSON.parse] are the identity on them; the
    second one holds a character above 127, two bytes on the wire.  The
    stream is cut seven bytes into the body of the second message. *)
Definition quote : string := String (ascii_of_nat 34) EmptyString.

Definition sampleRequest : string :=
  "{" +:+ quote +:+ "id" +:+ quote +:+ ":1}".

Definition sampleNotification : string :=
  "{" +:+ quote +:+ "method" +:+ quote +:+ ":" +:+ quote
      +:+ String (ascii_of_nat 233) "t" +:+ String (ascii_of_nat 233) quote +:+ "}".

Definition sampleWrite : string -> Buffer :=
  writeMessage string (fun m => m) latin1_utf8_encode.

Definition sampleCut : nat :=
  String.length (sampleWrite sampleRequest)
  + String.length (headerFields (JS.strlen (latin1_utf8_encode sampleNotification)))
  + 4 + 7.

Definition sampleChunks : list Buffer :=
  let stream := sampleWrite sampleRequest +:+ sampleWrite sampleNotification in
  [JS.take_str sampleCut stream; JS.drop_str sampleCut stream].

(** The two frames as two chunks of one burst. *)
Definition sampleBurst : Burst :=
  [sampleWrite sampleRequest; sampleWrite sampleNotification].

(** A header line other than the ones [writeMessage] produces: no carriage
    return in it, ASCII, not empty. *)
Definition plainHeader (ln : string) : Prop :=
  noCR ln = true /\ allAscii ln = true /\ ln <> ""%string.

Definition notContentLength (ln : string) : Prop :=
  JS.startsWith ln contentLengthPrefix = false.

Definition contentType : string := "Content-Type: application/vscode-jsonrpc; charset=utf-8".

End Transport.

(** ** lsp/client.ts: requests and their responses, the diagnostics store *)

Module Requests.

(** A JSON-RPC id is a number or a string. *)
Inductive Id := IdNumber (n : Z) | IdString (s : string).

(** [id.toString()]. *)
Definition idToString (id : Id) : string :=
  match id with
  | IdNumber n => JS.toString n
  | IdString s => s
  end.

Section WithPayload.

(** What a response carries besides its id. *)
Variable Payload : Type.

(** The resolver that [call] stores is named by the id of the call that
    made it; [written] lists the requests on the wire and [resolved] the
    resolver calls, each with the message handed over. *)
Record State := {
  nextId : Z;
  pendingRequests : gmap string Z;
  written : list (Z * string);
  resolved : list (Z * (Id * Payload))
}.

Definition initialState : State :=
  {| nextId := 1; pendingRequests := ∅; written := []; resolved := [] |}.

(** [call], up to the point where it waits for the response: the id is
    taken and the resolver stored before the request is written. *)
Definition call (stdinWritable : bool) (method : string) (st : State)
  : result Z * State :=
  let id := nextId st in
  let idStr := JS.toString id in
  let st1 := {| nextId := id + 1;
                pendingRequests := <[idStr := id]> (pendingRequests st);
                written := written st;
                resolved := resolved st |} in
  if stdinWritable
  then (Ok id, {| nextId := nextId st1;
                  pendingRequests := pendingRequests st1;
                  written := written st1 ++ [(id, method)];
                  resolved := resolved st1 |})
  else (Throw "Failed to write message", st1).

Definition handleResponse (message : Id * Payload) (st : State) : State :=
  let idStr := idToString (fst message) in
  match pendingRequests st !! idStr with
  | Some resolver =>
      {| nextId := nextId st;
         pendingRequests := delete idStr (pendingRequests st);
         written := written st;
         resolved := resolved st ++ [(resolver, message)] |}
  | None => st
  end.

(** What happens to the client: it makes a call, or a response arrives. *)
Inductive Event :=
| Call (stdinWritable : bool) (method : string)
| Response (message : Id * Payload).

Definition step (st : State) (e : Event) : State :=
  match e with
  | Call w method => snd (call w method st)
  | Response message => handleResponse message st
  end.

Definition run (events : list Event) : State := foldl step initialState events.

(** The invariant of a run. *)
Definition correlated (st : State) : Prop :=
  1 <= nextId st
  /\ NoDup (fst <$> resolved st)
  /\ (forall c message, (c, message) ∈ resolved st ->
        idToString (fst message) = JS.toString c /\ 1 <= c < nextId st)
  /\ (forall k c, pendingRequests st !! k = Some c ->
        k = JS.toString c /\ 1 <= c < nextId st /\ c ∉ fst <$> resolved st).

End WithPayload.

Arguments nextId {Payload} _.
Arguments pendingRequests {Payload} _.
Arguments written {Payload} _.
Arguments resolved {Payload} _.
Arguments initialState {Payload}.
Arguments call {Payload} _ _ _.
Arguments handleResponse {Payload} _ _.
Arguments Call {Payload} _ _.
Arguments Response {Payload} _.
Arguments step {Payload} _ _.
Arguments run {Payload} _.
Arguments correlated {Payload} _.

(** *** The diagnostics store *)

Section WithDiagnostic.

Variable Diagnostic : Type.

(** The params of [textDocument/publishDiagnostics] as they may arrive: a
    field that is [None] is missing or null. *)
Record PublishDiagnosticsParams := {
  pd_uri : option string;
  pd_diagnostics : option (list Diagnostic)
}.

(** [!params?.uri] holds for a missing URI and for the empty string. *)
Definition handleDiagnostics (params : option PublishDiagnosticsParams)
    (diagnostics : gmap string (list Diagnostic)) : gmap string (list Diagnostic) :=
  match params with
  | None => diagnostics
  | Some p =>
      match pd_uri p with
      | None => diagnostics
      | Some u =>
          if String.eqb u "" then diagnostics
          else <[u := default [] (pd_diagnostics p)]> diagnostics
      end
  end.

Definition getFileDiagnostics (uri : string) (diagnostics : gmap string (list Diagnostic))
  : list Diagnostic :=
  default [] (diagnostics !! uri).

(** The store after the notifications [ps], starting empty. *)
Definition published (ps : list (option PublishDiagnosticsParams))
  : gmap string (list Diagnostic) :=
  foldl (fun store p => handleDiagnostics p store) ∅ ps.

(** The diagnostics a notification carries for [uri], if it is about it. *)
Definition diagnosticsFor (uri : string) (params : option PublishDiagnosticsParams)
  : option (list Diagnostic) :=
  match params with
  | Some p =>
      if bool_decide (pd_uri p = Some uri) then Some (default [] (pd_diagnostics p))
      else None
  | None => None
  end.

End WithDiagnostic.

Arguments pd_uri {Diagnostic} _.
Arguments pd_diagnostics {Diagnostic} _.
Arguments handleDiagnostics {Diagnostic} _ _.
Arguments getFileDiagnostics {Diagnostic} _ _.
Arguments published {Diagnostic} _.
Arguments diagnosticsFor {Diagnostic} _ _.

End Requests.

(** ** tools/references.ts: the match policy of [findReferences] *)

Module ReferencesTool.
Import Types.

(** The test under which the loop [continue]s past a symbol;
    [methodName] is [parts[parts.length - 1]]. *)
Definition skipped (symbolName : string) (sym : ISymbol) : bool :=
  if JS.includes symbolName "." then
    let parts := JS.split symbolName "." in
    let methodName := JS.index parts (Z.of_nat (length parts) - 1) in
    negb (String.eqb (getName sym) symbolName)
    && negb (bool_decide (Some (getName sym) = methodName))
  else
    negb (String.eqb (getName sym) symbolName).

Definition accepted (symbolName : string) (rawSymbol : RawSymbol) : bool :=
  negb (skipped symbolName (wrapSymbol rawSymbol)).

End ReferencesTool.

(** ** lsp/cache.ts: the cache of query results *)

Module Cache.

Record CacheConfig := {
  enabled : bool;
  maxSymbolCacheSize : Z;
  maxLocationCacheSize : Z;
  ttlSeconds : option Z        (* whole seconds; [None] is [undefined] *)
}.

Record CacheEntry (T : Type) := { data : T; timestamp : Z }.
Arguments data {T} _.
Arguments timestamp {T} _.

(** [isExpired]; [now] is [Date.now()], in milliseconds.  A TTL of 0 is
    falsy and counts as no TTL. *)
Definition isExpired {T} (config : CacheConfig) (now : Z) (entry : CacheEntry T) : bool :=
  match ttlSeconds config with
  | None => false
  | Some ttl =>
      if ttl =? 0 then false
      else ttl * 1000 <? now - timestamp entry     (* age > ttlSeconds *)
  end.

(** A [Map] as the list of its entries in insertion order: [set] on a key
    the map has keeps the key's place, [keys().next().value] is the key of
    the first entry. *)
Definition OrderedMap (T : Type) : Type := list (string * T).

Fixpoint mapGet {T} (key : string) (m : OrderedMap T) : option T :=
  match m with
  | [] => None
  | (k, v) :: rest => if String.eqb k key then Some v else mapGet key rest
  end.

Fixpoint mapSet {T} (key : string) (value : T) (m : OrderedMap T) : OrderedMap T :=
  match m with
  | [] => [(key, value)]
  | (k, v) :: rest =>
      if String.eqb k key then (k, value) :: rest else (k, v) :: mapSet key value rest
  end.

Definition mapDelete {T} (key : string) (m : OrderedMap T) : OrderedMap T :=
  filter (fun kv => fst kv <> key) m.

Definition mapSize {T} (m : OrderedMap T) : Z := Z.of_nat (length m).

Section WithSymbols.

(** [String.prototype.toLowerCase]. *)
Variable toLowerCase : string -> string.

Variable Symbols : Type.

Definition symbolCacheKey (symbolName : string) : string := toLowerCase symbolName.

Definition getWorkspaceSymbols (config : CacheConfig) (now : Z) (symbolName : string)
    (cache : OrderedMap (CacheEntry Symbols))
  : option Symbols * OrderedMap (CacheEntry Symbols) :=
  if negb (enabled config) then (None, cache)
  else
    let key := symbolCacheKey symbolName in
    match mapGet key cache with
    | None => (None, cache)
    | Some entry =>
        if isExpired config now entry then (None, mapDelete key cache)
        else (Some (data entry), cache)
    end.

Definition setWorkspaceSymbols (config : CacheConfig) (now : Z) (symbolName : string)
    (symbols : Symbols) (cache : OrderedMap (CacheEntry Symbols))
  : OrderedMap (CacheEntry Symbols) :=
  if negb (enabled config) then cache
  else
    let key := symbolCacheKey symbolName in
    let cache1 :=
      if maxSymbolCacheSize config <=? mapSize cache then
        match cache with
        | (firstKey, _) :: _ =>
            (* [if (firstKey)]: the empty string is falsy *)
            if negb (String.eqb firstKey "") then mapDelete firstKey cache else cache
        | [] => cache
        end
      else cache in
    mapSet key {| data := symbols; timestamp := now |} cache1.

(** The cache after caching the results of the queries [names] in turn,
    from an empty cache; each query comes with the time of its caching
    and its results. *)
Definition cached (config : CacheConfig) (queries : list (Z * string * Symbols))
  : OrderedMap (CacheEntry Symbols) :=
  foldl (fun cache q => setWorkspaceSymbols config (fst (fst q)) (snd (fst q)) (snd q) cache)
    [] queries.

End WithSymbols.

(** *** The caches kept by file and position *)

Section WithLocations.

Variable Locations : Type.

Definition positionCacheKey (line character : Z) : string :=
  JS.toString line +:+ ":" +:+ JS.toString character.

(** File path to position key to entry. *)
Definition LocationCaches : Type := gmap string (gmap string (CacheEntry Locations)).

Definition getDefinitions (config : CacheConfig) (now : Z) (filePath : string)
    (line character : Z) (cache : LocationCaches) : option Locations * LocationCaches :=
  if negb (enabled config) then (None, cache)
  else
    match cache !! filePath with
    | None => (None, cache)
    | Some uriCache =>
        let posKey := positionCacheKey line character in
        match uriCache !! posKey with
        | None => (None, cache)
        | Some entry =>
            if isExpired config now entry
            then (None, <[filePath := delete posKey uriCache]> cache)
            else (Some (data entry), cache)
        end
    end.

Definition setDefinitions (config : CacheConfig) (now : Z) (filePath : string)
    (line character : Z) (locations : Locations) (cache : LocationCaches) : LocationCaches :=
  if negb (enabled config) then cache
  else
    let uriCache := default ∅ (cache !! filePath) in
    let posKey := positionCacheKey line character in
    <[filePath := <[posKey := {| data := locations; timestamp := now |}]> uriCache]> cache.

(** [invalidateFile], on one of the caches kept by file. *)
Definition invalidateFile (filePath : string) (cache : LocationCaches) : LocationCaches :=
  delete filePath cache.

End WithLocations.

(** Sample configuration: at most two cached queries, no TTL. *)
Definition smallCache : CacheConfig :=
  {| enabled := true; maxSymbolCacheSize := 2; maxLocationCacheSize := 500;
     ttlSeconds := None |}.

(** A stand-in for [toLowerCase] on the letters of the samples. *)
Definition lowerAscii (c : ascii) : ascii :=
  let n := nat_of_ascii c in
  if ((65 <=? n) && (n <=? 90))%nat then ascii_of_nat (n + 32) else c.

Fixpoint lowerCase (s : string) : string :=
  match s with
  | EmptyString => EmptyString
  | String c s' => String (lowerAscii c) (lowerCase s')
  end.

End Cache.

(** ** index.ts: the command line *)

Module Main.

Record Config := {
  workspaceDir : string;
  lspCommand : string;
  lspArgs : list string
}.

(** The loop of [parseConfig] over [args]: the values of [workspaceDir] and
    [lspCommand] when it ends ([None] is [undefined], read past the end of
    the array), and the arguments after [--] once it has been found. *)
Fixpoint scanArgs (args : list string) (workspaceDir lspCommand : option string)
  : option string * option string * option (list string) :=
  match args with
  | [] => (workspaceDir, lspCommand, None)
  | arg :: rest =>
      if String.eqb arg "--workspace" then
        match rest with
        | [] => (None, lspCommand, None)
        | value :: rest' => scanArgs rest' (Some value) lspCommand
        end
      else if String.eqb arg "--lsp" then
        match rest with
        | [] => (workspaceDir, None, None)
        | value :: rest' => scanArgs rest' workspaceDir (Some value)
        end
      else if String.eqb arg "--" then (workspaceDir, lspCommand, Some rest)
      else scanArgs rest workspaceDir lspCommand
  end.

(** [!s] for a string that may be [undefined]. *)
Definition falsy (s : option string) : bool :=
  match s with
  | None => true
  | Some s => String.eqb s ""
  end.

Section WithFileSystem.

(** Node's [path.resolve] and [fs.existsSync]. *)
Variable path_resolve : string -> string.
Variable existsSync : string -> bool.

(** [parseConfig] on [process.argv.slice(2)]. *)
Definition parseConfig (args : list string) : result Config :=
  let '(workspaceDir, lspCommand, afterDash) :=
    scanArgs args (Some ""%string) (Some ""%string) in
  let lspArgs := default [] afterDash in
  if falsy workspaceDir then Throw "workspace directory is required (--workspace <dir>)"
  else if falsy lspCommand then Throw "LSP command is required (--lsp <command>)"
  else
    let workspaceDir := path_resolve (default ""%string workspaceDir) in
    if negb (existsSync workspaceDir)
    then Throw ("workspace directory does not exist: " +:+ workspaceDir)
    else Ok {| workspaceDir := workspaceDir;
               lspCommand := default ""%string lspCommand;
               lspArgs := lspArgs |}.

End WithFileSystem.

(** Vocabulary of the statements: a command line as a list of options, an
    option being one of the two flags with its value, or a word that is
    none of [--workspace], [--lsp], [--]. *)
Inductive CliOption :=
| Workspace (value : string)
| Lsp (value : string)
| Word (word : string).

Definition isKeyword (word : string) : bool :=
  String.eqb word "--workspace" || String.eqb word "--lsp" || String.eqb word "--".

Definition wellFormed (opt : CliOption) : Prop :=
  match opt with
  | Word word => isKeyword word = false
  | _ => True
  end.

Definition render (opt : CliOption) : list string :=
  match opt with
  | Workspace value => ["--workspace"%string; value]
  | Lsp value => ["--lsp"%string; value]
  | Word word => [word]
  end.

Definition workspaceOf (opt : CliOption) : option string :=
  match opt with Workspace value => Some value | _ => None end.

Definition lspOf (opt : CliOption) : option string :=
  match opt with Lsp value => Some value | _ => None end.

(** The arguments after the options: nothing, or [--] and the words for the
    language server. *)
Definition tail (afterDash : option (list string)) : list string :=
  match afterDash with
  | None => []
  | Some rest => "--"%string :: rest
  end.

End Main.

(** * Properties *)

(** ** Strings *)

Module StringFacts.

Lemma app_cons (c : ascii) (s t : string) : String c s +:+ t = String c (s +:+ t).
Proof. reflexivity. Qed.

Lemma app_empty_l (s : string) : "" +:+ s = s.
Proof. reflexivity. Qed.

Lemma app_empty_r (s : string) : s +:+ "" = s.
Proof. induction s as [|c s IH]; [reflexivity |]. by rewrite app_cons, IH. Qed.

Lemma app_assoc_str (a b c : string) : (a +:+ b) +:+ c = a +:+ (b +:+ c).
Proof. induction a as [|x a IH]; [reflexivity |]. by rewrite !app_cons, IH. Qed.

Lemma length_app_str (a b : string) :
  String.length (a +:+ b) = (String.length a + String.length b)%nat.
Proof. induction a as [|x a IH]; [reflexivity |]. rewrite app_cons. simpl. by rewrite IH. Qed.

Lemma take_drop_str n (s : string) : JS.take_str n s +:+ JS.drop_str n s = s.
Proof.
  revert s. induction n as [|n IH]; intros [|c s]; simpl; try reflexivity.
  by rewrite app_cons, IH.
Qed.

Lemma drop_str_app_length (p s : string) : JS.drop_str (String.length p) (p +:+ s) = s.
Proof.
  induction p as [|c p IH]; [by destruct s |]. rewrite app_cons. simpl. exact IH.
Qed.

Lemma take_str_app_length (p s : string) : JS.take_str (String.length p) (p +:+ s) = p.
Proof.
  induction p as [|c p IH]; [by destruct s |]. rewrite app_cons. simpl. by rewrite IH.
Qed.

Lemma take_str_length (s : string) : JS.take_str (String.length s) s = s.
Proof. induction s as [|c s IH]; simpl; [reflexivity | by rewrite IH]. Qed.

Lemma drop_str_length (s : string) : JS.drop_str (String.length s) s = "".
Proof. induction s as [|c s IH]; simpl; [reflexivity | exact IH]. Qed.

Lemma length_take_str n (s : string) :
  String.length (JS.take_str n s) = Nat.min n (String.length s).
Proof.
  revert s. induction n as [|n IH]; intros [|c s]; simpl; try reflexivity.
  by rewrite IH.
Qed.

Lemma prefix_spec (p s : string) :
  String.prefix p s = true <-> exists r, s = p +:+ r.
Proof.
  revert s. induction p as [|c p IH]; intros s.
  - split; [intros _; exists s; reflexivity | intros _; by destruct s].
  - destruct s as [|d s]; simpl.
    + split; [done | intros [r Hr]; discriminate].
    + destruct (ascii_dec c d) as [-> | Hne].
      * rewrite IH. split; intros [r Hr]; exists r.
        -- by rewrite app_cons, Hr.
        -- rewrite app_cons in Hr. by injection Hr.
      * split; [done |]. intros [r Hr]. rewrite app_cons in Hr.
        injection Hr as -> ?. contradiction.
Qed.

Lemma endsWith_spec (s suf : string) :
  JS.endsWith s suf = true <-> exists p, s = p +:+ suf.
Proof.
  unfold JS.endsWith. rewrite andb_true_iff, Nat.leb_le, String.eqb_eq. split.
  - intros [_ Hd]. exists (JS.take_str (String.length s - String.length suf) s).
    rewrite <- Hd at 2. symmetry. apply take_drop_str.
  - intros [p ->]. rewrite length_app_str. split; [lia |].
    replace (String.length p + String.length suf - String.length suf)%nat
      with (String.length p) by lia.
    apply drop_str_app_length.
Qed.

Lemma includes_cons (c : ascii) (s sub : string) :
  JS.includes (String c s) sub = String.prefix sub (String c s) || JS.includes s sub.
Proof. reflexivity. Qed.

Lemma includes_empty (sub : string) :
  JS.includes "" sub = String.prefix sub "" || false.
Proof. reflexivity. Qed.

Lemma includes_spec (s sub : string) :
  JS.includes s sub = true <-> exists a b, s = a +:+ sub +:+ b.
Proof.
  induction s as [|c s IH].
  - rewrite includes_empty, orb_true_iff, prefix_spec. split.
    + intros [[r Hr] | ?]; [| done]. exists ""%string, r. exact Hr.
    + intros (a & b & Hab). left. destruct a; [exists b; exact Hab | discriminate].
  - rewrite includes_cons, orb_true_iff, prefix_spec, IH. split.
    + intros [[r Hr] | (a & b & ->)]; [exists ""%string, r; exact Hr |].
      exists (String c a), b. reflexivity.
    + intros (a & b & Hab). destruct a as [|d a]; [left; exists b; exact Hab |].
      right. rewrite app_cons in Hab. injection Hab as -> ->. exists a, b. reflexivity.
Qed.

Lemma rev_str_onto_app (s acc : string) : JS.rev_str_onto s acc = JS.rev_str s +:+ acc.
Proof.
  unfold JS.rev_str. revert acc. induction s as [|c s IH]; intros acc; simpl.
  - reflexivity.
  - rewrite (IH (String c acc)), (IH (String c "")), app_assoc_str. reflexivity.
Qed.

Lemma rev_str_cons (c : ascii) (s : string) : JS.rev_str (String c s) = JS.rev_str s +:+ String c "".
Proof. unfold JS.rev_str at 1. simpl. apply rev_str_onto_app. Qed.

(** *** Splitting at line feeds and joining back *)

Lemma split_go_nonempty sep skip cur s : JS.split_go sep skip cur s <> [].
Proof.
  revert skip cur. induction s as [|c s IH]; intros skip cur; cbn [JS.split_go]; [done |].
  destruct skip; [| apply IH].
  destruct (String.prefix sep (String c s)); [done | apply IH].
Qed.

Lemma split_nonempty s sep : JS.split s sep <> [].
Proof. apply split_go_nonempty. Qed.

Lemma prefix_LF (c : ascii) (s : string) :
  String.prefix JS.LF (String c s) = Ascii.eqb (ascii_of_nat 10) c.
Proof.
  unfold JS.LF. cbn [String.prefix].
  destruct (ascii_dec (ascii_of_nat 10) c) as [<- | Hne].
  - rewrite Ascii.eqb_refl. by destruct s.
  - symmetry. by apply Ascii.eqb_neq.
Qed.

Lemma join_cons sep x l : l <> [] -> JS.join sep (x :: l) = x +:+ sep +:+ JS.join sep l.
Proof. by destruct l. Qed.

Lemma join_snoc sep l x : l <> [] -> JS.join sep (l ++ [x]) = JS.join sep l +:+ sep +:+ x.
Proof.
  induction l as [|y l IH]; intros Hne; [done |].
  destruct l as [|z l].
  - reflexivity.
  - change ((y :: z :: l) ++ [x]) with (y :: (z :: l) ++ [x]).
    rewrite join_cons by (simpl; congruence). rewrite IH by done.
    rewrite (join_cons sep y (z :: l)) by done. by rewrite !app_assoc_str.
Qed.

Lemma join_split_go cur s :
  JS.join JS.LF (JS.split_go JS.LF 0 cur s) = JS.rev_str cur +:+ s.
Proof.
  revert cur. induction s as [|c s IH]; intros cur.
  - simpl. by rewrite app_empty_r.
  - cbn [JS.split_go]. rewrite prefix_LF.
    destruct (Ascii.eqb_spec (ascii_of_nat 10) c) as [<- | Hne].
    + rewrite join_cons by apply split_go_nonempty.
      change (String.length JS.LF - 1)%nat with 0%nat. rewrite IH. reflexivity.
    + rewrite IH, rev_str_cons, app_assoc_str. reflexivity.
Qed.

Lemma join_split s : JS.join JS.LF (JS.split s JS.LF) = s.
Proof. unfold JS.split. by rewrite join_split_go. Qed.

Lemma split_go_app_LF cur s :
  JS.split_go JS.LF 0 cur (s +:+ JS.LF) = JS.split_go JS.LF 0 cur s ++ [""%string].
Proof.
  revert cur. induction s as [|c s IH]; intros cur.
  - reflexivity.
  - rewrite app_cons. cbn [JS.split_go]. rewrite !prefix_LF.
    destruct (Ascii.eqb (ascii_of_nat 10) c).
    + change (String.length JS.LF - 1)%nat with 0%nat. by rewrite IH.
    + apply IH.
Qed.

Lemma split_app_LF s : JS.split (s +:+ JS.LF) JS.LF = JS.split s JS.LF ++ [""%string].
Proof. apply split_go_app_LF. Qed.

Lemma join_snoc_app sep l x t : JS.join sep (l ++ [x +:+ t]) = JS.join sep (l ++ [x]) +:+ t.
Proof.
  destruct l as [|y l]; [reflexivity |].
  rewrite !join_snoc by done. by rewrite !app_assoc_str.
Qed.

Lemma app_eq_split (a x b y : string) :
  a +:+ x = b +:+ y ->
  (exists z, a = b +:+ z /\ y = z +:+ x) \/ (exists z, b = a +:+ z /\ x = z +:+ y).
Proof.
  revert b. induction a as [|c a IH]; intros b Heq.
  - right. exists b. split; [reflexivity | exact Heq].
  - destruct b as [|d b].
    + left. exists (String c a). split; [reflexivity |]. symmetry. exact Heq.
    + rewrite !app_cons in Heq. injection Heq as -> Heq.
      destruct (IH b Heq) as [(z & -> & ->) | (z & -> & ->)].
      * left. exists z. by rewrite app_cons.
      * right. exists z. by rewrite app_cons.
Qed.

(** A string that, continued, spells [b +:+ y] and is at least as long as
    [b] starts with [b]. *)
Lemma app_eq_long (a x b y : string) :
  a +:+ x = b +:+ y -> (String.length b <= String.length a)%nat ->
  exists z, a = b +:+ z /\ y = z +:+ x.
Proof.
  intros Heq Hlen. destruct (app_eq_split a x b y Heq) as [H | (z & -> & ->)]; [exact H |].
  rewrite length_app_str in Hlen. destruct z; [| simpl in Hlen; lia].
  exists ""%string. by rewrite !app_empty_r.
Qed.

Lemma length_drop_str n (s : string) :
  String.length (JS.drop_str n s) = (String.length s - n)%nat.
Proof.
  revert s. induction n as [|n IH]; intros [|c s]; simpl; try reflexivity.
  apply IH.
Qed.

End StringFacts.

(** ** Line-range collapse *)

Module UtilitiesFacts.
Import Utilities UtilitiesSpec.

Lemma collapseFinish_foldl l : forall st,
  0 <= rangeStart st ->
  Forall (fun x => 0 <= x) l ->
  collapseFinish (foldl collapseStep st l)
  = ranges st ++ collapseFrom (rangeStart st) (rangeEnd st) l.
Proof.
  induction l as [|x l IH]; intros st Hs Hl; simpl.
  - unfold collapseFinish.
    destruct (Z.eqb_spec (rangeStart st) (-1)); [lia | reflexivity].
  - inversion Hl as [|? ? Hx Hl']; subst.
    unfold collapseStep at 2.
    destruct (Z.eqb_spec (rangeStart st) (-1)); [lia |].
    destruct (Z.eqb_spec x (rangeEnd st + 1)).
    + rewrite IH by (simpl; assumption). reflexivity.
    + rewrite IH by (simpl; assumption). simpl.
      rewrite <- app_assoc. reflexivity.
Qed.

Lemma collapseLoop_cons x l :
  Forall (fun y => 0 <= y) (x :: l) ->
  collapseLoop (x :: l) = collapseFrom x x l.
Proof.
  intros Hl. inversion Hl; subst.
  unfold collapseLoop. simpl. unfold collapseStep at 2. simpl.
  rewrite collapseFinish_foldl by (simpl; assumption). reflexivity.
Qed.

Lemma collapseFrom_bounds l : forall s e r,
  s <= e -> StronglySorted Z.lt (e :: l) ->
  r ∈ collapseFrom s e l -> s <= lr_start r /\ lr_start r <= lr_end r.
Proof.
  induction l as [|x l IH]; intros s e r Hse Hsort Hr; simpl in Hr.
  - apply list_elem_of_singleton in Hr. subst. simpl. lia.
  - apply StronglySorted_inv in Hsort as [Hsort Hall].
    assert (e < x) by (inversion Hall; assumption).
    destruct (Z.eqb_spec x (e + 1)).
    + apply (IH s x r); [lia | assumption | assumption].
    + apply elem_of_cons in Hr as [-> | Hr]; [simpl; lia |].
      destruct (IH x x r) as [? ?]; [lia | assumption | assumption |]. lia.
Qed.

Lemma collapseFrom_covers l : forall s e x,
  s <= e -> StronglySorted Z.lt (e :: l) ->
  (exists r, r ∈ collapseFrom s e l /\ covers r x) <-> (s <= x <= e \/ x ∈ l).
Proof.
  induction l as [|y l IH]; intros s e x Hse Hsort; simpl.
  - split.
    + intros (r & Hr & Hc). apply list_elem_of_singleton in Hr. subst.
      left. exact Hc.
    + intros [Hc | Hin]; [| by apply elem_of_nil in Hin].
      eexists. split; [apply list_elem_of_singleton; reflexivity | exact Hc].
  - apply StronglySorted_inv in Hsort as [Hsort Hall].
    assert (e < y) by (inversion Hall; assumption).
    destruct (Z.eqb_spec y (e + 1)).
    + rewrite (IH s y x) by (lia || assumption).
      rewrite elem_of_cons. intuition lia.
    + rewrite elem_of_cons. split.
      * intros (r & Hr & Hc). apply elem_of_cons in Hr as [-> | Hr].
        -- left. exact Hc.
        -- assert (y <= x <= y \/ x ∈ l) as [? | ?].
           { apply (IH y y x); [lia | assumption | eauto]. }
           ++ right. left. lia.
           ++ right. right. assumption.
      * intros [Hc | [-> | Hin]].
        -- eexists. split; [apply elem_of_cons; left; reflexivity | exact Hc].
        -- destruct (proj2 (IH y y y ltac:(lia) Hsort)) as (r & Hr & Hc); [lia |].
           exists r. split; [apply elem_of_cons; right; exact Hr | exact Hc].
        -- destruct (proj2 (IH y y x ltac:(lia) Hsort)) as (r & Hr & Hc); [by right |].
           exists r. split; [apply elem_of_cons; right; exact Hr | exact Hc].
Qed.

Lemma collapseFrom_separated l : forall s e,
  s <= e -> StronglySorted Z.lt (e :: l) ->
  StronglySorted separated (collapseFrom s e l).
Proof.
  induction l as [|y l IH]; intros s e Hse Hsort; simpl.
  - repeat constructor.
  - pose proof Hsort as Hsort0.
    apply StronglySorted_inv in Hsort as [Hsort Hall].
    assert (e < y) by (inversion Hall; assumption).
    destruct (Z.eqb_spec y (e + 1)).
    + apply IH; [lia | assumption].
    + constructor; [apply IH; [lia | assumption] |].
      apply Forall_forall. intros r Hr.
      destruct (collapseFrom_bounds l y y r) as [? ?]; [lia | assumption | assumption |].
      unfold separated. simpl. lia.
Qed.

Lemma StronglySorted_le_lt (l : list Z) :
  StronglySorted Z.le l -> NoDup l -> StronglySorted Z.lt l.
Proof.
  induction 1 as [|x l Hs IH Hall]; intros Hnd; [constructor |].
  apply NoDup_cons in Hnd as [Hx Hnd].
  constructor; [by apply IH |].
  apply Forall_forall. intros y Hy.
  apply (proj1 (Forall_forall _ _) Hall) in Hy as Hle.
  assert (x <> y) by (intros ->; contradiction). lia.
Qed.

Lemma StronglySorted_lookup_lt {A} (R : relation A) (l : list A) (i j : nat) a b :
  StronglySorted R l -> l !! i = Some a -> l !! j = Some b -> (i < j)%nat -> R a b.
Proof.
  intros Hs. revert i j.
  induction Hs as [|x l Hs IH Hall]; intros i j Hi Hj Hlt; [done |].
  destruct j as [|j]; [lia |].
  destruct i as [|i]; simpl in *.
  - injection Hi as ->.
    apply (proj1 (Forall_forall _ _) Hall). by eapply list_elem_of_lookup_2.
  - apply (IH i j); [assumption | assumption | lia].
Qed.

Lemma sortedLines_elem (S : gset Z) x : x ∈ sortedLines S <-> x ∈ S.
Proof.
  unfold sortedLines. rewrite merge_sort_Permutation. apply elem_of_elements.
Qed.

Lemma sortedLines_sorted (S : gset Z) : StronglySorted Z.lt (sortedLines S).
Proof.
  apply StronglySorted_le_lt.
  - apply StronglySorted_merge_sort; apply _.
  - unfold sortedLines. rewrite merge_sort_Permutation. apply NoDup_elements.
Qed.

(** Two ranges of a separated list that share an index are the same entry. *)
Lemma separated_covers_unique rs x i j ri rj :
  StronglySorted separated rs ->
  (forall r, r ∈ rs -> lr_start r <= lr_end r) ->
  rs !! i = Some ri -> rs !! j = Some rj ->
  covers ri x -> covers rj x -> i = j.
Proof.
  intros Hs Hne Hi Hj Hci Hcj. unfold covers in *.
  destruct (Nat.lt_trichotomy i j) as [Hlt | [-> | Hlt]]; [| reflexivity |].
  - pose proof (StronglySorted_lookup_lt _ _ _ _ _ _ Hs Hi Hj Hlt) as Hsep.
    unfold separated in Hsep. lia.
  - pose proof (StronglySorted_lookup_lt _ _ _ _ _ _ Hs Hj Hi Hlt) as Hsep.
    unfold separated in Hsep. lia.
Qed.

(** In a separated list no range touches the index just outside another. *)
Lemma separated_not_adjacent rs r r' :
  StronglySorted separated rs ->
  (forall r, r ∈ rs -> lr_start r <= lr_end r) ->
  r ∈ rs -> r' ∈ rs ->
  ~ covers r' (lr_start r - 1) /\ ~ covers r' (lr_end r + 1).
Proof.
  intros Hs Hne Hr Hr'. unfold covers.
  pose proof (Hne _ Hr). pose proof (Hne _ Hr').
  apply list_elem_of_lookup in Hr as [i Hi]. apply list_elem_of_lookup in Hr' as [j Hj].
  destruct (Nat.lt_trichotomy i j) as [Hlt | [-> | Hlt]].
  - pose proof (StronglySorted_lookup_lt _ _ _ _ _ _ Hs Hi Hj Hlt) as Hsep.
    unfold separated in Hsep. lia.
  - assert (r = r') by congruence. subst. lia.
  - pose proof (StronglySorted_lookup_lt _ _ _ _ _ _ Hs Hj Hi Hlt) as Hsep.
    unfold separated in Hsep. lia.
Qed.

(** C8. For a finite set [S] of line indices, [convertLinesToRanges S]
    returns ranges whose union is exactly [S], listed in ascending order
    with at least one missing index between two of them (so they are
    disjoint), each of them maximal (the index just below its start and the
    index just above its end are not in [S]), and every index lies in at
    most one entry of the list. *)
Theorem convertLinesToRanges_collapse (S : gset Z) (totalLines : Z) :
  (forall x, x ∈ S -> 0 <= x) ->
  let rs := convertLinesToRanges S totalLines in
  (forall x, x ∈ S <-> exists r, r ∈ rs /\ covers r x)
  /\ StronglySorted separated rs
  /\ (forall r, r ∈ rs ->
        lr_start r <= lr_end r /\ ~ (lr_start r - 1) ∈ S /\ ~ (lr_end r + 1) ∈ S)
  /\ (forall x i j ri rj,
        rs !! i = Some ri -> rs !! j = Some rj ->
        covers ri x -> covers rj x -> i = j).
Proof.
  intros Hpos rs. subst rs. unfold convertLinesToRanges.
  pose proof (sortedLines_sorted S) as Hsorted.
  assert (Hall : Forall (fun y => 0 <= y) (sortedLines S)).
  { apply Forall_forall. intros y Hy. apply Hpos. by apply sortedLines_elem. }
  assert (Hmem : forall x, x ∈ S <-> x ∈ sortedLines S).
  { intros x. symmetry. apply sortedLines_elem. }
  destruct (sortedLines S) as [|x0 l] eqn:Hl.
  - (* the empty set *)
    cbn. split; [| split; [constructor | split]].
    + intros x. split.
      * intros Hx. apply Hmem in Hx. by apply elem_of_nil in Hx.
      * intros (r & Hr & _). by apply elem_of_nil in Hr.
    + intros r Hr. by apply elem_of_nil in Hr.
    + intros x i j ri rj Hi. by rewrite lookup_nil in Hi.
  - rewrite collapseLoop_cons by assumption.
    assert (Hcov : forall x, x ∈ S <-> exists r, r ∈ collapseFrom x0 x0 l /\ covers r x).
    { intros x. rewrite Hmem, collapseFrom_covers by (lia || assumption).
      rewrite elem_of_cons. intuition lia. }
    assert (Hsep : StronglySorted separated (collapseFrom x0 x0 l)).
    { apply collapseFrom_separated; [lia | assumption]. }
    assert (Hne : forall r, r ∈ collapseFrom x0 x0 l -> lr_start r <= lr_end r).
    { intros r Hr. eapply collapseFrom_bounds; [| exact Hsorted | exact Hr]. lia. }
    split; [exact Hcov |]. split; [exact Hsep |]. split.
    + intros r Hr. split; [by apply Hne |].
      split; intros Hin; apply Hcov in Hin as (r' & Hr' & Hc);
        destruct (separated_not_adjacent _ r r' Hsep Hne Hr Hr'); contradiction.
    + intros x i j ri rj. by apply separated_covers_unique.
Qed.

Lemma convertLinesToRanges_collapse_witness :
  (forall x, x ∈ sampleLineSet -> 0 <= x)
  /\ convertLinesToRanges sampleLineSet 100
     = [ {| lr_start := 1; lr_end := 3 |}; {| lr_start := 5; lr_end := 6 |};
         {| lr_start := 10; lr_end := 10 |} ]
  /\ StronglySorted separated (convertLinesToRanges sampleLineSet 100).
Proof.
  assert (H : forall x, x ∈ sampleLineSet -> 0 <= x).
  { intros x Hx. unfold sampleLineSet in Hx. set_unfold. lia. }
  split; [exact H |]. split; [vm_compute; reflexivity |].
  exact (proj1 (proj2 (convertLinesToRanges_collapse sampleLineSet 100 H))).
Defined.

(** ** References context *)

Lemma elem_of_addAll from to set x :
  x ∈ addAll from to set <-> x ∈ set \/ from <= x < to.
Proof.
  unfold addAll, JS.range.
  assert (Hgen : forall l (s : gset Z),
            x ∈ foldl (fun acc i => {[ i ]} ∪ acc) s l <-> x ∈ s \/ x ∈ l).
  { induction l as [|y l IH]; intros s; simpl.
    - rewrite elem_of_nil. tauto.
    - rewrite IH, elem_of_union, elem_of_singleton, elem_of_cons. tauto. }
  rewrite Hgen, elem_of_seqZ. intuition lia.
Qed.

Lemma elem_of_addLocation totalLines contextLines set loc x :
  x ∈ addLocation totalLines contextLines set loc
  <-> x ∈ set \/ shownFor totalLines contextLines loc x.
Proof.
  unfold addLocation, shownFor. rewrite !elem_of_addAll. intuition lia.
Qed.

Lemma elem_of_getLineRangesToDisplay locations totalLines contextLines x :
  x ∈ getLineRangesToDisplay locations totalLines contextLines
  <-> exists loc, loc ∈ locations /\ shownFor totalLines contextLines loc x.
Proof.
  unfold getLineRangesToDisplay.
  assert (Hgen : forall l (s : gset Z),
            x ∈ foldl (addLocation totalLines contextLines) s l
            <-> x ∈ s \/ exists loc, loc ∈ l /\ shownFor totalLines contextLines loc x).
  { induction l as [|loc l IH]; intros s; simpl.
    - split; [tauto |]. intros [? | (loc & Hloc & _)]; [done |].
      by apply elem_of_nil in Hloc.
    - rewrite IH, elem_of_addLocation. split.
      + intros [[? | ?] | (loc' & Hin & ?)]; [by left | |].
        * right. exists loc. split; [apply elem_of_cons; by left | done].
        * right. exists loc'. split; [apply elem_of_cons; by right | done].
      + intros [? | (loc' & Hin & ?)]; [by left; left |].
        apply elem_of_cons in Hin as [-> | Hin]; [by left; right |].
        right. by exists loc'. }
  rewrite Hgen. split; [| by right].
  intros [Hx | ?]; [| done]. by apply elem_of_empty in Hx.
Qed.

(** C7 (amended). For references that lie in the file and a context budget
    [C >= 0], the displayed line set is the union over the references of
    the intervals [max(0, sl - C) .. min(total - 1, el + C)]; and for a
    20-line file with references on lines 3, 4 and 12 and [C = 2] the
    ranges are [1..6] and [10..14], rendered with a [...] line between
    them. *)
Theorem getLineRangesToDisplay_line_set :
  (forall locations totalLines contextLines,
      0 <= contextLines ->
      Forall (withinFile totalLines) locations ->
      forall x,
        x ∈ getLineRangesToDisplay locations totalLines contextLines
        <-> exists loc, loc ∈ locations /\ contextInterval totalLines contextLines loc x)
  /\ convertLinesToRanges (getLineRangesToDisplay scenarioRefs 20 2) 20
     = [ {| lr_start := 1; lr_end := 6 |}; {| lr_start := 10; lr_end := 14 |} ]
  /\ formatLinesWithRanges file20
       (convertLinesToRanges (getLineRangesToDisplay scenarioRefs 20 2) 20)
     = "     2| line 1
     3| line 2
     4| line 3
     5| line 4
     6| line 5
     7| line 6
...
    11| line 10
    12| line 11
    13| line 12
    14| line 13
    15| line 14"%string.
Proof.
  split; [| split; vm_compute; reflexivity].
  intros locations totalLines contextLines HC Hin x.
  rewrite elem_of_getLineRangesToDisplay.
  split; intros (loc & Hloc & Hx); exists loc; (split; [exact Hloc |]);
    apply (proj1 (Forall_forall _ _) Hin) in Hloc;
    unfold withinFile, shownFor, contextInterval in *; lia.
Qed.

Lemma getLineRangesToDisplay_line_set_witness :
  0 <= 2
  /\ Forall (withinFile 20) scenarioRefs
  /\ (12 ∈ getLineRangesToDisplay scenarioRefs 20 2
      <-> exists loc, loc ∈ scenarioRefs /\ contextInterval 20 2 loc 12).
Proof.
  assert (H0 : 0 <= 2) by lia.
  assert (H1 : Forall (withinFile 20) scenarioRefs).
  { unfold scenarioRefs, withinFile, lineAt. repeat constructor; simpl; lia. }
  split; [exact H0 |]. split; [exact H1 |].
  exact (proj1 getLineRangesToDisplay_line_set scenarioRefs 20 2 H0 H1 12).
Defined.

(** C7 as worded fails at the end of a file: with one reference on line 18
    of a 20-line file and [C = 5], index 20 lies in the worded interval
    [13 .. min(20, 23)] but no line 20 exists and none is displayed. *)
Lemma getLineRangesToDisplay_spec_interval_counterexample :
  ~ (forall x,
        x ∈ getLineRangesToDisplay [lineAt 18] 20 5
        <-> exists loc, loc ∈ [lineAt 18] /\ specInterval 20 5 loc x).
Proof.
  intros Hclaim.
  assert (Hin : 20 ∈ getLineRangesToDisplay [lineAt 18] 20 5).
  { apply Hclaim. exists (lineAt 18). split; [apply list_elem_of_singleton; reflexivity |].
    unfold specInterval, lineAt. simpl. lia. }
  apply elem_of_getLineRangesToDisplay in Hin as (loc & Hloc & Hx).
  apply list_elem_of_singleton in Hloc. subst.
  unfold shownFor, lineAt in Hx. simpl in Hx. lia.
Qed.

(** ** Definition range expansion *)

Lemma expandDown_bound lines origStart endLine idxs : forall st r,
  Forall (fun i => i <= endLine) idxs ->
  expandDown lines origStart endLine st idxs = Ok r -> r <= endLine.
Proof.
  induction idxs as [|i idxs IH]; intros st r Hall Hr; simpl in Hr.
  - injection Hr as <-. lia.
  - inversion Hall as [|? ? Hi Hall']; subst.
    destruct (JS.index lines i) as [ln|]; [| discriminate].
    destruct ((braceCount (scanLine st ln) =? 0) && (origStart <? i)).
    + injection Hr as <-. exact Hi.
    + by eapply IH.
Qed.

(** The downward loop runs over [i <= endLine] only, so whatever the file
    holds the end line returned is never below the reported one. *)
Lemma getFullDefinition_end_not_extended content location text location' :
  getFullDefinition content location = Ok (text, location') ->
  line (end_ (range location')) <= line (end_ (range location)).
Proof.
  unfold getFullDefinition.
  destruct (expandUpFrom _ _) as [startLine|]; simpl; [| discriminate].
  destruct (expandDown _ _ _ _ _) as [endLine|] eqn:Hdown; simpl; [| discriminate].
  intros [= _ <-]. simpl.
  eapply expandDown_bound; [| exact Hdown].
  apply Forall_forall. intros i Hi. unfold JS.range in Hi.
  apply elem_of_seqZ in Hi. lia.
Qed.

(** C2 (the code departs from the claim). On the four-line file of the
    scenario with the reported range [(1,0)-(1,12)], [getFullDefinition]
    takes in the comment line above but stops at the reported end line:
    it returns lines 0..1, not 0..3. *)
Theorem getFullDefinition_scenario_stops_at_reported_end :
  getFullDefinition docFunctionFile reportedRange
  = Ok ("// doc
function f() {"%string,
        {| uri := "file:///f.ts";
           range := {| start := {| line := 0; character := 0 |};
                       end_ := {| line := 1; character := 14 |} |} |}).
Proof. vm_compute. reflexivity. Qed.

End UtilitiesFacts.

(** ** Symbol wrappers *)

Module TypesFacts.
Import Types.

(** The wrapper class for [WorkspaceSymbol] does synthesize the range. *)
Lemma WorkspaceSymbolWrapper_getLocation_uri_only name k u :
  getLocation (WorkspaceSymbolWrapper (uriOnlySymbol name k u))
  = {| loc_uri := Some u; loc_range := Some zeroRange |}.
Proof. reflexivity. Qed.

(** C4 (the code departs from the claim). [wrapSymbol] sends a symbol whose
    location is a URI alone to [SymbolInformationWrapper], because that
    location has a [uri]; its [getLocation] hands the location back as it
    is, with no range. *)
Theorem wrapSymbol_uri_only_location_has_no_range name k u :
  wrapSymbol (uriOnlySymbol name k u) = SymbolInformationWrapper (uriOnlySymbol name k u)
  /\ getLocation (wrapSymbol (uriOnlySymbol name k u))
     = {| loc_uri := Some u; loc_range := None |}.
Proof. split; reflexivity. Qed.

End TypesFacts.

(** ** Definition tool: match policy *)

Module DefinitionToolFacts.
Import Types DefinitionTool.

(** C5. A symbol of a [workspace/symbol] result is accepted by the
    definition tool: when the query contains a dot, iff its name is the
    query; otherwise, for a Method, iff its name is the query or ends with
    [::query] or [.query], and for any other kind iff its name is the
    query.  The three Method names [Foo], [Bar::Foo], [other.Foo] are all
    accepted for [Foo]; for [Bar.Foo] only a symbol of that very name is. *)
Theorem readDefinition_match_policy :
  (forall symbolName rawSymbol,
      let name := getName (wrapSymbol rawSymbol) in
      (containsDot symbolName ->
         (accepted symbolName rawSymbol = true <-> name = symbolName))
      /\ (~ containsDot symbolName ->
          kind (wrapSymbol rawSymbol) = Some SymbolKind_Method ->
          (accepted symbolName rawSymbol = true
           <-> name = symbolName
               \/ hasSuffix name ("::" +:+ symbolName)
               \/ hasSuffix name ("." +:+ symbolName)))
      /\ (~ containsDot symbolName ->
          kind (wrapSymbol rawSymbol) <> Some SymbolKind_Method ->
          (accepted symbolName rawSymbol = true <-> name = symbolName)))
  /\ acceptedSymbols "Foo" [methodNamed "Foo"; methodNamed "Bar::Foo"; methodNamed "other.Foo"]
     = [methodNamed "Foo"; methodNamed "Bar::Foo"; methodNamed "other.Foo"]
  /\ acceptedSymbols "Bar.Foo" [methodNamed "Foo"; methodNamed "Bar::Foo"; methodNamed "other.Foo"]
     = []
  /\ acceptedSymbols "Bar.Foo"
       [methodNamed "Foo"; methodNamed "Bar::Foo"; methodNamed "Bar.Foo"; methodNamed "other.Foo"]
     = [methodNamed "Bar.Foo"].
Proof.
  split; [| repeat split; vm_compute; reflexivity].
  intros symbolName rawSymbol name. subst name.
  unfold accepted, skipped, containsDot, hasSuffix.
  pose proof (StringFacts.includes_spec symbolName ".") as Hdot.
  pose proof (String.eqb_eq (getName (wrapSymbol rawSymbol)) symbolName) as Heq.
  pose proof (StringFacts.endsWith_spec (getName (wrapSymbol rawSymbol)) ("::" +:+ symbolName)) as Hc.
  pose proof (StringFacts.endsWith_spec (getName (wrapSymbol rawSymbol)) ("." +:+ symbolName)) as Hd.
  destruct (JS.includes symbolName ".");
    destruct (String.eqb (getName (wrapSymbol rawSymbol)) symbolName);
    destruct (JS.endsWith (getName (wrapSymbol rawSymbol)) ("::" +:+ symbolName));
    destruct (JS.endsWith (getName (wrapSymbol rawSymbol)) ("." +:+ symbolName));
    destruct (bool_decide_reflect (kind (wrapSymbol rawSymbol) = Some SymbolKind_Method));
    simpl; intuition (congruence || discriminate).
Qed.

Lemma readDefinition_match_policy_witness :
  ~ containsDot "Foo"
  /\ kind (wrapSymbol (methodNamed "Bar::Foo")) = Some SymbolKind_Method
  /\ accepted "Foo" (methodNamed "Bar::Foo") = true.
Proof.
  assert (H1 : ~ containsDot "Foo").
  { intros H. apply StringFacts.includes_spec in H. vm_compute in H. discriminate H. }
  assert (H2 : kind (wrapSymbol (methodNamed "Bar::Foo")) = Some SymbolKind_Method)
    by reflexivity.
  split; [exact H1 |]. split; [exact H2 |].
  destruct (proj1 readDefinition_match_policy "Foo" (methodNamed "Bar::Foo")) as (_ & Hmethod & _).
  apply (Hmethod H1 H2). right. left. exists "Bar"%string. reflexivity.
Defined.

End DefinitionToolFacts.

(** ** Watcher registrations *)

Module WatcherFacts.
Import Watcher.

Section WithPath.

Variable path_relative : string -> string -> string.
Variable workspacePath : string.

Local Abbreviation matches := (matchesPattern path_relative workspacePath).
Local Abbreviation isPathWatched := (isPathWatched path_relative workspacePath).
Local Abbreviation handleFileEvent := (handleFileEvent path_relative workspacePath).

Lemma firstMatch_spec filePath registrations :
  match firstMatch path_relative workspacePath filePath registrations with
  | (true, k) =>
      exists before reg after,
        registrations = before ++ reg :: after
        /\ Forall (fun r => matches filePath (globPattern r) = false) before
        /\ matches filePath (globPattern reg) = true
        /\ k = default allKinds (kind reg)
  | (false, k) =>
      Forall (fun r => matches filePath (globPattern r) = false) registrations /\ k = 0
  end.
Proof.
  induction registrations as [|reg rest IH]; simpl.
  - split; [constructor | reflexivity].
  - destruct (matches filePath (globPattern reg)) eqn:Hm.
    + exists [], reg, rest. repeat split; [constructor | exact Hm].
    + destruct (firstMatch _ _ filePath rest) as [[|] k].
      * destruct IH as (before & reg' & after & -> & Hbefore & Hreg & Hk).
        exists (reg :: before), reg', after. repeat split; try assumption.
        constructor; assumption.
      * destruct IH as [Hall Hk]. split; [constructor; assumption | exact Hk].
Qed.

(** C10. With no registration every path counts as watched with the mask
    Create|Change|Delete, and every event on a file that is not excluded
    sets off its notification; with at least one registration a path is
    watched iff some registration's pattern matches it, and the mask is the
    kind of the first registration that matches, all three kinds when that
    registration has none. *)
Theorem isPathWatched_registrations :
  (forall filePath, isPathWatched [] filePath = (true, 7))
  /\ (forall filePath isFileOpen changeType,
        handleFileEvent [] false isFileOpen filePath changeType
        = match changeType with
          | Created => [OpenFile filePath; DebounceFileEvent filePath Created]
          | Changed =>
              if isFileOpen then [DebounceNotifyChange filePath]
              else [DebounceFileEvent filePath Changed]
          | Deleted => [DebounceFileEvent filePath Deleted]
          end)
  /\ (forall reg rest filePath,
        fst (isPathWatched (reg :: rest) filePath) = true
        <-> exists r, r ∈ reg :: rest /\ matches filePath (globPattern r) = true)
  /\ (forall reg rest filePath k,
        isPathWatched (reg :: rest) filePath = (true, k) ->
        exists before r after,
          reg :: rest = before ++ r :: after
          /\ Forall (fun r' => matches filePath (globPattern r') = false) before
          /\ matches filePath (globPattern r) = true
          /\ k = default 7 (kind r)).
Proof.
  split; [reflexivity |]. split; [by intros filePath [|] [| |] |]. split.
  - intros reg rest filePath.
    change (isPathWatched (reg :: rest) filePath)
      with (firstMatch path_relative workspacePath filePath (reg :: rest)).
    pose proof (firstMatch_spec filePath (reg :: rest)) as Hspec.
    destruct (firstMatch _ _ filePath (reg :: rest)) as [[|] k]; simpl.
    + destruct Hspec as (before & r & after & Heq & _ & Hr & _).
      split; [| done]. intros _. exists r. split; [| exact Hr].
      rewrite Heq. apply elem_of_app. right. apply elem_of_cons. by left.
    + destruct Hspec as [Hall _]. split; [done |].
      intros (r & Hin & Hr).
      apply (proj1 (Forall_forall _ _) Hall) in Hin. congruence.
  - intros reg rest filePath k.
    change (isPathWatched (reg :: rest) filePath)
      with (firstMatch path_relative workspacePath filePath (reg :: rest)).
    pose proof (firstMatch_spec filePath (reg :: rest)) as Hspec.
    intros Heq. rewrite Heq in Hspec. exact Hspec.
Qed.

End WithPath.

Lemma isPathWatched_registrations_witness :
  isPathWatched relativeAsIs "/ws" [tsOnly; anyFile] "src/a.ts" = (true, 2)
  /\ exists before r after,
       [tsOnly; anyFile] = before ++ r :: after
       /\ Forall (fun r' => matchesPattern relativeAsIs "/ws" "src/a.ts" (globPattern r') = false)
            before
       /\ matchesPattern relativeAsIs "/ws" "src/a.ts" (globPattern r) = true
       /\ 2 = default 7 (kind r).
Proof.
  assert (H : isPathWatched relativeAsIs "/ws" [tsOnly; anyFile] "src/a.ts" = (true, 2))
    by (vm_compute; reflexivity).
  split; [exact H |].
  exact (proj2 (proj2 (proj2 (isPathWatched_registrations relativeAsIs "/ws")))
           tsOnly [anyFile] "src/a.ts" 2 H).
Defined.

End WatcherFacts.

(** ** Open-file registry *)

Module ClientFacts.
Import Client.

Section WithUri.

Variable pathToUri : string -> string.

Local Abbreviation notifyChange := (notifyChange pathToUri).
Local Abbreviation notifyChanges := (notifyChanges pathToUri).

(** What one call can do to the state. *)
Lemma notifyChange_step world filePath st :
  let st' := snd (notifyChange world filePath st) in
  st' = st
  \/ exists info,
       openFiles st !! pathToUri filePath = Some info
       /\ openFiles st'
          = <[pathToUri filePath := {| version := version info + 1; info_uri := info_uri info |}]>
              (openFiles st)
       /\ (sent st' = sent st
           \/ exists content,
                sent st' = sent st ++ [DidChange (pathToUri filePath) (version info + 1) content]).
Proof.
  unfold Client.notifyChange, mbind, getOpenFile, readFileOrThrow, setOpenFile, notify,
    ret, throw.
  simpl. destruct (openFiles st !! pathToUri filePath) as [info|] eqn:Hopen; [| by left].
  destruct (readFile world filePath) as [content|]; [| by left].
  simpl. right. exists info. split; [reflexivity |].
  destruct (stdinWritable world); simpl; (split; [reflexivity |]); [right | left].
  - by exists content.
  - reflexivity.
Qed.

Lemma changeVersions_app uri ns ms :
  changeVersions uri (ns ++ ms) = changeVersions uri ns ++ changeVersions uri ms.
Proof. unfold changeVersions. apply omap_app. Qed.

Lemma storedVersion_insert uri u info st st' :
  openFiles st' = <[u := info]> (openFiles st) ->
  storedVersion uri st' = if decide (u = uri) then Some (version info) else storedVersion uri st.
Proof.
  intros Heq. unfold storedVersion. rewrite Heq, lookup_insert.
  by destruct (decide (u = uri)).
Qed.

(** One call reports at most one version for [uri], one above the stored
    version it found, and stored versions never go down. *)
Lemma notifyChange_versions world filePath st uri :
  let st' := snd (notifyChange world filePath st) in
  (changeVersions uri (sent st') = changeVersions uri (sent st)
   \/ exists v0,
        storedVersion uri st = Some v0
        /\ storedVersion uri st' = Some (v0 + 1)
        /\ changeVersions uri (sent st') = changeVersions uri (sent st) ++ [v0 + 1])
  /\ (forall v, storedVersion uri st = Some v ->
        exists v', storedVersion uri st' = Some v' /\ v <= v').
Proof.
  intros st'. subst st'.
  destruct (notifyChange_step world filePath st) as [-> | (info & Hopen & Hmap & Hsent)].
  - split; [by left |]. intros v Hv. exists v. split; [exact Hv | lia].
  - pose proof (storedVersion_insert uri _ _ _ _ Hmap) as Hstored. simpl in Hstored.
    split.
    + destruct Hsent as [-> | (content & ->)]; [by left |].
      rewrite changeVersions_app. simpl.
      unfold changeVersions at 3. simpl.
      destruct (String.eqb_spec (pathToUri filePath) uri) as [Heq | Hne].
      * right. exists (version info). subst uri. rewrite decide_True in Hstored by reflexivity.
        unfold storedVersion at 1. rewrite Hopen. simpl. done.
      * left. simpl. by rewrite app_nil_r.
    + intros v Hv. rewrite Hstored. destruct (decide (pathToUri filePath = uri)) as [<- | Hne].
      * unfold storedVersion in Hv. rewrite Hopen in Hv. injection Hv as <-.
        eexists. split; [reflexivity | lia].
      * exists v. split; [exact Hv | lia].
Qed.

Lemma notifyChanges_stored_mono calls : forall st uri v,
  storedVersion uri st = Some v ->
  exists v', storedVersion uri (notifyChanges calls st) = Some v' /\ v <= v'.
Proof.
  induction calls as [|[world filePath] calls IH]; intros st uri v Hv; simpl.
  - exists v. split; [exact Hv | lia].
  - destruct (proj2 (notifyChange_versions world filePath st uri) v Hv) as (v1 & Hv1 & Hle).
    destruct (IH _ uri v1 Hv1) as (v2 & Hv2 & Hle2).
    exists v2. split; [exact Hv2 | lia].
Qed.

Lemma notifyChanges_versions calls : forall st uri,
  exists vs,
    changeVersions uri (sent (notifyChanges calls st)) = changeVersions uri (sent st) ++ vs
    /\ StronglySorted Z.lt vs
    /\ forall v, v ∈ vs ->
         exists v0 v1,
           storedVersion uri st = Some v0
           /\ storedVersion uri (notifyChanges calls st) = Some v1
           /\ v0 < v <= v1.
Proof.
  induction calls as [|[world filePath] calls IH]; intros st uri; simpl.
  - exists []. rewrite app_nil_r. split; [reflexivity |]. split; [constructor |].
    intros v Hv. by apply elem_of_nil in Hv.
  - destruct (IH (snd (notifyChange world filePath st)) uri) as (vs & Hvs & Hsorted & Hbound).
    destruct (notifyChange_versions world filePath st uri) as [Hone Hmono].
    destruct Hone as [Hsame | (v0 & Hv0 & Hv0' & Hadd)].
    + exists vs. split; [by rewrite Hvs, Hsame |]. split; [exact Hsorted |].
      intros v Hv. destruct (Hbound v Hv) as (w0 & w1 & Hw0 & Hw1 & Hlt).
      destruct (storedVersion uri st) as [u0|] eqn:Hu0.
      * destruct (Hmono u0 eq_refl) as (u1 & Hu1 & Hle).
        exists u0, w1. repeat split; [exact Hw1 | |]; [| lia].
        rewrite Hw0 in Hu1. injection Hu1 as ->. lia.
      * (* not open before the call: the call leaves the state alone *)
        exfalso.
        destruct (notifyChange_step world filePath st) as [Heq | (info & Hopen & Hmap & _)].
        -- simpl in Heq. rewrite Heq in Hw0. congruence.
        -- pose proof (storedVersion_insert uri _ _ _ _ Hmap) as Hst. simpl in Hst.
           destruct (decide (pathToUri filePath = uri)) as [<- | Hne].
           ++ unfold storedVersion in Hu0. rewrite Hopen in Hu0. discriminate.
           ++ congruence.
    + exists ((v0 + 1) :: vs). split; [| split].
      * rewrite Hvs, Hadd, <- app_assoc. reflexivity.
      * constructor; [exact Hsorted |]. apply Forall_forall. intros v Hv.
        destruct (Hbound v Hv) as (w0 & w1 & Hw0 & _ & Hlt).
        rewrite Hv0' in Hw0. injection Hw0 as <-. lia.
      * intros v Hv. apply elem_of_cons in Hv as [-> | Hv].
        -- destruct (notifyChanges_stored_mono calls _ uri _ Hv0') as (v1 & Hv1 & Hle).
           exists v0, v1. repeat split; [exact Hv0 | exact Hv1 | lia | lia].
        -- destruct (Hbound v Hv) as (w0 & w1 & Hw0 & Hw1 & Hlt).
           rewrite Hv0' in Hw0. injection Hw0 as <-.
           exists v0, w1. repeat split; [exact Hv0 | exact Hw1 | lia | lia].
Qed.

(** C9 (amended). [notifyChange] fails, leaving the registry and the wire as
    they were, when the URI is not in the registry and also when it is but
    the file cannot be read; for an open URI whose file is read and whose
    notification is written, it raises the stored version by exactly one
    and sends one full-text [textDocument/didChange] with that new version;
    and over any run of [notifyChange] calls the versions reported for a URI
    are strictly increasing, each above the version stored at the start. *)
Theorem notifyChange_registry :
  (forall world filePath st,
      openFiles st !! pathToUri filePath = None ->
      exists msg, notifyChange world filePath st = (Throw msg, st))
  /\ (forall world filePath st info,
        openFiles st !! pathToUri filePath = Some info ->
        readFile world filePath = None ->
        exists msg, notifyChange world filePath st = (Throw msg, st))
  /\ (forall world filePath st info content,
        openFiles st !! pathToUri filePath = Some info ->
        readFile world filePath = Some content ->
        stdinWritable world = true ->
        notifyChange world filePath st
        = (Ok tt,
           {| openFiles :=
                <[pathToUri filePath :=
                    {| version := version info + 1; info_uri := info_uri info |}]>
                  (openFiles st);
              sent := sent st ++ [DidChange (pathToUri filePath) (version info + 1) content] |}))
  /\ (forall calls st uri,
        exists vs,
          changeVersions uri (sent (notifyChanges calls st))
          = changeVersions uri (sent st) ++ vs
          /\ StronglySorted Z.lt vs
          /\ forall v, v ∈ vs ->
               exists v0 v1,
                 storedVersion uri st = Some v0
                 /\ storedVersion uri (notifyChanges calls st) = Some v1
                 /\ v0 < v <= v1).
Proof.
  split; [| split; [| split]].
  - intros world filePath st Hclosed.
    unfold Client.notifyChange, mbind, getOpenFile, throw. simpl. rewrite Hclosed.
    by eexists.
  - intros world filePath st info Hopen Hread.
    unfold Client.notifyChange, mbind, getOpenFile, readFileOrThrow, throw. simpl.
    rewrite Hopen, Hread. by eexists.
  - intros world filePath st info content Hopen Hread Hwrite.
    unfold Client.notifyChange, mbind, getOpenFile, readFileOrThrow, setOpenFile, notify, ret.
    simpl. rewrite Hopen, Hread. simpl. rewrite Hwrite. reflexivity.
  - apply notifyChanges_versions.
Qed.

End WithUri.

Lemma notifyChange_registry_witness :
  openFiles sampleState !! fileUri "/b.ts"
    = Some {| version := 4; info_uri := "file:///b.ts" |}
  /\ readFile sampleWorld "/b.ts" = Some "let x = 1;"%string
  /\ stdinWritable sampleWorld = true
  /\ sent (snd (Client.notifyChange fileUri sampleWorld "/b.ts" sampleState))
     = [DidChange "file:///b.ts" 5 "let x = 1;"].
Proof.
  assert (H1 : openFiles sampleState !! fileUri "/b.ts"
               = Some {| version := 4; info_uri := "file:///b.ts" |})
    by (vm_compute; reflexivity).
  assert (H2 : readFile sampleWorld "/b.ts" = Some "let x = 1;"%string) by reflexivity.
  assert (H3 : stdinWritable sampleWorld = true) by reflexivity.
  split; [exact H1 |]. split; [exact H2 |]. split; [exact H3 |].
  rewrite (proj1 (proj2 (proj2 (notifyChange_registry fileUri)))
             sampleWorld "/b.ts" sampleState _ _ H1 H2 H3).
  reflexivity.
Defined.

(** C9 as worded fails for a file that is open but gone from disk: [a.ts]
    is in the registry, yet [notifyChange] raises, and neither the version
    nor the wire changes. *)
Lemma notifyChange_open_but_unreadable_counterexample :
  is_Some (openFiles sampleState !! fileUri "/a.ts")
  /\ Client.notifyChange fileUri sampleWorld "/a.ts" sampleState
     = (Throw "ENOENT: no such file or directory", sampleState).
Proof.
  split; [| vm_compute; reflexivity].
  exists {| version := 1; info_uri := "file:///a.ts" |}. vm_compute. reflexivity.
Qed.

End ClientFacts.

(** ** Workspace edits *)

Module WorkspaceEditFacts.
Import WorkspaceEdit.

Lemma sort_insert_Permutation {A} (cmp : A -> A -> Z) x l :
  JS.sort_insert cmp x l ≡ₚ x :: l.
Proof.
  induction l as [|y l IH]; simpl; [reflexivity |].
  destruct (0 <? cmp y x); [reflexivity |].
  rewrite IH. apply Permutation_swap.
Qed.

Lemma sort_Permutation {A} (cmp : A -> A -> Z) (l : list A) : JS.sort cmp l ≡ₚ l.
Proof.
  unfold JS.sort.
  assert (Hgen : forall acc, foldl (fun acc x => JS.sort_insert cmp x acc) acc l ≡ₚ acc ++ l).
  { induction l as [|x l IH]; intros acc; simpl.
    - by rewrite app_nil_r.
    - rewrite IH, sort_insert_Permutation. simpl. apply Permutation_middle. }
  apply Hgen.
Qed.

Lemma descends_iff a b :
  descends a b
  <-> line (startOf b) < line (startOf a)
      \/ (line (startOf b) = line (startOf a) /\ character (startOf b) <= character (startOf a)).
Proof.
  unfold descends, compareEdits, startOf.
  destruct (Z.eqb_spec (line (start (edit_range b))) (line (start (edit_range a))));
    simpl; lia.
Qed.

Lemma descends_total a b : ~ descends a b -> descends b a.
Proof. rewrite !descends_iff. lia. Qed.

Global Instance descends_trans : Transitive descends.
Proof. intros a b c. rewrite !descends_iff. lia. Qed.

Lemma descends_both_same_start a b : descends a b -> descends b a -> startOf a = startOf b.
Proof.
  rewrite !descends_iff. intros H1 H2.
  destruct (startOf a) as [la ca], (startOf b) as [lb cb]. simpl in *.
  f_equal; lia.
Qed.

Lemma sort_insert_sorted x l :
  StronglySorted descends l -> StronglySorted descends (JS.sort_insert compareEdits x l).
Proof.
  induction 1 as [|y l Hs IH Hall]; simpl; [repeat constructor |].
  destruct (Z.ltb_spec 0 (compareEdits y x)) as [Hgt | Hle].
  - assert (Hxy : descends x y) by (apply descends_total; unfold descends; lia).
    constructor; [by constructor |].
    constructor; [exact Hxy |].
    eapply Forall_impl; [exact Hall |]. intros z Hyz. by transitivity y.
  - constructor; [exact IH |].
    rewrite sort_insert_Permutation. constructor; [exact Hle | exact Hall].
Qed.

Lemma sort_sorted (l : list TextEdit) : StronglySorted descends (JS.sort compareEdits l).
Proof.
  unfold JS.sort.
  assert (Hgen : forall acc, StronglySorted descends acc ->
            StronglySorted descends (foldl (fun acc x => JS.sort_insert compareEdits x acc) acc l)).
  { induction l as [|x l IH]; intros acc Hacc; simpl; [exact Hacc |].
    apply IH. by apply sort_insert_sorted. }
  apply Hgen. constructor.
Qed.

Lemma distinctStarts_inj edits a b :
  distinctStarts edits -> a ∈ edits -> b ∈ edits -> startOf a = startOf b -> a = b.
Proof.
  unfold distinctStarts. induction edits as [|e edits IH]; intros Hnd Ha Hb Heq.
  - by apply elem_of_nil in Ha.
  - rewrite fmap_cons in Hnd. apply NoDup_cons in Hnd as [Hnotin Hnd].
    apply elem_of_cons in Ha as [-> | Ha]; apply elem_of_cons in Hb as [-> | Hb].
    + reflexivity.
    + exfalso. apply Hnotin. rewrite Heq. by apply list_elem_of_fmap_2.
    + exfalso. apply Hnotin. rewrite <- Heq. by apply list_elem_of_fmap_2.
    + by apply IH.
Qed.

(** With distinct starts the sorted array does not depend on the order the
    edits arrive in. *)
Lemma sort_permutation_invariant edits edits' :
  distinctStarts edits -> edits' ≡ₚ edits ->
  JS.sort compareEdits edits' = JS.sort compareEdits edits.
Proof.
  intros Hnd Hperm.
  apply (StronglySorted_unique_strong descends).
  - intros a b Ha Hb Hab Hba.
    apply (distinctStarts_inj edits); [exact Hnd | | | by apply descends_both_same_start].
    + rewrite sort_Permutation, Hperm in Ha. exact Ha.
    + rewrite sort_Permutation in Hb. exact Hb.
  - apply sort_sorted.
  - apply sort_sorted.
  - by rewrite !sort_Permutation.
Qed.

(** C3 (amended). For pairwise non-overlapping edits whose start positions
    are pairwise distinct, applying any permutation of the list gives the
    same outcome as applying the list in ascending order.  The distinct
    starts are what fixes the sorted array; an edit that cannot be applied
    fails the same way in every order. *)
Theorem applyWorkspaceEdit_order_independent (content : string) (edits edits' : list TextEdit) :
  nonOverlapping edits ->
  distinctStarts edits ->
  edits' ≡ₚ edits ->
  applyFileEdits content edits' = applyFileEdits content (ascendingOrder edits).
Proof.
  intros _ Hnd Hperm. unfold applyFileEdits.
  rewrite (sort_permutation_invariant edits edits' Hnd Hperm).
  rewrite (sort_permutation_invariant edits (ascendingOrder edits) Hnd); [reflexivity |].
  apply sort_Permutation.
Qed.

Lemma nonOverlapping_pair a b : disjointEdits a b -> nonOverlapping [a; b].
Proof.
  intros Hab i j x y Hij Hi Hj.
  destruct i as [|[|i]], j as [|[|j]]; simpl in Hi, Hj; try done;
    injection Hi as <-; injection Hj as <-.
  - exact Hab.
  - destruct Hab; [by right | by left].
Qed.

Lemma applyWorkspaceEdit_order_independent_witness :
  nonOverlapping [editXYZ; editAB]
  /\ distinctStarts [editXYZ; editAB]
  /\ [editAB; editXYZ] ≡ₚ [editXYZ; editAB]
  /\ applyFileEdits scenarioContent [editAB; editXYZ]
     = applyFileEdits scenarioContent (ascendingOrder [editXYZ; editAB])
  /\ applyFileEdits scenarioContent [editAB; editXYZ]
     = Ok "01234XYZ89
second
ABth"%string.
Proof.
  assert (H1 : nonOverlapping [editXYZ; editAB]).
  { apply nonOverlapping_pair. left. unfold positionLe. simpl. lia. }
  assert (H2 : distinctStarts [editXYZ; editAB]).
  { unfold distinctStarts. simpl. apply NoDup_cons. split.
    - intros Hin. apply list_elem_of_singleton in Hin. discriminate Hin.
    - apply NoDup_singleton. }
  assert (H3 : [editAB; editXYZ] ≡ₚ [editXYZ; editAB]) by apply Permutation_swap.
  split; [exact H1 |]. split; [exact H2 |]. split; [exact H3 |].
  split; [| vm_compute; reflexivity].
  exact (applyWorkspaceEdit_order_independent scenarioContent _ _ H1 H2 H3).
Defined.

(** C3 as worded fails for two inserts at one position: they do not
    overlap, yet the text that results depends on the order they are given
    in, because the sort leaves edits with equal starts in their input
    order. *)
Lemma applyWorkspaceEdit_same_start_counterexample :
  nonOverlapping [insertA; insertB]
  /\ [insertB; insertA] ≡ₚ [insertA; insertB]
  /\ applyFileEdits "x" [insertB; insertA] = Ok "ABx"%string
  /\ applyFileEdits "x" (ascendingOrder [insertA; insertB]) = Ok "BAx"%string.
Proof.
  split; [| split; [apply Permutation_swap | split; vm_compute; reflexivity]].
  apply nonOverlapping_pair. left. unfold positionLe. simpl. lia.
Qed.

End WorkspaceEditFacts.

(** ** Edits past the end of the file *)

Module EditToolFacts.
Import WorkspaceEdit EditTool StringFacts.

Lemma index_last (l : list string) (x : string) :
  JS.index (l ++ [x]) (Z.of_nat (length (l ++ [x])) - 1) = Some x.
Proof.
  unfold JS.index. rewrite length_app. simpl.
  destruct (Z.ltb_spec (Z.of_nat (length l + 1) - 1) 0); [lia |].
  apply list_lookup_middle. lia.
Qed.

Lemma index_of_nat (l : list string) (i : nat) : JS.index l (Z.of_nat i) = l !! i.
Proof.
  unfold JS.index. destruct (Z.ltb_spec (Z.of_nat i) 0); [lia |].
  by rewrite Nat2Z.id.
Qed.

Lemma lastContentLine_snoc_nonempty l x :
  x <> ""%string -> lastContentLine (l ++ [x]) = length l.
Proof.
  intros Hx. unfold lastContentLine. rewrite reverse_snoc, length_app. simpl.
  destruct x; [done | lia].
Qed.

Lemma lastContentLine_snoc_empty l y :
  lastContentLine ((l ++ [y]) ++ [""%string]) = length l.
Proof.
  unfold lastContentLine. rewrite !reverse_snoc, !length_app. simpl. lia.
Qed.

(** The index the EOF branch of [getRange] computes. *)
Lemma eof_index lines :
  lines <> [] ->
  let len := Z.of_nat (length lines) in
  let last0 := len - 1 in
  let last1 :=
    if (0 <=? last0) && bool_decide (JS.index lines last0 = Some ""%string)
    then last0 - 1 else last0 in
  (if last1 <? 0 then 0 else last1) = Z.of_nat (lastContentLine lines)
  /\ (lastContentLine lines < length lines)%nat.
Proof.
  intros Hne. destruct lines as [|x0 l0] using rev_ind; [done |]. clear IHl0 Hne.
  cbv zeta. rewrite index_last.
  assert (Hlen : Z.of_nat (length (l0 ++ [x0])) = Z.of_nat (length l0) + 1)
    by (rewrite length_app; simpl; lia).
  rewrite Hlen.
  destruct (Z.leb_spec 0 (Z.of_nat (length l0) + 1 - 1)); [| lia]. simpl.
  destruct (decide (x0 = ""%string)) as [-> | Hx].
  - rewrite bool_decide_eq_true_2 by reflexivity.
    destruct l0 as [|y l1] using rev_ind.
    + simpl. change (lastContentLine [""%string]) with 0%nat. split; [reflexivity | lia].
    + clear IHl1. rewrite lastContentLine_snoc_empty, !length_app. simpl.
      destruct (Z.ltb_spec (Z.of_nat (length l1 + 1) + 1 - 1 - 1) 0); lia.
  - rewrite bool_decide_eq_false_2 by congruence.
    rewrite lastContentLine_snoc_nonempty by exact Hx. rewrite length_app. simpl.
    destruct (Z.ltb_spec (Z.of_nat (length l0) + 1 - 1) 0); lia.
Qed.

Lemma lineRange_past_eof content startLine endLine :
  let lines := JS.split content (lineEnding content) in
  Z.of_nat (length lines) < startLine ->
  exists ln,
    lines !! lastContentLine lines = Some ln
    /\ lineRange content startLine endLine
       = Ok {| start := {| line := Z.of_nat (lastContentLine lines); character := JS.strlen ln |};
               end_ := {| line := Z.of_nat (lastContentLine lines); character := JS.strlen ln |} |}.
Proof.
  intros lines Hpast.
  destruct (eof_index lines (split_nonempty _ _)) as [Hidx Hlt].
  destruct (lookup_lt_is_Some_2 lines _ Hlt) as [ln Hln].
  exists ln. split; [exact Hln |].
  unfold lineRange. fold lines.
  destruct (Z.ltb_spec startLine 1); [lia |].
  destruct (Z.leb_spec (Z.of_nat (length lines)) (startLine - 1)); [| lia].
  cbv zeta in Hidx. rewrite Hidx.
  unfold lengthOrZero. rewrite index_of_nat, Hln. reflexivity.
Qed.

(** [getRange] on a file that is there. *)
Lemma getRange_read (disk : gmap string string) filePath content s e :
  disk !! filePath = Some content ->
  getRange disk filePath s e = lineRange content s e.
Proof. intros Hfile. unfold getRange, fs_readFile. by rewrite Hfile. Qed.

(** The path comes back from a URI that is [file://] and the path. *)
Lemma uriPath_fileUri (filePath : string) : uriPath (Client.fileUri filePath) = filePath.
Proof. destruct filePath; reflexivity. Qed.

Lemma snoc_of_nonempty {A} (l : list A) : l <> [] -> exists l' x, l = l' ++ [x].
Proof.
  destruct l as [|x l'] using rev_ind; [done |]. intros _. by exists l', x.
Qed.

Lemma insert_last (l : list string) (x y : string) : <[length l := y]> (l ++ [x]) = l ++ [y].
Proof. rewrite insert_app_r_alt by lia. by rewrite Nat.sub_diag. Qed.

(** What the tool writes for a file that reads as [content]: the ranges,
    then the edits applied to the content. *)
Local Abbreviation edited disk filePath content edits :=
  (lspEdits <-! toLspEdits disk filePath
                  (JS.sort (fun a b : LineEdit => startLine b - startLine a) edits) ;;
   applyFileEdits content lspEdits).

(** Applying the one edit adds the text at the end of that line. *)
Lemma edited_past_eof_lines (disk : gmap string string) filePath content startLine endLine text :
  disk !! filePath = Some content ->
  JS.includes content JS.CRLF = false ->
  let lines := JS.split content JS.LF in
  Z.of_nat (length lines) < startLine ->
  exists ln,
    lines !! lastContentLine lines = Some ln
    /\ edited disk filePath content
         [ {| startLine := startLine; endLine := endLine; lineText := text |} ]
       = Ok (JS.join JS.LF (<[lastContentLine lines := ln +:+ text]> lines)).
Proof.
  intros Hfile Hlf lines Hpast.
  assert (Hending : lineEnding content = JS.LF) by (unfold lineEnding; by rewrite Hlf).
  pose proof (lineRange_past_eof content startLine endLine) as Hrange.
  cbv zeta in Hrange. rewrite Hending in Hrange. fold lines in Hrange.
  destruct (Hrange Hpast) as (ln & Hln & Hget).
  exists ln. split; [exact Hln |].
  change (JS.sort _ [_]) with [ {| startLine := startLine; endLine := endLine; lineText := text |} ].
  cbn [toLspEdits EditTool.startLine EditTool.endLine EditTool.lineText].
  rewrite (getRange_read _ _ _ _ _ Hfile), Hget. cbn [bind].
  unfold applyFileEdits. fold lines.
  change (JS.sort compareEdits [?e]) with [e].
  cbn [applySorted]. unfold applyEdit. cbn [edit_range newText start end_ line character].
  rewrite Z.eqb_refl, index_of_nat, Hln. cbn [bind].
  rewrite Nat2Z.id. unfold JS.substring_to, JS.substring_from, JS.strlen.
  rewrite Nat2Z.id, take_str_length, drop_str_length, app_empty_r.
  reflexivity.
Qed.

(** The text a past-EOF edit leaves in a file with LF line endings. *)
Lemma edited_past_eof_content (disk : gmap string string) filePath content startLine endLine text :
  disk !! filePath = Some content ->
  JS.includes content JS.CRLF = false ->
  Z.of_nat (length (JS.split content JS.LF)) < startLine ->
  exists content',
    edited disk filePath content
      [ {| startLine := startLine; endLine := endLine; lineText := text |} ] = Ok content'
    /\ (forall c0, content = c0 +:+ JS.LF -> content' = c0 +:+ text +:+ JS.LF)
    /\ ((forall c0, content <> c0 +:+ JS.LF) -> content' = content +:+ text).
Proof.
  intros Hfile Hlf Hpast.
  destruct (edited_past_eof_lines disk filePath content startLine endLine text Hfile Hlf Hpast)
    as (ln & Hln & Happly).
  eexists. split; [exact Happly |]. clear Happly Hpast Hfile.
  split.
  - intros c0 ->. rewrite split_app_LF in *.
    destruct (snoc_of_nonempty (JS.split c0 JS.LF) (split_nonempty _ _)) as (l & y & Hsplit).
    rewrite Hsplit in *. rewrite lastContentLine_snoc_empty in *.
    rewrite lookup_app_l in Hln by (rewrite length_app; simpl; lia).
    rewrite list_lookup_middle in Hln by reflexivity. injection Hln as <-.
    rewrite insert_app_l by (rewrite length_app; simpl; lia).
    rewrite insert_last.
    rewrite join_snoc by (intros Hnil; by apply app_eq_nil in Hnil as [_ ?]).
    rewrite join_snoc_app, <- Hsplit, join_split.
    by rewrite app_empty_r, app_assoc_str.
  - intros Hnolf.
    pose proof (join_split content) as Hjoin.
    destruct (snoc_of_nonempty (JS.split content JS.LF) (split_nonempty _ _)) as (l & x & Hsplit).
    rewrite Hsplit in *.
    destruct (decide (x = ""%string)) as [-> | Hx].
    + destruct l as [|y l'] using rev_ind.
      * simpl in *. change (lastContentLine [""%string]) with 0%nat in *.
        simpl in Hln. injection Hln as <-. simpl. by rewrite <- Hjoin.
      * exfalso. apply (Hnolf (JS.join JS.LF (l' ++ [y]))).
        rewrite <- Hjoin.
        rewrite join_snoc by (intros Hnil; by apply app_eq_nil in Hnil as [_ ?]).
        by rewrite app_empty_r.
    + rewrite lastContentLine_snoc_nonempty in * by exact Hx.
      rewrite list_lookup_middle in Hln by reflexivity. injection Hln as <-.
      by rewrite insert_last, join_snoc_app, Hjoin.
Qed.

Section WithClient.

Variable pathToUri : string -> string.
Variable detectLanguageId : string -> string.
Variable stdinWritable : bool.

Local Abbreviation openFile := (EditTool.openFile pathToUri detectLanguageId stdinWritable).
Local Abbreviation applyTextEdits :=
  (EditTool.applyTextEdits pathToUri detectLanguageId stdinWritable).

(** A failure of [openFile] ends the call before the file is looked at. *)
Lemma applyTextEdits_not_opened filePath edits env err :
  fst (openFile filePath env) = Throw err ->
  applyTextEdits filePath edits env
  = (Throw ("Could not open file: Error: " +:+ err),
     {| disk := disk env; client := snd (openFile filePath env) |}).
Proof.
  intros Hopen. unfold EditTool.applyTextEdits.
  destruct (openFile filePath env) as [[[]|err'] client']; [discriminate |].
  simpl in Hopen. by injection Hopen as ->.
Qed.

(** The call on a file that opens, is there, and whose path comes back from
    its URI: the ranges are computed, the edits applied to the content and
    the result written to the same file; a failure on the way leaves the
    disk as it was. *)
Lemma applyTextEdits_opened filePath edits env content :
  fst (openFile filePath env) = Ok tt ->
  uriPath (pathToUri filePath) = filePath ->
  disk env !! filePath = Some content ->
  applyTextEdits filePath edits env
  = match edited (disk env) filePath content edits with
    | Ok content' =>
        (Ok (report edits),
         {| disk := <[filePath := content']> (disk env);
            client := snd (openFile filePath env) |})
    | Throw msg =>
        (Throw msg, {| disk := disk env; client := snd (openFile filePath env) |})
    end.
Proof.
  intros Hopen Hpath Hfile. unfold EditTool.applyTextEdits.
  destruct (openFile filePath env) as [[[]|err] client']; [| discriminate].
  cbn [snd].
  destruct (toLspEdits _ _ _) as [lspEdits | msg]; [| reflexivity].
  cbn [bind WorkspaceEdit.applyWorkspaceEdit].
  rewrite Hpath, Hfile.
  by destruct (applyFileEdits content lspEdits).
Qed.

(** C6 (amended).  The file has LF line endings and the edit starts past
    its last line.  [getRange] then returns a zero-width range at the end
    of the last line, or of the line before it when the last line is empty
    and not the only one; these are the lines the text is written by.
    When the file opens and its path comes back from its URI, applying the
    edit puts the new text there and keeps every character of the file:
    the text goes to the end of the file when the file does not end with a
    line feed, and just before the final line feed when it does. *)
Theorem getRange_past_eof filePath env content startLine endLine text :
  let lines := JS.split content JS.LF in
  let edit := {| startLine := startLine; endLine := endLine; lineText := text |} in
  disk env !! filePath = Some content ->
  JS.includes content JS.CRLF = false ->
  Z.of_nat (length lines) < startLine ->
  (exists ln,
      lines !! lastContentLine lines = Some ln
      /\ getRange (disk env) filePath startLine endLine
         = Ok {| start := {| line := Z.of_nat (lastContentLine lines);
                             character := JS.strlen ln |};
                 end_ := {| line := Z.of_nat (lastContentLine lines);
                            character := JS.strlen ln |} |})
  /\ (fst (openFile filePath env) = Ok tt ->
      uriPath (pathToUri filePath) = filePath ->
      exists content',
        applyTextEdits filePath [edit] env
        = (Ok (report [edit]),
           {| disk := <[filePath := content']> (disk env);
              client := snd (openFile filePath env) |})
        /\ (forall c0, content = c0 +:+ JS.LF -> content' = c0 +:+ text +:+ JS.LF)
        /\ ((forall c0, content <> c0 +:+ JS.LF) -> content' = content +:+ text)).
Proof.
  intros lines edit Hfile Hlf Hpast. split.
  - rewrite (getRange_read _ _ _ _ _ Hfile).
    pose proof (lineRange_past_eof content startLine endLine) as Hrange.
    cbv zeta in Hrange. unfold lineEnding in Hrange. rewrite Hlf in Hrange.
    by apply Hrange.
  - intros Hopen Hpath.
    destruct (edited_past_eof_content (disk env) filePath content startLine endLine text
                Hfile Hlf Hpast) as (content' & Hedited & Hends).
    exists content'. split; [| exact Hends].
    rewrite (applyTextEdits_opened filePath [edit] env content Hopen Hpath Hfile).
    subst edit. by rewrite Hedited.
Qed.

End WithClient.

Lemma getRange_past_eof_witness :
  disk (oneFile "/notes.txt" twoLines) !! "/notes.txt"%string = Some twoLines
  /\ JS.includes twoLines JS.CRLF = false
  /\ Z.of_nat (length (JS.split twoLines JS.LF)) < 4
  /\ fst (sampleApply "/notes.txt" [pastEof] (oneFile "/notes.txt" twoLines))
     = Ok (report [pastEof])
  /\ disk (snd (sampleApply "/notes.txt" [pastEof] (oneFile "/notes.txt" twoLines)))
     = <["/notes.txt"%string := ("a
b" +:+ "X" +:+ JS.LF)%string]> (disk (oneFile "/notes.txt" twoLines)).
Proof.
  assert (H1 : disk (oneFile "/notes.txt" twoLines) !! "/notes.txt"%string = Some twoLines)
    by (vm_compute; reflexivity).
  assert (H2 : JS.includes twoLines JS.CRLF = false) by (vm_compute; reflexivity).
  assert (H3 : Z.of_nat (length (JS.split twoLines JS.LF)) < 4) by (vm_compute; reflexivity).
  split; [exact H1 |]. split; [exact H2 |]. split; [exact H3 |].
  destruct (proj2 (getRange_past_eof Client.fileUri (fun _ => "plaintext"%string) true
                     "/notes.txt" (oneFile "/notes.txt" twoLines) twoLines 4 4 "X" H1 H2 H3))
    as (content' & Happly & Hlf & _); [vm_compute; reflexivity | reflexivity |].
  unfold sampleApply, pastEof. rewrite Happly. cbn [fst snd disk].
  split; [reflexivity |]. f_equal. apply Hlf. reflexivity.
Defined.

(** Two inputs the statement above leaves out.  In a file with both kinds
    of line ending [getRange] counts the lines between CR LF and the text is
    written by the lines between LF: the text of an edit past the end
    lands inside the file. *)
Lemma applyTextEdits_mixed_endings_sample :
  getRange (disk (oneFile "/notes.txt" mixedEndings)) "/notes.txt" 4 4
  = Ok {| start := {| line := 1; character := 1 |};
          end_ := {| line := 1; character := 1 |} |}
  /\ disk (snd (sampleApply "/notes.txt" [pastEof] (oneFile "/notes.txt" mixedEndings)))
       !! "/notes.txt"%string
     = Some ("a" +:+ JS.LF +:+ "bX" +:+ JS.CRLF +:+ "c")%string.
Proof. split; vm_compute; reflexivity. Qed.

(** For a path with a space in it the URI holds [%20], the path taken back
    from the URI is not the path of the file, and the call fails after the
    file was opened and its ranges computed. *)
Lemma applyTextEdits_encoded_path_sample :
  uriPath (encodingUri "/my notes.txt") = "/my%20notes.txt"%string
  /\ fst (applyTextEdits encodingUri (fun _ => "plaintext"%string) true "/my notes.txt"
            [pastEof] (oneFile "/my notes.txt" twoLines))
     = Throw "ENOENT: no such file or directory".
Proof. split; vm_compute; reflexivity. Qed.

(** C6 as worded fails for a file that ends with a line feed: the range of
    an edit past the end is placed at the end of line [b], not at the end of
    the file [(2,0)], and the text is not appended. *)
Lemma getRange_past_eof_append_counterexample :
  Z.of_nat (length (JS.split twoLines (lineEnding twoLines))) < startLine pastEof
  /\ getRange (disk (oneFile "/notes.txt" twoLines)) "/notes.txt"
       (startLine pastEof) (endLine pastEof)
     = Ok {| start := {| line := 1; character := 1 |};
             end_ := {| line := 1; character := 1 |} |}
  /\ fst (sampleApply "/notes.txt" [pastEof] (oneFile "/notes.txt" twoLines))
     = Ok (report [pastEof])
  /\ disk (snd (sampleApply "/notes.txt" [pastEof] (oneFile "/notes.txt" twoLines)))
       !! "/notes.txt"%string
     <> Some (twoLines +:+ lineText pastEof).
Proof.
  split; [vm_compute; reflexivity |]. split; [vm_compute; reflexivity |].
  split; [vm_compute; reflexivity |].
  vm_compute. discriminate.
Qed.

End EditToolFacts.

(** ** Framing *)

Module TransportFacts.
Import Transport StringFacts.

(** *** Decimal numerals *)

Lemma pretty_N_char_digit (y : N) : JS.isDigit (pretty_N_char y) = true.
Proof. unfold pretty_N_char. by repeat case_match. Qed.

Lemma digitValue_pretty_N_char (y : N) : (y < 10)%N -> JS.digitValue (pretty_N_char y) = Z.of_N y.
Proof.
  intros Hy.
  assert (y = 0 \/ y = 1 \/ y = 2 \/ y = 3 \/ y = 4 \/ y = 5 \/ y = 6 \/ y = 7 \/ y = 8 \/ y = 9)%N
    as Hcases by lia.
  repeat (destruct Hcases as [-> | Hcases]; [reflexivity |]). by subst.
Qed.

Lemma allDigits_app a b : allDigits (a +:+ b) = allDigits a && allDigits b.
Proof.
  induction a as [|c a IH]; [reflexivity |].
  rewrite app_cons. simpl. by rewrite IH, andb_assoc.
Qed.

(** The digits [pretty_N_go] puts in front of [s], and what [parseDigits]
    makes of them. *)
Lemma pretty_N_go_digits (x : N) :
  exists ds k,
    (forall s, pretty_N_go x s = ds +:+ s)
    /\ allDigits ds = true
    /\ (0 <= k)
    /\ forall a rest,
         JS.parseDigits (ds +:+ rest) (Some a) = JS.parseDigits rest (Some (a * 10 ^ k + Z.of_N x)).
Proof.
  induction (N.lt_wf_0 x) as [x _ IH].
  destruct (decide (x = 0%N)) as [-> | Hx].
  - exists ""%string, 0. repeat split; [lia |]. intros a rest.
    rewrite app_empty_l. do 2 f_equal. lia.
  - assert (0 < x)%N as Hpos by lia.
    destruct (IH (x `div` 10)%N) as (ds & k & Hgo & Hds & Hk & Hval).
    { by apply N.div_lt. }
    exists (ds +:+ String (pretty_N_char (x `mod` 10)) ""), (k + 1).
    split; [| split; [| split]].
    + intros s. rewrite pretty_N_go_step by exact Hpos.
      by rewrite Hgo, app_assoc_str.
    + rewrite allDigits_app, Hds. simpl. by rewrite pretty_N_char_digit.
    + lia.
    + intros a rest. rewrite app_assoc_str, Hval, app_cons, app_empty_l.
      cbn [JS.parseDigits]. rewrite pretty_N_char_digit. cbn [default].
      rewrite digitValue_pretty_N_char by (apply N.mod_lt; lia).
      do 2 f_equal. rewrite Z.pow_add_r by lia.
      rewrite (N.div_mod x 10) at 3 by lia.
      rewrite N2Z.inj_add, N2Z.inj_mul. change (Z.of_N 10) with 10.
      unfold id. change (10 ^ 1) with 10. ring.
Qed.

Lemma toString_digits (n : Z) :
  0 <= n ->
  exists c ds k,
    JS.toString n = String c ds
    /\ allDigits (String c ds) = true
    /\ forall a rest,
         JS.parseDigits (String c ds +:+ rest) (Some a)
         = JS.parseDigits rest (Some (a * 10 ^ k + n)).
Proof.
  intros Hn. unfold JS.toString, pretty, pretty_Z.
  destruct n as [|p|p]; [| | lia].
  - exists "0"%char, ""%string, 1. repeat split. intros a rest.
    rewrite app_cons, app_empty_l.
    change (JS.parseDigits (String "0" rest) (Some a))
      with (JS.parseDigits rest (Some (10 * a + 0))).
    do 2 f_equal. change (10 ^ 1) with 10. lia.
  - unfold pretty, pretty_positive, pretty, pretty_N.
    rewrite decide_False by done.
    destruct (pretty_N_go_digits (N.pos p)) as (ds & k & Hgo & Hds & Hk & Hval).
    rewrite Hgo, app_empty_r.
    destruct ds as [|c ds].
    + (* no digit at all would make the numeral empty *)
      exfalso. specialize (Hgo ""%string).
      rewrite pretty_N_go_step in Hgo by lia.
      destruct (pretty_N_go_digits (N.pos p `div` 10)) as (ds' & _ & Hgo' & _).
      rewrite Hgo' in Hgo. destruct ds'; discriminate.
    + exists c, ds, k. repeat split; [exact Hds |]. exact Hval.
Qed.

Lemma digit_char_facts (c : ascii) :
  JS.isDigit c = true ->
  JS.isWhiteSpace c = false
  /\ Ascii.eqb c "-" = false
  /\ Ascii.eqb c "+" = false
  /\ Ascii.eqb c (ascii_of_nat 13) = false
  /\ isAscii c = true.
Proof.
  destruct c as [[] [] [] [] [] [] [] []]; intros H; try discriminate H; repeat split.
Qed.

Lemma parseInt_toString (n : Z) : 0 <= n -> JS.parseInt (JS.toString n) = JS.Int n.
Proof.
  intros Hn. destruct (toString_digits n Hn) as (c & ds & k & -> & Hds & Hval).
  simpl in Hds. apply andb_true_iff in Hds as [Hc Hds].
  destruct (digit_char_facts c Hc) as (Hws & Hminus & Hplus & _ & _).
  unfold JS.parseInt. cbn [JS.trimStart]. rewrite Hws, Hminus, Hplus.
  specialize (Hval 0 ""%string). rewrite app_empty_r in Hval.
  cbn [JS.parseDigits] in *. rewrite Hc in *. cbn [default] in *.
  unfold id in *. replace (10 * 0 + JS.digitValue c) with (JS.digitValue c) in Hval by lia.
  replace (10 * 0 + JS.digitValue c) with (JS.digitValue c) by lia.
  rewrite Hval. f_equal; lia.
Qed.

Lemma allAscii_app a b : allAscii (a +:+ b) = allAscii a && allAscii b.
Proof.
  induction a as [|c a IH]; [reflexivity |].
  rewrite app_cons. simpl. by rewrite IH, andb_assoc.
Qed.

Lemma noCR_app a b : noCR (a +:+ b) = noCR a && noCR b.
Proof.
  induction a as [|c a IH]; [reflexivity |].
  rewrite app_cons. simpl. by rewrite IH, andb_assoc.
Qed.

Lemma allDigits_plain s : allDigits s = true -> allAscii s = true /\ noCR s = true.
Proof.
  induction s as [|c s IH]; [done |]. simpl.
  intros [Hc Hs]%andb_true_iff.
  destruct (digit_char_facts c Hc) as (_ & _ & _ & Hcr & Hascii).
  destruct (IH Hs) as [-> ->]. by rewrite Hcr, Hascii.
Qed.

Lemma headerFields_plain (n : Z) :
  0 <= n -> allAscii (headerFields n) = true /\ noCR (headerFields n) = true.
Proof.
  intros Hn. destruct (toString_digits n Hn) as (c & ds & k & Heq & Hds & _).
  unfold headerFields. rewrite allAscii_app, noCR_app, Heq.
  destruct (allDigits_plain _ Hds) as [-> ->]. by split.
Qed.

(** A string with no carriage return is a single header line. *)
Lemma split_go_noCR cur s :
  noCR s = true -> JS.split_go JS.CRLF 0 cur s = [JS.rev_str cur +:+ s].
Proof.
  revert cur. induction s as [|c s IH]; intros cur Hs.
  - simpl. by rewrite app_empty_r.
  - simpl in Hs. apply andb_true_iff in Hs as [Hc Hs].
    apply negb_true_iff, Ascii.eqb_neq in Hc.
    cbn [JS.split_go].
    assert (String.prefix JS.CRLF (String c s) = false) as ->.
    { unfold JS.CRLF, JS.CR. rewrite app_cons. cbn [String.prefix].
      destruct (ascii_dec (ascii_of_nat 13) c); [congruence | reflexivity]. }
    rewrite IH by exact Hs. by rewrite rev_str_cons, app_assoc_str.
Qed.

Lemma readHeaders_headerFields (n : Z) (before : JS.Num) :
  0 <= n ->
  foldl readHeaderLine before (JS.split (headerFields n) JS.CRLF) = JS.Int n.
Proof.
  intros Hn. destruct (headerFields_plain n Hn) as [_ Hcr].
  unfold JS.split. rewrite split_go_noCR by exact Hcr.
  change (JS.rev_str "" +:+ headerFields n) with (headerFields n).
  cbn [foldl]. unfold readHeaderLine, JS.startsWith.
  assert (String.prefix contentLengthPrefix (headerFields n) = true) as ->.
  { apply prefix_spec. by exists (JS.toString n). }
  unfold JS.substring_from, headerFields.
  change (Z.to_nat 16) with (String.length contentLengthPrefix).
  rewrite drop_str_app_length. by apply parseInt_toString.
Qed.

(** Where [indexOf] finds the separator in a buffer that holds the start of
    a stream beginning with CR-free header fields. *)
Lemma indexOfFrom_separator (h0 hay x y : string) (i : nat) :
  noCR h0 = true ->
  hay +:+ x = h0 +:+ headerSeparator +:+ y ->
  JS.indexOfFrom headerSeparator hay i
  = if (String.length h0 + 4 <=? String.length hay)%nat
    then Some (i + String.length h0)%nat else None.
Proof.
  revert hay i. induction h0 as [|c h0 IH]; intros hay i Hcr Heq.
  - rewrite app_empty_l in Heq.
    change headerSeparator
      with (String (ascii_of_nat 13) (String (ascii_of_nat 10)
             (String (ascii_of_nat 13) (String (ascii_of_nat 10) "")))) in *.
    rewrite !app_cons, app_empty_l in Heq.
    destruct hay as [|c1 hay]; [reflexivity |].
    rewrite app_cons in Heq. injection Heq as -> Heq.
    destruct hay as [|c2 hay]; [reflexivity |].
    rewrite app_cons in Heq. injection Heq as -> Heq.
    destruct hay as [|c3 hay]; [reflexivity |].
    rewrite app_cons in Heq. injection Heq as -> Heq.
    destruct hay as [|c4 hay]; [reflexivity |].
    rewrite app_cons in Heq. injection Heq as -> Heq.
    cbn [JS.indexOfFrom String.length].
    match goal with
    | |- (if String.prefix ?needle ?h then _ else _) = _ =>
        assert (String.prefix needle h = true) as ->
          by (apply prefix_spec; by exists hay)
    end.
    simpl. f_equal. lia.
  - simpl in Hcr. apply andb_true_iff in Hcr as [Hc Hcr].
    apply negb_true_iff, Ascii.eqb_neq in Hc.
    destruct hay as [|d hay].
    + reflexivity.
    + rewrite !app_cons in Heq. injection Heq as -> Heq.
      cbn [JS.indexOfFrom].
      assert (String.prefix headerSeparator (String c hay) = false) as ->.
      { unfold headerSeparator, JS.CRLF, JS.CR. rewrite !app_cons. cbn [String.prefix].
        destruct (ascii_dec (ascii_of_nat 13) c); [congruence | reflexivity]. }
      rewrite (IH hay (S i) Hcr Heq). cbn [String.length].
      destruct (Nat.leb_spec (String.length h0 + 4) (String.length hay));
        destruct (Nat.leb_spec (S (String.length h0) + 4) (S (String.length hay)));
        try lia; [f_equal; lia | reflexivity].
Qed.

(** *** Slices *)

Lemma sliceTo_nat (buf : Buffer) (i : nat) :
  (i <= String.length buf)%nat -> sliceTo buf (Z.of_nat i) = JS.take_str i buf.
Proof.
  intros Hi. unfold sliceTo, JS.clampIndex, JS.strlen.
  destruct (Z.ltb_spec (Z.of_nat i) 0); [lia |]. f_equal. lia.
Qed.

Lemma sliceFrom_nat (buf : Buffer) (i : nat) :
  (i <= String.length buf)%nat -> sliceFrom buf (Z.of_nat i) = JS.drop_str i buf.
Proof.
  intros Hi. unfold sliceFrom, JS.clampIndex, JS.strlen.
  destruct (Z.ltb_spec (Z.of_nat i) 0); [lia |]. f_equal. lia.
Qed.

Lemma concatBuffers_empty (chunks : list Buffer) :
  concatBuffers chunks = ""%string -> Forall (fun c => c = ""%string) chunks.
Proof.
  induction chunks as [|c chunks IH]; simpl; [constructor |].
  intros Heq. destruct c; [| discriminate]. constructor; [reflexivity | by apply IH].
Qed.

(** *** One message *)

Section WithRuntime.

Variable LSPMessage : Type.
Variable JSON_stringify : LSPMessage -> string.
Variable JSON_parse : string -> option LSPMessage.
Variable utf8_encode : string -> Buffer.
Variable utf8_decode : Buffer -> string.

(** UTF-8 leaves ASCII as it is: an ASCII prefix encodes to itself, and
    ASCII bytes decode to themselves. *)
Hypothesis utf8_encode_ascii_app :
  forall a s, allAscii a = true -> utf8_encode (a +:+ s) = a +:+ utf8_encode s.
Hypothesis utf8_decode_ascii :
  forall b, allAscii b = true -> utf8_decode b = b.

Local Abbreviation writeMessage := (writeMessage LSPMessage JSON_stringify utf8_encode).
Local Abbreviation body := (body LSPMessage JSON_stringify utf8_encode).
Local Abbreviation roundTrips :=
  (roundTrips LSPMessage JSON_stringify JSON_parse utf8_encode utf8_decode).
Local Abbreviation parseContent := (parseContent LSPMessage JSON_parse utf8_decode).
Local Abbreviation tryParse := (tryParse LSPMessage JSON_parse utf8_decode).
Local Abbreviation onData := (onData LSPMessage JSON_parse utf8_decode).
Local Abbreviation awaitData := (awaitData LSPMessage JSON_parse utf8_decode).
Local Abbreviation readMessage := (readMessage LSPMessage JSON_parse utf8_decode).
Local Abbreviation readMessages := (readMessages LSPMessage JSON_parse utf8_decode).
Local Abbreviation framed := (framed LSPMessage JSON_stringify utf8_encode).
Local Abbreviation delivers := (delivers LSPMessage).

Lemma writeMessage_frame (m : LSPMessage) :
  writeMessage m = headerFields (JS.strlen (body m)) +:+ headerSeparator +:+ body m.
Proof.
  unfold Transport.writeMessage, Transport.body, headerFields, headerSeparator.
  set (n := JS.strlen (utf8_encode (JSON_stringify m))).
  assert (Hn : 0 <= n) by (unfold n, JS.strlen; lia).
  destruct (headerFields_plain n Hn) as [Hascii _]. unfold headerFields in Hascii.
  rewrite utf8_encode_ascii_app.
  - by rewrite !app_assoc_str.
  - rewrite !allAscii_app in *. apply andb_true_iff in Hascii as [-> ->]. reflexivity.
Qed.

Lemma frame_assoc (m : LSPMessage) (rest : Buffer) :
  writeMessage m +:+ rest
  = (headerFields (Z.of_nat (String.length (body m))) +:+ headerSeparator)
    +:+ (body m +:+ rest).
Proof. rewrite writeMessage_frame. unfold JS.strlen. by rewrite !app_assoc_str. Qed.

Lemma parseContent_body (m : LSPMessage) (buf x rest : Buffer) :
  roundTrips m ->
  buf +:+ x = body m +:+ rest ->
  let n := String.length (body m) in
  if (String.length buf <? n)%nat
  then parseContent {| buffer := buf; contentLength := JS.Int (Z.of_nat n) |}
       = (Pending, {| buffer := buf; contentLength := JS.Int (Z.of_nat n) |})
  else parseContent {| buffer := buf; contentLength := JS.Int (Z.of_nat n) |}
       = (Resolved m, {| buffer := JS.drop_str n buf; contentLength := JS.Int (-1) |})
       /\ JS.drop_str n buf +:+ x = rest.
Proof.
  intros Hround Heq n. unfold Transport.parseContent.
  cbn [buffer contentLength JS.num_ltb numOrZero]. unfold JS.strlen.
  destruct (Nat.ltb_spec (String.length buf) n) as [Hlt | Hge].
  - destruct (Z.ltb_spec (Z.of_nat (String.length buf)) (Z.of_nat n)); [reflexivity | lia].
  - destruct (Z.ltb_spec (Z.of_nat (String.length buf)) (Z.of_nat n)); [lia |].
    destruct (app_eq_long buf x (body m) rest Heq Hge) as (z & Hbuf & Hrest).
    rewrite sliceTo_nat, sliceFrom_nat by exact Hge.
    subst buf n.
    rewrite take_str_app_length, !drop_str_app_length.
    unfold Transport.roundTrips in Hround. unfold Transport.body at 1. rewrite Hround.
    split; [reflexivity | by symmetry].
Qed.

Lemma tryParse_headers (m : LSPMessage) (buf x rest : Buffer) :
  buf +:+ x = writeMessage m +:+ rest ->
  let n := String.length (body m) in
  let h := (String.length (headerFields (Z.of_nat n)) + 4)%nat in
  tryParse {| buffer := buf; contentLength := JS.Int (-1) |}
  = if (h <=? String.length buf)%nat
    then parseContent {| buffer := JS.drop_str h buf; contentLength := JS.Int (Z.of_nat n) |}
    else (Pending, {| buffer := buf; contentLength := JS.Int (-1) |}).
Proof.
  intros Heq n h. rewrite writeMessage_frame in Heq. unfold JS.strlen in Heq. fold n in Heq.
  rewrite !app_assoc_str in Heq.
  destruct (headerFields_plain (Z.of_nat n) ltac:(lia)) as [Hascii Hcr].
  unfold Transport.tryParse. cbn [buffer contentLength JS.num_ltb].
  change (-1 <? 0) with true. cbn iota.
  unfold JS.indexOf. rewrite (indexOfFrom_separator _ _ _ _ 0 Hcr Heq). fold h.
  destruct (Nat.leb_spec h (String.length buf)) as [Hle | Hgt]; [| reflexivity].
  cbn [Nat.add].
  assert (Hh0 : (String.length (headerFields (Z.of_nat n)) <= String.length buf)%nat)
    by (unfold h in Hle; lia).
  destruct (app_eq_long buf x _ _ Heq Hh0) as (z & Hbuf & _).
  rewrite sliceTo_nat by exact Hh0.
  assert (Htake : JS.take_str (String.length (headerFields (Z.of_nat n))) buf
                  = headerFields (Z.of_nat n))
    by (rewrite Hbuf; apply take_str_app_length).
  rewrite Htake, utf8_decode_ascii by exact Hascii.
  rewrite readHeaders_headerFields by lia.
  cbn [JS.num_ltb]. destruct (Z.ltb_spec (Z.of_nat n) 0); [lia |].
  replace (Z.of_nat (String.length (headerFields (Z.of_nat n))) + 4) with (Z.of_nat h)
    by (unfold h; lia).
  by rewrite sliceFrom_nat by exact Hle.
Qed.

Lemma tryParse_in_body (buf : Buffer) (n : nat) :
  tryParse {| buffer := buf; contentLength := JS.Int (Z.of_nat n) |}
  = parseContent {| buffer := buf; contentLength := JS.Int (Z.of_nat n) |}.
Proof.
  unfold Transport.tryParse. cbn [contentLength JS.num_ltb].
  destruct (Z.ltb_spec (Z.of_nat n) 0); [lia | reflexivity].
Qed.

(** The body is awaited: chunks are taken until it is all there. *)
Lemma awaitData_body (m : LSPMessage) (rest : Buffer) :
  roundTrips m ->
  forall chunks buf,
    buf +:+ concatBuffers chunks = body m +:+ rest ->
    (String.length buf < String.length (body m))%nat ->
    delivers m rest
      (awaitData {| buffer := buf;
                    contentLength := JS.Int (Z.of_nat (String.length (body m))) |} chunks).
Proof.
  intros Hround. induction chunks as [|c chunks IH]; intros buf Heq Hlt.
  - simpl in Heq. rewrite app_empty_r in Heq. subst buf.
    rewrite length_app_str in Hlt. lia.
  - cbn [concatBuffers] in Heq. rewrite <- app_assoc_str in Heq.
    cbn [Transport.awaitData]. unfold Transport.onData. cbn [buffer contentLength].
    rewrite tryParse_in_body.
    pose proof (parseContent_body m (buf +:+ c) (concatBuffers chunks) rest Hround Heq) as Hparse.
    cbv zeta in Hparse.
    destruct (Nat.ltb_spec (String.length (buf +:+ c)) (String.length (body m))) as [Hlt' | Hge].
    + rewrite Hparse. by apply IH.
    + destruct Hparse as [-> Hdrop]. eexists _, _. split; [reflexivity |]. by split.
Qed.

(** What [tryParse] makes of a buffer that holds the start of a stream
    beginning with the frame of [m]: it waits for the headers, or reads
    them and waits for the body, or resolves with [m]. *)
Lemma tryParse_stream (m : LSPMessage) (buf x rest : Buffer) :
  roundTrips m ->
  buf +:+ x = writeMessage m +:+ rest ->
  let n := String.length (body m) in
  let before := {| buffer := buf; contentLength := JS.Int (-1) |} in
  (tryParse before = (Pending, before)
   /\ (String.length buf < String.length (headerFields (Z.of_nat n)) + 4)%nat)
  \/ (exists z,
        tryParse before = (Pending, {| buffer := z; contentLength := JS.Int (Z.of_nat n) |})
        /\ z +:+ x = body m +:+ rest
        /\ (String.length z < n)%nat)
  \/ (exists z,
        tryParse before = (Resolved m, {| buffer := z; contentLength := JS.Int (-1) |})
        /\ z +:+ x = rest).
Proof.
  intros Hround Heq n before. subst before.
  rewrite (tryParse_headers m _ _ _ Heq). cbv zeta. fold n.
  destruct (Nat.leb_spec (String.length (headerFields (Z.of_nat n)) + 4) (String.length buf))
    as [Hle | Hgt]; [| left; by split].
  right. rewrite frame_assoc in Heq. fold n in Heq.
  assert (Hlen : (String.length (headerFields (Z.of_nat n) +:+ headerSeparator)
                  <= String.length buf)%nat).
  { rewrite length_app_str. change (String.length headerSeparator) with 4%nat. exact Hle. }
  destruct (app_eq_long _ _ _ _ Heq Hlen) as (z & Hbuf & Hz).
  assert (Hdrop : JS.drop_str (String.length (headerFields (Z.of_nat n)) + 4) buf = z).
  { rewrite Hbuf.
    replace (String.length (headerFields (Z.of_nat n)) + 4)%nat
      with (String.length (headerFields (Z.of_nat n) +:+ headerSeparator))
      by (rewrite length_app_str; reflexivity).
    apply drop_str_app_length. }
  rewrite Hdrop.
  pose proof (parseContent_body m z x rest Hround (eq_sym Hz)) as Hparse.
  cbv zeta in Hparse. fold n in Hparse.
  destruct (Nat.ltb_spec (String.length z) n) as [Hlt | Hge].
  - left. exists z. split; [exact Hparse |]. by split.
  - right. destruct Hparse as [Hres Hrest]. eexists. split; [exact Hres | exact Hrest].
Qed.

(** The headers are awaited, then the body. *)
Lemma awaitData_headers (m : LSPMessage) (rest : Buffer) :
  roundTrips m ->
  forall chunks buf,
    buf +:+ concatBuffers chunks = writeMessage m +:+ rest ->
    (String.length buf
     < String.length (headerFields (Z.of_nat (String.length (body m)))) + 4)%nat ->
    delivers m rest (awaitData {| buffer := buf; contentLength := JS.Int (-1) |} chunks).
Proof.
  intros Hround. induction chunks as [|c chunks IH]; intros buf Heq Hlt.
  - simpl in Heq. rewrite app_empty_r in Heq. subst buf.
    rewrite writeMessage_frame in Hlt. unfold JS.strlen in Hlt.
    rewrite !length_app_str in Hlt. change (String.length headerSeparator) with 4%nat in Hlt.
    lia.
  - cbn [concatBuffers] in Heq. rewrite <- app_assoc_str in Heq.
    cbn [Transport.awaitData]. unfold Transport.onData. cbn [buffer contentLength].
    destruct (tryParse_stream m _ _ _ Hround Heq)
      as [[-> Hshort] | [(z & -> & Hz & Hlt') | (z & -> & Hz)]].
    + by apply IH.
    + by apply awaitData_body.
    + eexists _, _. split; [reflexivity |]. by split.
Qed.

Lemma readMessage_delivers (m : LSPMessage) (rest : Buffer) (chunks : list Buffer) (buf : Buffer) :
  roundTrips m ->
  buf +:+ concatBuffers chunks = writeMessage m +:+ rest ->
  delivers m rest (readMessage {| buffer := buf; contentLength := JS.Int (-1) |} chunks).
Proof.
  intros Hround Heq. unfold Transport.readMessage.
  destruct (tryParse_stream m _ _ _ Hround Heq)
    as [[-> Hshort] | [(z & -> & Hz & Hlt') | (z & -> & Hz)]].
  - by apply awaitData_headers.
  - by apply awaitData_body.
  - eexists _, _. split; [reflexivity |]. by split.
Qed.

(** *** A stream of messages *)

(** What a read leaves of the chunks is what comes after those it took. *)
Lemma awaitData_rest (chunks : list Buffer) : forall r,
  exists taken, chunks = taken ++ snd (awaitData r chunks).
Proof.
  induction chunks as [|c chunks IH]; intros r; [by exists [] |].
  cbn [Transport.awaitData].
  destruct (onData r c) as [[| m | msg] r'].
  - destruct (IH r') as [taken Htaken]. exists (c :: taken). simpl. by f_equal.
  - by exists [c].
  - by exists [c].
Qed.

Lemma readMessage_rest (r : MessageReader) (chunks : list Buffer) :
  exists taken, chunks = taken ++ snd (readMessage r chunks).
Proof.
  unfold Transport.readMessage. destruct (tryParse r) as [[| m | msg] r'].
  - apply awaitData_rest.
  - by exists [].
  - by exists [].
Qed.

Lemma concat_oneByOne (chunks : list Buffer) : concat (oneByOne chunks) = chunks.
Proof. induction chunks as [|c chunks IH]; [reflexivity |]. simpl. by rewrite IH. Qed.

(** With every chunk in a turn of its own nothing is emitted between two
    reads. *)
Lemma afterRead_oneByOne (taken rest : list Buffer) :
  afterRead (length (taken ++ rest) - length rest) (oneByOne (taken ++ rest)) = oneByOne rest.
Proof.
  rewrite length_app. replace (length taken + length rest - length rest)%nat
    with (length taken) by lia.
  induction taken as [|c taken IH]; [by destruct rest |].
  cbn [app oneByOne map afterRead length].
  destruct taken as [|c' taken]; [reflexivity |].
  cbn [length Nat.leb]. exact IH.
Qed.

Lemma readMessages_framed (ms : list LSPMessage) :
  Forall roundTrips ms ->
  forall rest chunks r,
    contentLength r = JS.Int (-1) ->
    buffer r +:+ concatBuffers chunks = framed ms +:+ rest ->
    exists r' chunks',
      readMessages (length ms) r (oneByOne chunks) = (ms, r', oneByOne chunks')
      /\ contentLength r' = JS.Int (-1)
      /\ buffer r' +:+ concatBuffers chunks' = rest.
Proof.
  induction 1 as [|m ms Hm Hms IH]; intros rest chunks r Hcl Heq.
  - exists r, chunks. split; [reflexivity |]. split; [exact Hcl | exact Heq].
  - cbn [length Transport.readMessages]. rewrite concat_oneByOne.
    unfold Transport.framed in Heq. cbn [map concatBuffers] in Heq.
    rewrite app_assoc_str in Heq.
    destruct r as [buf cl]. cbn [contentLength buffer] in *. subst cl.
    destruct (readMessage_rest {| buffer := buf; contentLength := JS.Int (-1) |} chunks)
      as [taken Htaken].
    destruct (readMessage_delivers m _ chunks buf Hm Heq) as (r1 & chunks1 & Hread & Hcl1 & Heq1).
    rewrite Hread in Htaken |- *. cbn [snd] in Htaken. subst chunks.
    rewrite afterRead_oneByOne.
    destruct (IH rest chunks1 r1 Hcl1 Heq1) as (r2 & chunks2 & -> & Hcl2 & Heq2).
    exists r2, chunks2. split; [reflexivity |]. by split.
Qed.

(** With nothing left on the stream a further read ends on EOF. *)
Lemma readMessage_eof (chunks : list Buffer) :
  concatBuffers chunks = ""%string ->
  readMessage newReader chunks = (Rejected "LSP connection closed (EOF)", newReader, []).
Proof.
  intros Hempty. apply concatBuffers_empty in Hempty.
  unfold Transport.readMessage.
  change (tryParse newReader) with (@Pending LSPMessage, newReader).
  induction Hempty as [|c chunks -> _ IH]; [reflexivity |].
  cbn [Transport.awaitData]. unfold Transport.onData.
  change (tryParse _) with (@Pending LSPMessage, newReader). exact IH.
Qed.

Lemma readMessage_single_rest (chunk : Buffer) :
  snd (readMessage newReader [chunk]) = [].
Proof.
  unfold Transport.readMessage.
  change (tryParse newReader) with (@Pending LSPMessage, newReader).
  cbn [Transport.awaitData].
  by destruct (onData newReader chunk) as [[| |] ?].
Qed.

(** A message written by [writeMessage] and handed to a fresh reader in
    one piece is read back as it was. *)
Lemma readMessage_writeMessage (m : LSPMessage) :
  roundTrips m ->
  readMessage newReader [writeMessage m] = (Resolved m, newReader, []).
Proof.
  intros Hround.
  destruct (readMessage_delivers m "" [writeMessage m] "" Hround) as (r' & chunks' & Hres & Hcl & Hbuf).
  { cbn [concatBuffers]. by rewrite app_empty_l. }
  pose proof (readMessage_single_rest (writeMessage m)) as Hrest.
  unfold newReader in *.
  rewrite Hres in Hrest |- *. cbn [snd] in Hrest. subst chunks'.
  cbn [concatBuffers] in Hbuf. rewrite app_empty_r in Hbuf.
  destruct r' as [buf cl]. cbn [buffer contentLength] in *. by subst.
Qed.

(** The frame of one message, taken by a fresh reader as one chunk. *)
Lemma onData_writeMessage (m : LSPMessage) :
  roundTrips m -> onData newReader (writeMessage m) = (Resolved m, newReader).
Proof.
  intros Hround. pose proof (readMessage_writeMessage m Hround) as Hread.
  unfold Transport.readMessage in Hread.
  change (tryParse newReader) with (@Pending LSPMessage, newReader) in Hread.
  cbn [Transport.awaitData] in Hread.
  destruct (onData newReader (writeMessage m)) as [[| m' | msg] r'];
    [discriminate | by injection Hread as -> -> | discriminate].
Qed.

(** When every chunk is emitted in a turn of its own, a stream made of the
    frames of [N] messages, cut into chunks at any byte positions, is read
    back by [N] successive [readMessage] calls as those messages in order,
    the bytes past each body being kept for the next one; after them
    nothing is left and a further read ends on EOF. *)
Lemma framing_round_trip_one_by_one (ms : list LSPMessage) (chunks : list Buffer) :
  Forall roundTrips ms ->
  concatBuffers chunks = framed ms ->
  exists chunks',
    readMessages (length ms) newReader (oneByOne chunks) = (ms, newReader, oneByOne chunks')
    /\ concatBuffers chunks' = ""%string
    /\ readMessage newReader chunks'
       = (Rejected "LSP connection closed (EOF)", newReader, []).
Proof.
  intros Hround Hstream.
  destruct (readMessages_framed ms Hround "" chunks newReader eq_refl)
    as (r' & chunks' & Hres & Hcl & Hbuf).
  { cbn [buffer]. by rewrite app_empty_l, app_empty_r. }
  destruct r' as [buf cl]. cbn [buffer contentLength] in *. subst cl.
  destruct buf; [| discriminate]. rewrite app_empty_l in Hbuf.
  exists chunks'. split; [exact Hres |]. split; [exact Hbuf |].
  by apply readMessage_eof.
Qed.

(** C1 fails on the code.  When the stream emits the frames of several
    messages as chunks of one burst (within one turn of the event loop),
    the first [readMessage] resolves with the first message and takes its
    listeners off the stream; the other chunks are emitted to no listener.
    However many reads follow, the first message is the only one read: the
    next read finds an empty buffer and waits until the stream ends.  The
    runtime is asked that the first message's JSON text comes back through
    the UTF-8 codec and [JSON.parse], and that the codec leaves ASCII
    alone. *)
Theorem readMessages_burst_keeps_first_only (m : LSPMessage) (ms : list LSPMessage) (n : nat) :
  roundTrips m ->
  readMessages (S n) newReader [map writeMessage (m :: ms)] = ([m], newReader, [])
  /\ (ms <> [] -> fst (fst (readMessages (S n) newReader [map writeMessage (m :: ms)])) <> m :: ms).
Proof.
  intros Hround.
  assert (Hread : readMessages (S n) newReader [map writeMessage (m :: ms)]
                  = ([m], newReader, [])).
  { cbn [Transport.readMessages concat map]. rewrite app_nil_r.
    unfold Transport.readMessage at 1.
    change (tryParse newReader) with (@Pending LSPMessage, newReader).
    cbn [Transport.awaitData]. rewrite onData_writeMessage by exact Hround.
    cbn [length]. replace (S (length (map writeMessage ms)) - length (map writeMessage ms))%nat
      with 1%nat by lia.
    cbn [afterRead Nat.leb].
    destruct n as [|k]; [reflexivity |].
    cbn [Transport.readMessages concat]. by rewrite readMessage_eof. }
  split; [exact Hread |].
  intros Hne. rewrite Hread. cbn [fst]. intros [= <-]. by apply Hne.
Qed.

End WithRuntime.

(** The sample codec satisfies what is asked of UTF-8. *)
Lemma latin1_utf8_encode_ascii_app a s :
  allAscii a = true -> latin1_utf8_encode (a +:+ s) = a +:+ latin1_utf8_encode s.
Proof.
  induction a as [|c a IH]; intros Ha; [reflexivity |].
  simpl in Ha. apply andb_true_iff in Ha as [Hc Ha].
  rewrite !app_cons. cbn [latin1_utf8_encode]. rewrite IH by exact Ha.
  unfold encodeUnit. unfold isAscii in Hc. by rewrite Hc.
Qed.

Lemma latin1_utf8_decode_ascii b :
  allAscii b = true -> latin1_utf8_decode b = b.
Proof.
  induction b as [|c b IH]; intros Hb; [reflexivity |].
  simpl in Hb. apply andb_true_iff in Hb as [Hc Hb].
  cbn [latin1_utf8_decode]. destruct b as [|c2 b2]; [reflexivity |].
  unfold isAscii in Hc. apply Nat.ltb_lt in Hc.
  destruct (Nat.leb_spec 194 (nat_of_ascii c)); [lia |]. cbn [andb].
  by rewrite IH.
Qed.

(** The sample stream, one chunk a turn: both messages are read. *)
Lemma framing_round_trip_sample :
  exists chunks',
    readMessages string Some latin1_utf8_decode 2 newReader (oneByOne sampleChunks)
    = ([sampleRequest; sampleNotification], newReader, oneByOne chunks')
    /\ concatBuffers chunks' = ""%string
    /\ readMessage string Some latin1_utf8_decode newReader chunks'
       = (Rejected "LSP connection closed (EOF)", newReader, []).
Proof.
  apply (framing_round_trip_one_by_one string (fun m => m) Some latin1_utf8_encode
           latin1_utf8_decode latin1_utf8_encode_ascii_app latin1_utf8_decode_ascii
           [sampleRequest; sampleNotification] sampleChunks).
  - repeat constructor; vm_compute; reflexivity.
  - vm_compute. reflexivity.
Qed.

Lemma readMessages_burst_keeps_first_only_witness :
  roundTrips string (fun m => m) Some latin1_utf8_encode latin1_utf8_decode sampleRequest
  /\ readMessages string Some latin1_utf8_decode 2 newReader [sampleBurst]
     = ([sampleRequest], newReader, []).
Proof.
  assert (H1 : roundTrips string (fun m => m) Some latin1_utf8_encode latin1_utf8_decode
                 sampleRequest) by (vm_compute; reflexivity).
  split; [exact H1 |].
  exact (proj1 (readMessages_burst_keeps_first_only string (fun m => m) Some
                  latin1_utf8_encode latin1_utf8_decode
                  latin1_utf8_encode_ascii_app latin1_utf8_decode_ascii
                  sampleRequest [sampleNotification] 1 H1)).
Defined.

End TransportFacts.

(** ** The open-file registry over runs of operations *)

Module ClientRunFacts.
Import Client.

Section WithUri.

Variable pathToUri : string -> string.
Variable detectLanguageId : string -> string.

Local Abbreviation openFile := (openFile pathToUri detectLanguageId).
Local Abbreviation closeFile := (closeFile pathToUri).
Local Abbreviation notifyChange := (notifyChange pathToUri).
Local Abbreviation run := (run pathToUri detectLanguageId).

(** The four ways [openFile] can end. *)
Lemma openFile_cases world filePath st :
  let uri := pathToUri filePath in
  (is_Some (openFiles st !! uri) /\ openFile world filePath st = (Ok tt, st))
  \/ (openFiles st !! uri = None
      /\ exists msg, openFile world filePath st = (Throw msg, st))
  \/ (openFiles st !! uri = None
      /\ exists content,
           readFile world filePath = Some content
           /\ stdinWritable world = true
           /\ openFile world filePath st
              = (Ok tt,
                 {| openFiles := <[uri := {| version := 1; info_uri := uri |}]> (openFiles st);
                    sent := sent st ++ [DidOpen uri (detectLanguageId uri) 1 content] |})).
Proof.
  unfold Client.openFile, mbind, getOpenFile, readFileOrThrow, setOpenFile, notify, ret, throw.
  simpl. destruct (openFiles st !! pathToUri filePath) as [info|] eqn:Hopen.
  - left. split; [by eexists | reflexivity].
  - right. destruct (readFile world filePath) as [content|]; [| left; split; [done | by eexists]].
    simpl. destruct (stdinWritable world) eqn:Hw; simpl.
    + right. split; [done |]. exists content. done.
    + left. split; [done | by eexists].
Qed.

(** The three ways [closeFile] can end. *)
Lemma closeFile_cases world filePath st :
  let uri := pathToUri filePath in
  (openFiles st !! uri = None /\ closeFile world filePath st = (Ok tt, st))
  \/ (is_Some (openFiles st !! uri) /\ stdinWritable world = false
      /\ exists msg, closeFile world filePath st = (Throw msg, st))
  \/ (is_Some (openFiles st !! uri) /\ stdinWritable world = true
      /\ closeFile world filePath st
         = (Ok tt, {| openFiles := delete uri (openFiles st);
                      sent := sent st ++ [DidClose uri] |})).
Proof.
  unfold Client.closeFile, mbind, getOpenFile, deleteOpenFile, notify, ret.
  simpl. destruct (openFiles st !! pathToUri filePath) as [info|] eqn:Hopen.
  - right. destruct (stdinWritable world); simpl.
    + right. split; [by eexists | done].
    + left. split; [by eexists |]. split; [done | by eexists].
  - left. done.
Qed.

Lemma openFile_ok world filePath st content :
  openFiles st !! pathToUri filePath = None ->
  readFile world filePath = Some content ->
  stdinWritable world = true ->
  openFile world filePath st
  = (Ok tt,
     {| openFiles := <[pathToUri filePath := {| version := 1; info_uri := pathToUri filePath |}]>
                       (openFiles st);
        sent := sent st ++ [DidOpen (pathToUri filePath) (detectLanguageId (pathToUri filePath))
                              1 content] |}).
Proof.
  intros Hclosed Hread Hwrite.
  unfold Client.openFile, mbind, getOpenFile, readFileOrThrow, setOpenFile, notify, ret.
  simpl. rewrite Hclosed, Hread. simpl. by rewrite Hwrite.
Qed.

Lemma closeFile_ok world filePath st :
  is_Some (openFiles st !! pathToUri filePath) ->
  stdinWritable world = true ->
  closeFile world filePath st
  = (Ok tt, {| openFiles := delete (pathToUri filePath) (openFiles st);
               sent := sent st ++ [DidClose (pathToUri filePath)] |}).
Proof.
  intros [info Hopen] Hwrite.
  unfold Client.closeFile, mbind, getOpenFile, deleteOpenFile, notify, ret.
  simpl. rewrite Hopen. simpl. by rewrite Hwrite.
Qed.

Lemma serverView_snoc ns n : serverView (ns ++ [n]) = serverStep (serverView ns) n.
Proof. unfold serverView. by rewrite foldl_app. Qed.

Lemma agrees_initial : agrees initialState.
Proof.
  exists ∅. split; [reflexivity |]. split; [by rewrite !dom_empty_L |].
  intros u v Hu. by rewrite lookup_empty in Hu.
Qed.

Lemma dom_lookup_None (docs : gmap string Z) (files : gmap string OpenFileInfo) u :
  dom docs = dom files -> (docs !! u = None <-> files !! u = None).
Proof.
  intros Hdom. rewrite <- !not_elem_of_dom, Hdom. reflexivity.
Qed.

Lemma agrees_openFile world filePath st :
  agrees st -> agrees (snd (openFile world filePath st)).
Proof.
  intros Hst.
  destruct (openFile_cases world filePath st)
    as [[_ ->] | [[_ [msg ->]] | (Hclosed & content & _ & _ & ->)]]; [done | done |].
  destruct Hst as (docs & Hview & Hdom & Hver).
  exists (<[pathToUri filePath := 1]> docs). simpl. split; [| split].
  - rewrite serverView_snoc, Hview. simpl.
    apply (dom_lookup_None docs _ _ Hdom) in Hclosed. by rewrite Hclosed.
  - by rewrite !dom_insert_L, Hdom.
  - intros u v. rewrite lookup_insert. destruct (decide (pathToUri filePath = u)) as [<- | Hne].
    + intros [= <-]. eexists. rewrite lookup_insert, decide_True by done.
      split; [reflexivity |]. simpl. split; [lia | done].
    + intros Hu. destruct (Hver u v Hu) as (info & Hinfo & Hrest).
      exists info. rewrite lookup_insert, decide_False by done. done.
Qed.

Lemma agrees_closeFile world filePath st :
  agrees st -> agrees (snd (closeFile world filePath st)).
Proof.
  intros Hst.
  destruct (closeFile_cases world filePath st)
    as [[_ ->] | [(_ & _ & [msg ->]) | (Hopen & _ & ->)]]; [done | done |].
  destruct Hst as (docs & Hview & Hdom & Hver).
  exists (delete (pathToUri filePath) docs). simpl. split; [| split].
  - rewrite serverView_snoc, Hview. simpl.
    destruct (docs !! pathToUri filePath) eqn:Hdoc; [done |].
    apply (dom_lookup_None docs _ _ Hdom) in Hdoc. rewrite Hdoc in Hopen.
    by destruct Hopen.
  - by rewrite !dom_delete_L, Hdom.
  - intros u v. rewrite lookup_delete.
    destruct (decide (pathToUri filePath = u)) as [<- | Hne]; [done |].
    intros Hu. destruct (Hver u v Hu) as (info & Hinfo & Hrest).
    exists info. rewrite lookup_delete, decide_False by done. done.
Qed.

Lemma agrees_notifyChange world filePath st :
  agrees st -> agrees (snd (notifyChange world filePath st)).
Proof.
  intros Hst.
  destruct (ClientFacts.notifyChange_step pathToUri world filePath st)
    as [-> | (info & Hopen & Hmap & Hsent)]; [done |].
  destruct Hst as (docs & Hview & Hdom & Hver).
  assert (Hdoc : exists v0, docs !! pathToUri filePath = Some v0).
  { destruct (docs !! pathToUri filePath) eqn:Hd; [by eexists |].
    apply (dom_lookup_None docs _ _ Hdom) in Hd. congruence. }
  destruct Hdoc as (v0 & Hv0).
  destruct (Hver _ _ Hv0) as (info0 & Hinfo0 & Hrange & Huri).
  assert (info0 = info) by congruence. subst info0.
  destruct Hsent as [Hsame | (content & Happ)].
  - exists docs. split; [by rewrite Hsame |]. split.
    + rewrite Hmap, dom_insert_L, Hdom.
      apply elem_of_dom_2 in Hopen. symmetry. apply subseteq_union_1_L.
      by apply singleton_subseteq_l.
    + intros u v Hu. rewrite Hmap, lookup_insert.
      destruct (decide (pathToUri filePath = u)) as [<- | Hne].
      * eexists. split; [reflexivity |]. simpl.
        assert (v = v0) by congruence. subst v. split; [lia | done].
      * by apply Hver.
  - exists (<[pathToUri filePath := version info + 1]> docs). split; [| split].
    + rewrite Happ, serverView_snoc, Hview. simpl. rewrite Hv0.
      destruct (Z.ltb_spec v0 (version info + 1)); [done | lia].
    + rewrite Hmap, !dom_insert_L, Hdom. done.
    + intros u v. rewrite Hmap, !lookup_insert.
      destruct (decide (pathToUri filePath = u)) as [<- | Hne].
      * intros [= <-]. eexists. split; [reflexivity |]. simpl. split; [lia | done].
      * by apply Hver.
Qed.

(** Whatever [openFile], [notifyChange] and [closeFile] calls a fresh
    client runs, and whatever reads and writes fail on the way, the
    notifications it has written follow the document lifecycle: a [didOpen]
    only for a document that is not open, a [didChange] or [didClose] only
    for one that is, and versions that go up.  The documents open on the
    wire are exactly the URIs of the registry, each stored under its own
    URI with a version at least the last one sent. *)
Theorem registry_follows_document_lifecycle calls :
  let st := run calls initialState in
  exists docs,
    serverView (sent st) = Some docs
    /\ dom docs = dom (openFiles st)
    /\ forall u v, docs !! u = Some v ->
         exists info, openFiles st !! u = Some info
                      /\ 1 <= v <= version info /\ info_uri info = u.
Proof.
  change (agrees (run calls initialState)).
  unfold Client.run. generalize agrees_initial. generalize initialState.
  induction calls as [|[world op] calls IH]; intros st Hst; [exact Hst |].
  simpl. apply IH. destruct op; simpl.
  - by apply agrees_openFile.
  - by apply agrees_notifyChange.
  - by apply agrees_closeFile.
Qed.

(** Calling [openFile] twice in a row leaves the state the first call
    left, and so does calling [closeFile] twice: the second call neither
    writes a notification nor touches the registry, whether the first one
    succeeded or failed. *)
Theorem openFile_closeFile_idempotent world filePath st :
  snd (openFile world filePath (snd (openFile world filePath st)))
  = snd (openFile world filePath st)
  /\ snd (closeFile world filePath (snd (closeFile world filePath st)))
     = snd (closeFile world filePath st).
Proof.
  split.
  - destruct (openFile_cases world filePath st)
      as [[_ Heq] | [[_ [msg Heq]] | (_ & content & _ & _ & Heq)]].
    + rewrite Heq. simpl. by rewrite Heq.
    + rewrite Heq. simpl. by rewrite Heq.
    + rewrite Heq. simpl.
      set (uri := pathToUri filePath).
      destruct (openFile_cases world filePath
                  {| openFiles := <[uri := {| version := 1; info_uri := uri |}]> (openFiles st);
                     sent := sent st ++ [DidOpen uri (detectLanguageId uri) 1 content] |})
        as [[_ ->] | [[Hno _] | (Hno & _)]]; [done | |];
        simpl in Hno; by rewrite lookup_insert, decide_True in Hno.
  - destruct (closeFile_cases world filePath st)
      as [[_ Heq] | [(_ & _ & [msg Heq]) | (_ & _ & Heq)]].
    + rewrite Heq. simpl. by rewrite Heq.
    + rewrite Heq. simpl. by rewrite Heq.
    + rewrite Heq. simpl.
      destruct (closeFile_cases world filePath
                  {| openFiles := delete (pathToUri filePath) (openFiles st);
                     sent := sent st ++ [DidClose (pathToUri filePath)] |})
        as [[_ ->] | [(Hyes & _) | (Hyes & _)]]; [done | |];
        simpl in Hyes; rewrite lookup_delete, decide_True in Hyes by done;
        by destruct Hyes.
Qed.

(** A call to [openFile] that fails leaves the registry and the wire as
    they were: a file is never registered without its [didOpen] written. *)
Theorem openFile_failure_leaves_state world filePath st msg :
  fst (openFile world filePath st) = Throw msg ->
  snd (openFile world filePath st) = st.
Proof.
  intros Hfail.
  destruct (openFile_cases world filePath st)
    as [[_ Heq] | [[_ [msg' Heq]] | (_ & content & _ & _ & Heq)]];
    rewrite Heq in *; simpl in *; done.
Qed.

(** For a file that is not open, can be read and whose notifications are
    written, [openFile] followed by [closeFile] leaves the registry as it
    was and writes [didOpen] (version 1, the file's content) then
    [didClose]; after it [notifyChange] fails without writing anything. *)
Theorem openFile_then_closeFile world filePath st content :
  openFiles st !! pathToUri filePath = None ->
  readFile world filePath = Some content ->
  stdinWritable world = true ->
  let uri := pathToUri filePath in
  let st' := snd (closeFile world filePath (snd (openFile world filePath st))) in
  openFiles st' = openFiles st
  /\ sent st' = sent st ++ [DidOpen uri (detectLanguageId uri) 1 content; DidClose uri]
  /\ exists msg, notifyChange world filePath st' = (Throw msg, st').
Proof.
  intros Hclosed Hread Hwrite uri st'. subst uri st'.
  rewrite (openFile_ok world filePath st content Hclosed Hread Hwrite). simpl.
  rewrite closeFile_ok; [| simpl; by rewrite lookup_insert, decide_True | done].
  simpl. rewrite delete_insert_eq, (delete_id _ _ Hclosed), <- app_assoc. simpl.
  split; [done |]. split; [done |].
  unfold Client.notifyChange, mbind, getOpenFile, throw. simpl. rewrite Hclosed.
  by eexists.
Qed.

(** Closing and reopening a document starts its versions again: whatever
    version the registry held, after [closeFile] and [openFile] it holds
    version 1 and the next [notifyChange] reports version 2. *)
Theorem reopen_restarts_version world filePath st info content :
  openFiles st !! pathToUri filePath = Some info ->
  readFile world filePath = Some content ->
  stdinWritable world = true ->
  let uri := pathToUri filePath in
  let st1 := snd (openFile world filePath (snd (closeFile world filePath st))) in
  storedVersion uri st1 = Some 1
  /\ sent (snd (notifyChange world filePath st1))
     = sent st ++ [DidClose uri; DidOpen uri (detectLanguageId uri) 1 content;
                   DidChange uri 2 content].
Proof.
  intros Hopen Hread Hwrite uri st1. subst uri st1.
  rewrite closeFile_ok; [| by eexists | done]. simpl.
  rewrite (openFile_ok world filePath _ content);
    [| simpl; by rewrite lookup_delete, decide_True | done | done].
  simpl. split.
  - unfold storedVersion. simpl. by rewrite lookup_insert, decide_True.
  - unfold Client.notifyChange, mbind, getOpenFile, readFileOrThrow, setOpenFile, notify, ret.
    simpl. rewrite lookup_insert, decide_True by done. rewrite Hread. simpl.
    rewrite Hwrite. simpl. by rewrite <- !app_assoc.
Qed.

End WithUri.

Section CloseAll.

Variable pathToUri : string -> string.
Variable uriToPath : string -> string.

Lemma closeAllFiles_loop world files : forall st,
  stdinWritable world = true ->
  NoDup files ->
  (forall u, u ∈ files -> is_Some (openFiles st !! u) /\ pathToUri (uriToPath u) = u) ->
  let st' := closeAllFiles pathToUri uriToPath world files st in
  openFiles st' = foldr delete (openFiles st) files
  /\ sent st' = sent st ++ (DidClose <$> files).
Proof.
  induction files as [|u files IH]; intros st Hwrite Hnodup Hall; simpl.
  - by rewrite app_nil_r.
  - apply NoDup_cons in Hnodup as [Hu Hnodup].
    destruct (Hall u) as [Hopen Hround]; [by left |].
    unfold closeAllFiles in *. simpl.
    destruct (closeFile_cases pathToUri world (uriToPath u) st)
      as [[Hno _] | [(_ & Hw & _) | (_ & _ & Heq)]].
    + rewrite Hround in Hno. rewrite Hno in Hopen. by destruct Hopen.
    + congruence.
    + rewrite Heq, Hround. simpl.
      destruct (IH {| openFiles := delete u (openFiles st); sent := sent st ++ [DidClose u] |})
        as [Hmap Hsent]; [done | done | |].
      { intros w Hw. destruct (Hall w) as [Hwopen Hwround]; [by right |].
        split; [| done]. simpl. rewrite lookup_delete, decide_False; [done |].
        intros ->. done. }
      simpl in Hmap, Hsent. rewrite Hmap, Hsent, <- app_assoc. split; [| done].
      clear. induction files as [|w files IH]; [done |].
      simpl. rewrite IH. apply delete_delete.
Qed.

(** [closeAllFiles], when writes go through and every registered URI
    comes back from [pathToUri (uriToPath uri)] unchanged, empties the
    registry and writes one [didClose] per open document, in the order of
    the keys. *)
Theorem closeAllFiles_empties world files st :
  stdinWritable world = true ->
  files ≡ₚ (map_to_list (openFiles st)).*1 ->
  (forall u, u ∈ files -> pathToUri (uriToPath u) = u) ->
  let st' := closeAllFiles pathToUri uriToPath world files st in
  openFiles st' = ∅ /\ sent st' = sent st ++ (DidClose <$> files).
Proof.
  intros Hwrite Hperm Hround st'. subst st'.
  assert (Hnodup : NoDup files).
  { rewrite Hperm. apply NoDup_fst_map_to_list. }
  assert (Hin : forall u, u ∈ files <-> is_Some (openFiles st !! u)).
  { intros u. rewrite Hperm, list_elem_of_fmap. split.
    - intros ([k v] & -> & Hkv). apply elem_of_map_to_list in Hkv. by eexists.
    - intros [v Hv]. exists (u, v). split; [done |]. by apply elem_of_map_to_list. }
  destruct (closeAllFiles_loop world files st Hwrite Hnodup) as [Hmap Hsent].
  { intros u Hu. split; [by apply Hin | by apply Hround]. }
  split; [| exact Hsent]. rewrite Hmap. apply map_eq. intros u.
  rewrite lookup_empty.
  assert (Hdel : forall (m : gmap string OpenFileInfo) l,
             foldr delete m l !! u = if decide (u ∈ l) then None else m !! u).
  { intros m l. induction l as [|w l IHl]; simpl.
    - destruct (decide (u ∈ [])) as [Hu |]; [by apply elem_of_nil in Hu | done].
    - rewrite lookup_delete. destruct (decide (w = u)) as [-> | Hne].
      + destruct (decide (u ∈ u :: l)) as [| Hn]; [done |]. exfalso. apply Hn. by left.
      + rewrite IHl. destruct (decide (u ∈ l)) as [Hl | Hl];
          destruct (decide (u ∈ w :: l)) as [Hc | Hc]; try done.
        * exfalso. apply Hc. by right.
        * apply elem_of_cons in Hc as [-> | Hc]; done. }
  rewrite Hdel. destruct (decide (u ∈ files)) as [|Hnot]; [done |].
  destruct (openFiles st !! u) eqn:Hu; [| done].
  exfalso. apply Hnot, Hin. by eexists.
Qed.

End CloseAll.

Lemma openFile_failure_leaves_state_witness :
  snd (Client.openFile fileUri (fun _ => "typescript"%string) sampleWorld "/c.ts" sampleState)
  = sampleState.
Proof.
  apply (openFile_failure_leaves_state fileUri (fun _ => "typescript"%string) sampleWorld
           "/c.ts" sampleState "ENOENT: no such file or directory").
  vm_compute. reflexivity.
Defined.

Lemma openFile_then_closeFile_witness :
  sent (snd (Client.closeFile fileUri (steadyWorld "x") "/c.ts"
          (snd (Client.openFile fileUri (fun _ => "typescript"%string) (steadyWorld "x")
                  "/c.ts" sampleState))))
  = [DidOpen "file:///c.ts" "typescript" 1 "x"; DidClose "file:///c.ts"].
Proof.
  apply (openFile_then_closeFile fileUri (fun _ => "typescript"%string) (steadyWorld "x")
           "/c.ts" sampleState "x"); vm_compute; reflexivity.
Defined.

Lemma reopen_restarts_version_witness :
  storedVersion "file:///b.ts"
    (snd (Client.openFile fileUri (fun _ => "typescript"%string) (steadyWorld "x") "/b.ts"
            (snd (Client.closeFile fileUri (steadyWorld "x") "/b.ts" sampleState))))
  = Some 1.
Proof.
  apply (reopen_restarts_version fileUri (fun _ => "typescript"%string) (steadyWorld "x")
           "/b.ts" sampleState {| version := 4; info_uri := "file:///b.ts" |} "x");
    vm_compute; reflexivity.
Defined.

Lemma closeAllFiles_empties_witness :
  openFiles (closeAllFiles fileUri (fun u => JS.substring_from u 7) (steadyWorld "x")
               ["file:///b.ts"; "file:///a.ts"]%string sampleState) = ∅.
Proof.
  apply (closeAllFiles_empties fileUri (fun u => JS.substring_from u 7) (steadyWorld "x")
           ["file:///b.ts"; "file:///a.ts"]%string sampleState).
  - reflexivity.
  - vm_compute. apply perm_swap || reflexivity.
  - intros u Hu. apply elem_of_cons in Hu as [-> | Hu]; [reflexivity |].
    apply list_elem_of_singleton in Hu as ->. reflexivity.
Defined.

End ClientRunFacts.

(** ** Requests, responses and diagnostics *)

Module RequestsFacts.
Import Requests.

Section WithPayload.

Context {Payload : Type}.

Lemma correlated_initial : correlated (@initialState Payload).
Proof.
  split; [simpl; lia |]. split; [constructor |]. split.
  - intros c message Hin. by apply elem_of_nil in Hin.
  - intros k c Hk. simpl in Hk. by rewrite lookup_empty in Hk.
Qed.

Lemma correlated_call w method (st : State Payload) :
  correlated st -> correlated (snd (call w method st)).
Proof.
  intros (Hpos & Hnodup & Hres & Hpend).
  assert (Hfresh : nextId st ∉ fst <$> resolved st).
  { intros Hin. apply list_elem_of_fmap in Hin as ([c message] & Hc & Hin).
    simpl in Hc. subst c. destruct (Hres _ _ Hin) as [_ Hlt]. lia. }
  assert (Hgoal : forall ws,
             correlated {| nextId := nextId st + 1;
                           pendingRequests := <[JS.toString (nextId st) := nextId st]>
                                                (pendingRequests st);
                           written := ws; resolved := resolved st |}).
  { intros ws. split; [simpl; lia |]. split; [exact Hnodup |]. split; simpl.
    - intros c message Hin. destruct (Hres _ _ Hin) as [Hid Hlt]. split; [exact Hid | lia].
    - intros k c. rewrite lookup_insert.
      destruct (decide (JS.toString (nextId st) = k)) as [<- | Hne].
      + intros [= <-]. split; [done |]. split; [lia | exact Hfresh].
      + intros Hk. destruct (Hpend _ _ Hk) as (Hkey & Hlt & Hnot).
        split; [exact Hkey |]. split; [lia | exact Hnot]. }
  unfold call. destruct w; simpl; apply Hgoal.
Qed.

Lemma correlated_handleResponse message (st : State Payload) :
  correlated st -> correlated (handleResponse message st).
Proof.
  intros (Hpos & Hnodup & Hres & Hpend). unfold handleResponse.
  destruct (pendingRequests st !! idToString (fst message)) as [resolver|] eqn:Hlook;
    [| done].
  destruct (Hpend _ _ Hlook) as (Hkey & Hlt & Hnot).
  split; [exact Hpos |]. split; [| split]; simpl.
  - rewrite fmap_app. simpl. apply NoDup_app. split; [exact Hnodup |]. split.
    + intros c Hc Hin. apply list_elem_of_singleton in Hin. by subst c.
    + apply NoDup_singleton.
  - intros c m Hin. apply elem_of_app in Hin as [Hin | Hin]; [by apply Hres |].
    apply list_elem_of_singleton in Hin. injection Hin as -> ->. done.
  - intros k c. rewrite lookup_delete.
    destruct (decide (idToString (fst message) = k)) as [<- | Hne]; [done |].
    intros Hk. destruct (Hpend _ _ Hk) as (Hkey' & Hlt' & Hnot').
    split; [exact Hkey' |]. split; [exact Hlt' |].
    rewrite fmap_app. simpl. intros Hin. apply elem_of_app in Hin as [Hin | Hin]; [done |].
    apply list_elem_of_singleton in Hin. subst c.
    apply Hne. by rewrite Hkey, Hkey'.
Qed.

Lemma correlated_run (events : list (Event Payload)) : correlated (run events).
Proof.
  unfold run. induction events as [|e events IH] using rev_ind; [apply correlated_initial |].
  rewrite foldl_app. simpl. destruct e; simpl.
  - by apply correlated_call.
  - by apply correlated_handleResponse.
Qed.

(** However calls and responses interleave, and whatever ids the responses
    carry: no call is resolved twice; a response is handed only to the call
    whose id it spells; ids are taken in order from 1, so a new call never
    takes the slot of a call that still waits. *)
Theorem responses_are_correlated (events : list (Event Payload)) :
  let st := run events in
  NoDup (fst <$> resolved st)
  /\ (forall c message, (c, message) ∈ resolved st ->
        idToString (fst message) = JS.toString c /\ 1 <= c < nextId st)
  /\ (forall k c, pendingRequests st !! k = Some c ->
        k = JS.toString c /\ 1 <= c < nextId st)
  /\ pendingRequests st !! JS.toString (nextId st) = None.
Proof.
  destruct (correlated_run events) as (Hpos & Hnodup & Hres & Hpend).
  split; [exact Hnodup |]. split; [exact Hres |]. split.
  - intros k c Hk. destruct (Hpend _ _ Hk) as (Hkey & Hlt & _). done.
  - destruct (pendingRequests (run events) !! JS.toString (nextId (run events)))
      as [c|] eqn:Hlook; [| done].
    destruct (Hpend _ _ Hlook) as (Hkey & Hlt & _).
    unfold JS.toString in Hkey. apply (inj pretty) in Hkey. lia.
Qed.

End WithPayload.

Section WithDiagnostic.

Context {Diagnostic : Type}.

Lemma published_snoc (ps : list (option (PublishDiagnosticsParams Diagnostic))) p :
  published (ps ++ [p]) = handleDiagnostics p (published ps).
Proof. unfold published. by rewrite foldl_app. Qed.

(** The diagnostics kept for a URI are those of the last
    [publishDiagnostics] notification about it, the empty list when that
    notification carries none or when there was no notification; a
    notification about another URI, or one without a URI, changes nothing
    for it. *)
Theorem getFileDiagnostics_last_published
    (ps : list (option (PublishDiagnosticsParams Diagnostic))) (uri : string) :
  uri <> ""%string ->
  getFileDiagnostics uri (published ps)
  = default [] (last (omap (diagnosticsFor uri) ps)).
Proof.
  intros Hne. induction ps as [|p ps IH] using rev_ind; [reflexivity |].
  rewrite published_snoc, omap_app. simpl.
  unfold handleDiagnostics, diagnosticsFor at 2.
  destruct p as [[[u|] ds]|]; simpl; try (rewrite app_nil_r; exact IH).
  destruct (String.eqb_spec u ""%string) as [-> | Hu].
  - rewrite bool_decide_false by congruence. rewrite app_nil_r. exact IH.
  - destruct (bool_decide_reflect (Some u = Some uri)) as [[= ->] | Hother].
    + rewrite last_snoc. unfold getFileDiagnostics.
      by rewrite lookup_insert, decide_True.
    + rewrite app_nil_r, <- IH. unfold getFileDiagnostics.
      rewrite lookup_insert, decide_False; [done | congruence].
Qed.

End WithDiagnostic.

Lemma getFileDiagnostics_last_published_witness :
  getFileDiagnostics "file:///a.ts"
    (published [Some {| pd_uri := Some "file:///a.ts"%string; pd_diagnostics := Some [1; 2] |};
                Some {| pd_uri := Some "file:///b.ts"%string; pd_diagnostics := Some [3] |};
                Some {| pd_uri := Some "file:///a.ts"%string; pd_diagnostics := None |};
                None])
  = [].
Proof.
  rewrite (getFileDiagnostics_last_published _ "file:///a.ts"); [reflexivity | discriminate].
Defined.

End RequestsFacts.

(** ** Glob patterns and accumulated registrations *)

Module WatcherPatternFacts.
Import Watcher.

Section WithPath.

Variable path_relative : string -> string -> string.
Variable workspacePath : string.

Local Abbreviation matchGlob := (matchGlob path_relative workspacePath).
Local Abbreviation matchesPattern := (matchesPattern path_relative workspacePath).
Local Abbreviation firstMatch := (firstMatch path_relative workspacePath).
Local Abbreviation isPathWatched := (isPathWatched path_relative workspacePath).

(** [matchGlob] knows three pattern shapes and no other: [**/*] matches
    every path; [**/*.ext] and [*.ext] match the paths whose workspace-
    relative form, with forward slashes, ends with [.ext], in whatever
    directory; any other pattern matches nothing. *)
Theorem matchGlob_shapes filePath pattern :
  matchGlob filePath pattern = true
  <-> pattern = "**/*"%string
      \/ exists ext,
           (pattern = "**/*." +:+ ext \/ pattern = "*." +:+ ext)
           /\ exists dir,
                replaceBackslashes (path_relative workspacePath filePath)
                = dir +:+ "." +:+ ext.
Proof.
  unfold Watcher.matchGlob.
  destruct (String.eqb_spec pattern "**/*") as [-> | Hne]; [by split; [left |] |].
  unfold JS.startsWith.
  destruct (String.prefix "**/" pattern) eqn:Hstar.
  - apply StringFacts.prefix_spec in Hstar as [rest ->].
    change (JS.substring_from ("**/" +:+ rest) 3) with rest.
    destruct (String.prefix "*." rest) eqn:Hdot.
    + apply StringFacts.prefix_spec in Hdot as [ext ->].
      change (JS.substring_from ("*." +:+ ext) 1) with ("." +:+ ext).
      rewrite StringFacts.endsWith_spec. split.
      * intros [dir Hdir]. right. exists ext. split; [by left | by exists dir].
      * intros [Heq | (ext' & [Heq | Heq] & dir & Hdir)]; [done | | discriminate].
        cbv beta iota delta [String.append] in Heq. injection Heq as ->. by exists dir.
    + change (String.prefix "*." ("**/" +:+ rest)) with false.
      split; [done |].
      intros [Heq | (ext' & [Heq | Heq] & _)]; [done | | discriminate].
      cbv beta iota delta [String.append] in Heq. injection Heq as ->.
      assert (String.prefix "*." ("*." +:+ ext') = true) as Hyes
        by (apply StringFacts.prefix_spec; by exists ext').
      change (String "*" (String "." ext')) with ("*." +:+ ext') in Hdot.
      congruence.
  - destruct (String.prefix "*." pattern) eqn:Hdot.
    + apply StringFacts.prefix_spec in Hdot as [ext ->].
      change (JS.substring_from ("*." +:+ ext) 1) with ("." +:+ ext).
      rewrite StringFacts.endsWith_spec. split.
      * intros [dir Hdir]. right. exists ext. split; [by right | by exists dir].
      * intros [Heq | (ext' & [Heq | Heq] & dir & Hdir)]; [done | discriminate |].
        cbv beta iota delta [String.append] in Heq. injection Heq as ->. by exists dir.
    + split; [done |].
      intros [Heq | (ext' & [Heq | Heq] & _)]; [done | |]; subst pattern.
      * assert (String.prefix "**/" ("**/*." +:+ ext') = true) as Hyes
          by (apply StringFacts.prefix_spec; by exists ("*." +:+ ext')%string).
        congruence.
      * assert (String.prefix "*." ("*." +:+ ext') = true) as Hyes
          by (apply StringFacts.prefix_spec; by exists ext').
        congruence.
Qed.

Lemma addRegistrations_app registrations watchers :
  addRegistrations registrations watchers = registrations ++ watchers.
Proof.
  revert registrations. induction watchers as [|[g k] watchers IH]; intros registrations.
  - by rewrite app_nil_r.
  - simpl. rewrite IH, <- app_assoc. reflexivity.
Qed.

Lemma firstMatch_app filePath regs more :
  firstMatch filePath (regs ++ more)
  = if fst (firstMatch filePath regs) then firstMatch filePath regs
    else firstMatch filePath more.
Proof.
  induction regs as [|reg regs IH]; simpl; [reflexivity |].
  destruct (matchesPattern filePath (globPattern reg)); [reflexivity | exact IH].
Qed.

(** Registrations only accumulate, and the first one that matches a path
    decides: once there is a registration, adding watchers leaves the
    answer for every path an earlier registration matches as it was, mask
    included, and gives the other paths the answer of the new watchers
    alone. *)
Theorem addRegistrations_first_match_wins registrations watchers filePath :
  registrations <> [] ->
  isPathWatched (addRegistrations registrations watchers) filePath
  = if fst (isPathWatched registrations filePath)
    then isPathWatched registrations filePath
    else firstMatch filePath watchers.
Proof.
  intros Hne. rewrite addRegistrations_app. unfold Watcher.isPathWatched.
  destruct registrations as [|reg regs]; [done |].
  change (length ((reg :: regs) ++ watchers) =? 0)%nat with false.
  change (length (reg :: regs) =? 0)%nat with false.
  cbv iota. apply firstMatch_app.
Qed.

End WithPath.

Lemma addRegistrations_first_match_wins_witness :
  isPathWatched relativeAsIs "" (addRegistrations [tsOnly] [anyFile; sourceFiles]) "src/a.ts"
  = (true, WatchKind_Change).
Proof.
  rewrite (addRegistrations_first_match_wins relativeAsIs "" [tsOnly] [anyFile; sourceFiles]
             "src/a.ts"); [reflexivity | discriminate].
Defined.

End WatcherPatternFacts.

(** ** Lines of a text *)

Module LineFacts.
Import StringFacts.

Lemma includes_LF_cons (c : ascii) (s : string) :
  JS.includes (String c s) JS.LF = Ascii.eqb (ascii_of_nat 10) c || JS.includes s JS.LF.
Proof. by rewrite includes_cons, prefix_LF. Qed.

Lemma includes_LF_app (a b : string) :
  JS.includes (a +:+ b) JS.LF = JS.includes a JS.LF || JS.includes b JS.LF.
Proof.
  induction a as [|c a IH]; [reflexivity |].
  by rewrite app_cons, !includes_LF_cons, IH, orb_assoc.
Qed.

Lemma split_go_sep cur x s :
  JS.split_go JS.LF 0 cur (x +:+ JS.LF +:+ s)
  = JS.split_go JS.LF 0 cur x ++ JS.split_go JS.LF 0 "" s.
Proof.
  revert cur. induction x as [|c x IH]; intros cur.
  - change ("" +:+ JS.LF +:+ s) with (String (ascii_of_nat 10) s).
    cbn [JS.split_go]. rewrite prefix_LF, Ascii.eqb_refl. reflexivity.
  - rewrite app_cons. cbn [JS.split_go]. rewrite !prefix_LF.
    destruct (Ascii.eqb (ascii_of_nat 10) c).
    + change (String.length JS.LF - 1)%nat with 0%nat. by rewrite IH.
    + apply IH.
Qed.

Lemma split_sep x s :
  JS.split (x +:+ JS.LF +:+ s) JS.LF = JS.split x JS.LF ++ JS.split s JS.LF.
Proof. apply split_go_sep. Qed.

Lemma split_go_single cur x :
  JS.includes x JS.LF = false ->
  JS.split_go JS.LF 0 cur x = [JS.rev_str cur +:+ x].
Proof.
  revert cur. induction x as [|c x IH]; intros cur Hx.
  - simpl. by rewrite app_empty_r.
  - rewrite includes_LF_cons in Hx. apply orb_false_iff in Hx as [Hc Hx].
    cbn [JS.split_go]. rewrite prefix_LF, Hc, IH by done.
    by rewrite rev_str_cons, app_assoc_str.
Qed.

Lemma split_single x : JS.includes x JS.LF = false -> JS.split x JS.LF = [x].
Proof. intros Hx. unfold JS.split. by rewrite split_go_single. Qed.

(** The lines of a text hold no line feed. *)
Lemma split_go_lines cur s :
  JS.includes (JS.rev_str cur) JS.LF = false ->
  Forall (fun l => JS.includes l JS.LF = false) (JS.split_go JS.LF 0 cur s).
Proof.
  revert cur. induction s as [|c s IH]; intros cur Hcur.
  - by constructor.
  - cbn [JS.split_go]. rewrite prefix_LF.
    destruct (Ascii.eqb (ascii_of_nat 10) c) eqn:Hc.
    + constructor; [exact Hcur |]. apply IH. reflexivity.
    + apply IH. rewrite rev_str_cons, includes_LF_app, Hcur, includes_LF_cons, Hc.
      reflexivity.
Qed.

Lemma split_lines s : Forall (fun l => JS.includes l JS.LF = false) (JS.split s JS.LF).
Proof. apply split_go_lines. reflexivity. Qed.

(** Joining pieces and splitting again gives the lines of the pieces. *)
Lemma split_join_pieces (ls : list string) :
  ls <> [] ->
  JS.split (JS.join JS.LF ls) JS.LF = ls ≫= (fun l => JS.split l JS.LF).
Proof.
  induction ls as [|x ls IH]; intros Hne; [done |].
  destruct ls as [|y ls].
  - simpl. by rewrite app_nil_r.
  - rewrite join_cons by done. rewrite split_sep, IH by done. reflexivity.
Qed.

Lemma bind_single_lines (ls : list string) :
  Forall (fun l => JS.includes l JS.LF = false) ls ->
  ls ≫= (fun l => JS.split l JS.LF) = ls.
Proof.
  induction 1 as [|x ls Hx _ IH]; [reflexivity |].
  cbn [mbind list_bind]. rewrite IH. simpl. by rewrite split_single.
Qed.

Lemma split_join (ls : list string) :
  ls <> [] ->
  Forall (fun l => JS.includes l JS.LF = false) ls ->
  JS.split (JS.join JS.LF ls) JS.LF = ls.
Proof. intros Hne Hls. by rewrite split_join_pieces, bind_single_lines. Qed.

Lemma allDigits_single s : Transport.allDigits s = true -> JS.includes s JS.LF = false.
Proof.
  induction s as [|c s IH]; [reflexivity |].
  intros Hs. cbn [Transport.allDigits] in Hs. apply andb_true_iff in Hs as [Hc Hs].
  rewrite includes_LF_cons, IH by done.
  unfold JS.isDigit in Hc. apply andb_true_iff in Hc as [Hlo _].
  apply Nat.leb_le in Hlo. rewrite orb_false_r. apply Ascii.eqb_neq. intros <-.
  vm_compute in Hlo. lia.
Qed.

Lemma toString_single (n : Z) : JS.includes (JS.toString n) JS.LF = false.
Proof.
  assert (Hpos : forall m, 0 <= m -> JS.includes (JS.toString m) JS.LF = false).
  { intros m Hm. destruct (TransportFacts.toString_digits m Hm) as (c & ds & k & -> & Hds & _).
    by apply allDigits_single. }
  destruct n as [|p|p]; [by apply Hpos | by apply Hpos |].
  change (JS.toString (Z.neg p)) with ("-" +:+ JS.toString (Z.pos p)).
  rewrite includes_LF_app, Hpos by lia. reflexivity.
Qed.

Lemma padStart_single n s :
  JS.includes s JS.LF = false -> JS.includes (JS.padStart n s) JS.LF = false.
Proof.
  intros Hs. unfold JS.padStart. rewrite includes_LF_app, Hs, orb_false_r.
  induction (n - String.length s)%nat as [|k IH]; [reflexivity |].
  simpl. destruct (replicate k " "%string) as [|y ys] eqn:Hrep; [reflexivity |].
  rewrite !includes_LF_app, IH. reflexivity.
Qed.

End LineFacts.

(** ** Numbered text *)

Module NumberingFacts.
Import Utilities StringFacts LineFacts.

Lemma gutter_single lineNum text :
  JS.includes text JS.LF = false -> JS.includes (gutter lineNum text) JS.LF = false.
Proof.
  intros Htext. unfold gutter.
  rewrite !includes_LF_app, Htext, padStart_single by apply toString_single.
  reflexivity.
Qed.

Lemma Forall_imap {A B} (P : B -> Prop) (l : list A) : forall (f : nat -> A -> B),
  (forall i x, l !! i = Some x -> P (f i x)) -> Forall P (imap f l).
Proof.
  induction l as [|x l IH]; intros f Hf; [constructor |].
  simpl. constructor; [by apply (Hf 0%nat) |].
  apply IH. intros i y Hy. by apply (Hf (S i)).
Qed.

(** [addLineNumbers] gives one output line per line of the text, in order,
    each made of the line's number (counted from [startLine]), the bar and
    the line itself: splitting the result at line feeds gives back the
    lines of the text behind their gutters, neither more nor fewer. *)
Theorem addLineNumbers_lines (text : string) (startLine : Z) :
  JS.split (addLineNumbers text startLine) JS.LF
  = imap (fun i ln => gutter (startLine + Z.of_nat i) ln) (JS.split text JS.LF).
Proof.
  unfold addLineNumbers. apply split_join.
  - pose proof (split_nonempty text JS.LF) as Hne.
    destruct (JS.split text JS.LF); [done | discriminate].
  - apply Forall_imap. intros i ln Hln. apply gutter_single.
    pose proof (split_lines text) as Hall. rewrite Forall_forall in Hall.
    apply Hall. by eapply list_elem_of_lookup_2.
Qed.

End NumberingFacts.

(** ** Line edits and workspace edits on a file *)

Module EditLinesFacts.
Import WorkspaceEdit EditTool StringFacts LineFacts.

(** An empty list of edits writes the file back as it was. *)
Lemma applyFileEdits_no_edits (content : string) :
  applyFileEdits content [] = Ok content.
Proof. unfold applyFileEdits. simpl. by rewrite join_split. Qed.

(** A workspace edit whose entries carry no text edit, for files that
    exist, leaves every file as it was. *)
Lemma applyWorkspaceEdit_without_edits uriToPath changes (fs : gmap string string) :
  Forall (fun change => snd change = [] /\ is_Some (fs !! uriToPath (fst change))) changes ->
  applyWorkspaceEdit uriToPath changes fs = (Ok tt, fs).
Proof.
  induction 1 as [|[u edits] changes [Hedits [content Hfile]] _ IH]; [reflexivity |].
  simpl in *. subst edits. rewrite Hfile, applyFileEdits_no_edits.
  by rewrite insert_id.
Qed.

Lemma applyEdit_missing_line lines edit :
  Z.of_nat (length lines) <= line (start (edit_range edit)) ->
  applyEdit lines edit = Throw undefinedLine.
Proof.
  intros Hlen. unfold applyEdit.
  assert (Hnone : JS.index lines (line (start (edit_range edit))) = None).
  { unfold JS.index. destruct (Z.ltb_spec (line (start (edit_range edit))) 0); [done |].
    apply lookup_ge_None. lia. }
  rewrite Hnone. by destruct (_ =? _).
Qed.

(** An edit that starts on a line the file does not have makes the whole
    batch fail with a [TypeError], whatever the other edits are: the edits
    are applied from the bottom up, so the lowest one is tried first and no
    line is ever added to reach it. *)
Theorem applyFileEdits_start_past_last_line content edits edit :
  edit ∈ edits ->
  Z.of_nat (length (JS.split content JS.LF)) <= line (start (edit_range edit)) ->
  applyFileEdits content edits = Throw undefinedLine.
Proof.
  intros Hin Hlen. unfold applyFileEdits.
  pose proof (WorkspaceEditFacts.sort_sorted edits) as Hsorted.
  assert (Hin' : edit ∈ JS.sort compareEdits edits)
    by (by rewrite WorkspaceEditFacts.sort_Permutation).
  destruct (JS.sort compareEdits edits) as [|first rest]; [by apply elem_of_nil in Hin' |].
  simpl. rewrite applyEdit_missing_line; [reflexivity |].
  apply elem_of_cons in Hin' as [<- | Hrest]; [exact Hlen |].
  apply StronglySorted_inv in Hsorted as [_ Hall]. rewrite Forall_forall in Hall.
  specialize (Hall _ Hrest). apply WorkspaceEditFacts.descends_iff in Hall.
  unfold startOf in Hall. lia.
Qed.

Lemma applyFileEdits_start_past_last_line_witness :
  applyFileEdits scenarioContent [editXYZ; mkEdit 4 0 4 0 "new"] = Throw undefinedLine.
Proof.
  apply (applyFileEdits_start_past_last_line scenarioContent
           [editXYZ; mkEdit 4 0 4 0 "new"] (mkEdit 4 0 4 0 "new")).
  - apply elem_of_cons. right. apply elem_of_cons. by left.
  - vm_compute. discriminate.
Defined.

(** [applyWorkspaceEdit] stops at the first file it cannot read or edit:
    the files before it stay rewritten, that file and the ones after it are
    left as they were. *)
Theorem applyWorkspaceEdit_stops_at_first_failure uriToPath done uri edits rest fs :
  fst (applyWorkspaceEdit uriToPath done fs) = Ok tt ->
  let fs1 := snd (applyWorkspaceEdit uriToPath done fs) in
  (fs1 !! uriToPath uri = None
   \/ exists content msg,
        fs1 !! uriToPath uri = Some content /\ applyFileEdits content edits = Throw msg) ->
  exists msg,
    applyWorkspaceEdit uriToPath (done ++ (uri, edits) :: rest) fs = (Throw msg, fs1).
Proof.
  revert fs. induction done as [|[u es] done IH]; intros fs Hok fs1 Hfail; subst fs1.
  - simpl in *. destruct Hfail as [-> | (content & msg & -> & ->)]; by eexists.
  - simpl in *. destruct (fs !! uriToPath u) as [content|]; [| discriminate].
    destruct (applyFileEdits content es) as [content'|]; [| discriminate].
    by apply IH.
Qed.

Lemma applyWorkspaceEdit_stops_at_first_failure_witness :
  exists msg,
    applyWorkspaceEdit id
      ([("a", [insertA])] ++ ("missing", [insertB]) :: [("b", [insertB])])
      {[ "a"%string := "x"%string; "b"%string := "y"%string ]}
    = (Throw msg, snd (applyWorkspaceEdit id [("a"%string, [insertA])]
                         {[ "a"%string := "x"%string; "b"%string := "y"%string ]})).
Proof.
  apply (applyWorkspaceEdit_stops_at_first_failure id [("a"%string, [insertA])]
           "missing" [insertB] [("b"%string, [insertB])]
           {[ "a"%string := "x"%string; "b"%string := "y"%string ]}).
  - vm_compute. reflexivity.
  - left. vm_compute. reflexivity.
Defined.

Lemma whole_line_text (first last text : string) :
  JS.substring_to first 0 +:+ text +:+ JS.substring_from last (JS.strlen last) = text.
Proof.
  unfold JS.substring_to, JS.substring_from, JS.strlen.
  rewrite Nat2Z.id, drop_str_length. change (Z.to_nat 0) with 0%nat.
  destruct first; simpl; by rewrite app_empty_r.
Qed.

(** An edit that covers the lines [a..b] from the first column of [a] to
    the end of [b] puts the new text in their place. *)
Lemma applyEdit_whole_lines lines (a b : nat) last text :
  (a <= b)%nat ->
  lines !! b = Some last ->
  applyEdit lines (mkEdit (Z.of_nat a) 0 (Z.of_nat b) (JS.strlen last) text)
  = Ok (take a lines ++ [text] ++ drop (S b) lines).
Proof.
  intros Hab Hlast.
  assert (Hblen : (b < length lines)%nat) by (by eapply lookup_lt_Some).
  assert (Hidx : forall n : nat, JS.index lines (Z.of_nat n) = lines !! n).
  { intros n. unfold JS.index. destruct (Z.ltb_spec (Z.of_nat n) 0); [lia |].
    by rewrite Nat2Z.id. }
  unfold applyEdit, mkEdit. simpl.
  destruct (Z.eqb_spec (Z.of_nat a) (Z.of_nat b)) as [Heq | Hne].
  - apply Nat2Z.inj in Heq. subst b. rewrite Hidx, Hlast, whole_line_text, Nat2Z.id.
    f_equal. by apply insert_take_drop.
  - destruct (lookup_lt_is_Some_2 lines a) as [first Hfirst]; [lia |].
    rewrite !Hidx, Hfirst, Hlast, whole_line_text. f_equal.
    unfold JS.splice, JS.clampIndex.
    destruct (Z.ltb_spec (Z.of_nat a) 0); [lia |].
    replace (Z.to_nat (Z.min (Z.of_nat a) (Z.of_nat (length lines)))) with a by lia.
    replace (Z.to_nat _) with (S b) by lia. reflexivity.
Qed.

Lemma lineEnding_LF content :
  JS.includes content JS.CRLF = false -> lineEnding content = JS.LF.
Proof. intros H. unfold lineEnding. by rewrite H. Qed.

Lemma lineRange_in_range content (s e : Z) :
  JS.includes content JS.CRLF = false ->
  let lines := JS.split content JS.LF in
  1 <= s <= e ->
  s <= Z.of_nat (length lines) ->
  exists last,
    lines !! (Z.to_nat (Z.min e (Z.of_nat (length lines))) - 1)%nat = Some last
    /\ lineRange content s e
       = Ok (edit_range
               (mkEdit (Z.of_nat (Z.to_nat s - 1)) 0
                  (Z.of_nat (Z.to_nat (Z.min e (Z.of_nat (length lines))) - 1))
                  (JS.strlen last) "")).
Proof.
  intros Hlf lines Hse Hlen. subst lines.
  set (lines := JS.split content JS.LF) in *.
  destruct (lookup_lt_is_Some_2 lines (Z.to_nat (Z.min e (Z.of_nat (length lines))) - 1))
    as [last Hlast]; [lia |].
  exists last. split; [exact Hlast |].
  unfold lineRange. rewrite lineEnding_LF by done. fold lines.
  destruct (Z.ltb_spec s 1); [lia |].
  destruct (Z.leb_spec (Z.of_nat (length lines)) (s - 1)); [lia |].
  unfold mkEdit. simpl. unfold lengthOrZero, JS.index.
  destruct (Z.leb_spec (Z.of_nat (length lines)) (e - 1)) as [Hbig | Hsmall].
  - destruct (Z.ltb_spec (Z.of_nat (length lines) - 1) 0); [lia |].
    replace (Z.to_nat (Z.of_nat (length lines) - 1))
      with (Z.to_nat (Z.min e (Z.of_nat (length lines))) - 1)%nat by lia.
    rewrite Hlast. simpl. repeat f_equal; lia.
  - destruct (Z.ltb_spec (e - 1) 0); [lia |].
    replace (Z.to_nat (e - 1))
      with (Z.to_nat (Z.min e (Z.of_nat (length lines))) - 1)%nat by lia.
    rewrite Hlast. simpl. repeat f_equal; lia.
Qed.

(** What the tool writes for a file that reads as [content]: the ranges,
    then the edits applied to the content. *)
Local Abbreviation edited disk filePath content edits :=
  (lspEdits <-! toLspEdits disk filePath
                  (JS.sort (fun a b : LineEdit => startLine b - startLine a) edits) ;;
   applyFileEdits content lspEdits).

(** The lines written back for one edit of the lines [s..e]. *)
Lemma edited_one_edit (disk : gmap string string) filePath content (s e : Z) (text : string) :
  disk !! filePath = Some content ->
  JS.includes content JS.CRLF = false ->
  let lines := JS.split content JS.LF in
  1 <= s <= e ->
  s <= Z.of_nat (length lines) ->
  edited disk filePath content [lineEdit s e text]
  = Ok (JS.join JS.LF (take (Z.to_nat (s - 1)) lines ++ [text] ++ drop (Z.to_nat e) lines)).
Proof.
  intros Hfile Hlf lines Hse Hlen.
  destruct (lineRange_in_range content s e Hlf Hse Hlen) as (last & Hlast & Hrange).
  fold lines in Hlast, Hrange.
  unfold JS.sort. simpl.
  rewrite (EditToolFacts.getRange_read _ _ _ _ _ Hfile), Hrange. simpl.
  unfold applyFileEdits, JS.sort. simpl. fold lines.
  pose proof (applyEdit_whole_lines lines (Z.to_nat s - 1)
                (Z.to_nat (Z.min e (Z.of_nat (length lines))) - 1) last text) as Happly.
  unfold mkEdit in Happly. rewrite Happly; [| lia | exact Hlast]. simpl.
  f_equal. replace (Z.to_nat s - 1)%nat with (Z.to_nat (s - 1)) by lia.
  do 2 f_equal.
  destruct (Z.le_gt_cases e (Z.of_nat (length lines))).
  - repeat f_equal; lia.
  - rewrite !drop_ge by lia. reflexivity.
Qed.

Section WithClient.

Variable pathToUri : string -> string.
Variable detectLanguageId : string -> string.
Variable stdinWritable : bool.

Local Abbreviation openFile := (EditTool.openFile pathToUri detectLanguageId stdinWritable).
Local Abbreviation applyTextEdits :=
  (EditTool.applyTextEdits pathToUri detectLanguageId stdinWritable).

(** The file opens, its path comes back from its URI, and it has
    line-feed endings.  One edit of the lines [s..e] (1-based, both ends
    included, [e] cut down to the last line) then succeeds and replaces
    exactly those lines by the new text in that file: the lines before
    [s] and after [e] are written back unchanged, and the text comes
    between them as it is given, line feeds included.  No other file is
    touched. *)
Theorem applyTextEdits_replaces_lines filePath env content (s e : Z) (text : string) :
  fst (openFile filePath env) = Ok tt ->
  uriPath (pathToUri filePath) = filePath ->
  disk env !! filePath = Some content ->
  JS.includes content JS.CRLF = false ->
  let lines := JS.split content JS.LF in
  1 <= s <= e ->
  s <= Z.of_nat (length lines) ->
  exists content',
    applyTextEdits filePath [lineEdit s e text] env
    = (Ok (report [lineEdit s e text]),
       {| disk := <[filePath := content']> (disk env);
          client := snd (openFile filePath env) |})
    /\ JS.split content' JS.LF
       = take (Z.to_nat (s - 1)) lines ++ JS.split text JS.LF ++ drop (Z.to_nat e) lines.
Proof.
  intros Hopen Hpath Hfile Hlf lines Hse Hlen.
  eexists. split.
  - rewrite (EditToolFacts.applyTextEdits_opened _ _ _ _ _ _ _ Hopen Hpath Hfile).
    by rewrite (edited_one_edit _ _ _ s e text Hfile Hlf Hse Hlen).
  - fold lines.
    rewrite split_join_pieces by (by destruct (take _ _)).
    rewrite !bind_app, bind_cons.
    change ([] ≫= (fun l : string => JS.split l JS.LF)) with (@nil string).
    rewrite app_nil_r.
    rewrite !bind_single_lines; [reflexivity | |].
    + apply Forall_drop, split_lines.
    + apply Forall_take, split_lines.
Qed.

(** The report agrees with the file for a single edit of existing lines
    whose text is not empty, on a file that opens, whose path comes back
    from its URI and that has line-feed endings: the file ends up with as
    many lines as it had, less the count reported as removed, plus the
    count reported as added.  With an empty text the report says that
    nothing was added, yet the lines are replaced by one empty line. *)
Theorem applyTextEdits_line_counts filePath env content (s e : Z) (text : string) :
  fst (openFile filePath env) = Ok tt ->
  uriPath (pathToUri filePath) = filePath ->
  disk env !! filePath = Some content ->
  JS.includes content JS.CRLF = false ->
  1 <= s <= e ->
  e <= lineCount content ->
  exists content',
    applyTextEdits filePath [lineEdit s e text] env
    = (Ok (report [lineEdit s e text]),
       {| disk := <[filePath := content']> (disk env);
          client := snd (openFile filePath env) |})
    /\ let '(linesRemoved, linesAdded) := reportCounts [lineEdit s e text] in
       lineCount content'
       = lineCount content - linesRemoved
         + (if String.eqb text "" then 1 else linesAdded).
Proof.
  intros Hopen Hpath Hfile Hlf Hse He. unfold lineCount in He.
  eexists. split.
  - rewrite (EditToolFacts.applyTextEdits_opened _ _ _ _ _ _ _ Hopen Hpath Hfile).
    rewrite (edited_one_edit _ _ _ s e text Hfile Hlf Hse) by lia. reflexivity.
  - unfold reportCounts, JS.sort. simpl. unfold lineCount.
    rewrite split_join_pieces by (by destruct (take _ _)).
    rewrite bind_app, bind_cons.
    rewrite !bind_single_lines.
    2: { apply Forall_drop, split_lines. }
    2: { apply Forall_take, split_lines. }
    rewrite !length_app, length_take, length_drop.
    destruct (String.eqb_spec text "") as [-> | Hne]; simpl; lia.
Qed.

End WithClient.

Lemma applyTextEdits_replaces_lines_witness :
  exists content',
    sampleApply "/count.txt" [lineEdit 2 3 "2+3"] (oneFile "/count.txt" fiveLines)
    = (Ok "Successfully applied text edits. 2 lines removed, 1 lines added."%string,
       {| disk := {[ "/count.txt"%string := content' ]};
          client := snd (EditTool.openFile Client.fileUri (fun _ => "plaintext"%string) true
                           "/count.txt" (oneFile "/count.txt" fiveLines)) |})
    /\ JS.split content' JS.LF = ["one"; "2+3"; "four"; "five"]%string.
Proof.
  destruct (applyTextEdits_replaces_lines Client.fileUri (fun _ => "plaintext"%string) true
              "/count.txt" (oneFile "/count.txt" fiveLines) fiveLines 2 3 "2+3")
    as (content' & Happly & Hlines);
    [vm_compute; reflexivity | reflexivity | vm_compute; reflexivity
     | vm_compute; reflexivity | lia | vm_compute; discriminate |].
  exists content'. split; [| rewrite Hlines; reflexivity].
  unfold sampleApply. rewrite Happly.
  unfold oneFile. cbn [disk]. rewrite insert_singleton_eq. reflexivity.
Defined.

Lemma applyTextEdits_line_counts_witness :
  exists content',
    disk (snd (sampleApply "/count.txt" [lineEdit 2 3 "2+3"] (oneFile "/count.txt" fiveLines)))
    = {[ "/count.txt"%string := content' ]}
    /\ lineCount content' = 4.
Proof.
  destruct (applyTextEdits_line_counts Client.fileUri (fun _ => "plaintext"%string) true
              "/count.txt" (oneFile "/count.txt" fiveLines) fiveLines 2 3 "2+3")
    as (content' & Happly & Hcount);
    [vm_compute; reflexivity | reflexivity | vm_compute; reflexivity
     | vm_compute; reflexivity | lia | vm_compute; discriminate |].
  exists content'. split; [| rewrite Hcount; reflexivity].
  unfold sampleApply. rewrite Happly. cbn [snd disk].
  unfold oneFile. cbn [disk]. apply insert_singleton_eq.
Defined.

End EditLinesFacts.

(** ** The range returned by getFullDefinition *)

Module DefinitionRangeFacts.
Import Utilities UtilitiesSpec.

Lemma index_nat {A} (l : list A) (n : nat) : JS.index l (Z.of_nat n) = l !! n.
Proof.
  unfold JS.index. destruct (Z.ltb_spec (Z.of_nat n) 0); [lia |]. by rewrite Nat2Z.id.
Qed.

Lemma expandUp_block lines n k :
  expandUp lines n = Ok k ->
  (k <= n)%nat
  /\ (forall i, (k <= i < n)%nat -> commentLike lines (Z.of_nat i))
  /\ ((0 < k)%nat -> notCommentLike lines (Z.of_nat (k - 1))).
Proof.
  revert k. induction n as [|n IH]; intros k Hk; simpl in Hk.
  - injection Hk as <-. split; [lia |]. split; intros; lia.
  - destruct (lines !! n) as [prev|] eqn:Hprev; [| discriminate].
    destruct (isCommentStart (JS.trim prev)) eqn:Hcomment.
    + destruct (IH k Hk) as (Hle & Hblock & Habove).
      split; [lia |]. split; [| exact Habove].
      intros i Hi. destruct (decide (i = n)) as [-> | Hne].
      * exists prev. by rewrite index_nat.
      * apply Hblock. lia.
    + injection Hk as <-. split; [lia |]. split; [intros; lia |].
      intros _. exists prev. replace (S n - 1)%nat with n by lia. by rewrite index_nat.
Qed.

(** When [getFullDefinition] returns, the range it reports keeps the URI,
    starts in column 0 at the top of the unbroken block of comment-like
    lines that stands directly above the reported start line (lines that,
    trimmed, begin with [//], [/*], [*], [#] or [@]), and never ends below
    the reported end line; the text is that of the lines of the range. *)
Theorem getFullDefinition_range content location text location' :
  getFullDefinition content location = Ok (text, location') ->
  let lines := JS.split content JS.LF in
  let s0 := line (start (range location)) in
  let s := line (start (range location')) in
  let e := line (end_ (range location')) in
  uri location' = uri location
  /\ character (start (range location')) = 0
  /\ (if 0 <? s0 then 0 <= s <= s0 else s = s0)
  /\ (forall i, s <= i < s0 -> commentLike lines i)
  /\ (0 < s -> 0 < s0 -> notCommentLike lines (s - 1))
  /\ e <= line (end_ (range location))
  /\ text = JS.join JS.LF (JS.slice lines s (e + 1)).
Proof.
  intros Hres lines s0 s e.
  pose proof (UtilitiesFacts.getFullDefinition_end_not_extended _ _ _ _ Hres) as Hend.
  unfold getFullDefinition in Hres. fold lines s0 in Hres.
  destruct (expandUpFrom lines s0) as [startLine|] eqn:Hup; simpl in Hres; [| discriminate].
  destruct (expandDown _ _ _ _ _) as [endLine|]; simpl in Hres; [| discriminate].
  injection Hres as Htext Hloc. subst e s. rewrite <- Hloc. simpl.
  split; [reflexivity |]. split; [reflexivity |].
  assert (Hstart :
    (if 0 <? s0 then 0 <= startLine <= s0 else startLine = s0)
    /\ (forall i, startLine <= i < s0 -> commentLike lines i)
    /\ (0 < startLine -> 0 < s0 -> notCommentLike lines (startLine - 1))).
  { unfold expandUpFrom in Hup. destruct (Z.ltb_spec 0 s0) as [Hpos | Hnonpos].
    - destruct (expandUp lines (Z.to_nat s0)) as [k|] eqn:Hk; simpl in Hup; [| discriminate].
      injection Hup as <-. destruct (expandUp_block _ _ _ Hk) as (Hle & Hblock & Habove).
      split; [lia |]. split.
      + intros i Hi. replace i with (Z.of_nat (Z.to_nat i)) by lia. apply Hblock. lia.
      + intros Hk0 _. replace (Z.of_nat k - 1) with (Z.of_nat (k - 1)) by lia.
        apply Habove. lia.
    - injection Hup as <-. split; [reflexivity |]. split; intros; lia. }
  destruct Hstart as (H1 & H2 & H3).
  split; [exact H1 |]. split; [exact H2 |]. split; [exact H3 |].
  split; [| by rewrite <- Htext].
  rewrite <- Hloc in Hend. exact Hend.
Qed.

Lemma getFullDefinition_range_witness :
  commentLike (JS.split docFunctionFile JS.LF) 0.
Proof.
  assert (Hres : getFullDefinition docFunctionFile reportedRange
                 = Ok ("// doc
function f() {"%string,
                       {| uri := "file:///f.ts";
                          range := {| start := {| line := 0; character := 0 |};
                                      end_ := {| line := 1; character := 14 |} |} |}))
    by (vm_compute; reflexivity).
  destruct (getFullDefinition_range _ _ _ _ Hres) as (_ & _ & _ & Hblock & _).
  apply Hblock. simpl. lia.
Defined.

(** A reported start line more than one past the last line of the file
    makes [getFullDefinition] throw a [TypeError]: it reads the line above
    the start without checking that the file has it. *)
Theorem getFullDefinition_start_past_file content location :
  Z.of_nat (length (JS.split content JS.LF)) < line (start (range location)) ->
  getFullDefinition content location
  = Throw "TypeError: cannot read properties of undefined (reading 'trim')".
Proof.
  intros Hpast. unfold getFullDefinition, expandUpFrom.
  destruct (Z.ltb_spec 0 (line (start (range location)))) as [Hpos | Hnonpos]; [| lia].
  destruct (Z.to_nat (line (start (range location)))) as [|n] eqn:Hn; [lia |].
  simpl. rewrite (proj2 (lookup_ge_None _ _)) by lia. reflexivity.
Qed.

Lemma getFullDefinition_start_past_file_witness :
  getFullDefinition docFunctionFile (locationAt "file:///f.ts" 6 6)
  = Throw "TypeError: cannot read properties of undefined (reading 'trim')".
Proof.
  apply (getFullDefinition_start_past_file docFunctionFile (locationAt "file:///f.ts" 6 6)).
  vm_compute. reflexivity.
Defined.

End DefinitionRangeFacts.

(** ** Splitting at one character *)

Module SplitFacts.
Import StringFacts.

Section WithSeparator.

Variable d : ascii.

Local Abbreviation sep := (String d EmptyString).

Lemma prefix_char (c : ascii) (s : string) :
  String.prefix sep (String c s) = Ascii.eqb d c.
Proof.
  cbn [String.prefix]. destruct (ascii_dec d c) as [<- | Hne].
  - rewrite Ascii.eqb_refl. by destruct s.
  - symmetry. by apply Ascii.eqb_neq.
Qed.

Lemma includes_char_cons (c : ascii) (s : string) :
  JS.includes (String c s) sep = Ascii.eqb d c || JS.includes s sep.
Proof. by rewrite includes_cons, prefix_char. Qed.

Lemma split_go_at cur x s :
  JS.split_go sep 0 cur (x +:+ sep +:+ s)
  = JS.split_go sep 0 cur x ++ JS.split_go sep 0 "" s.
Proof.
  revert cur. induction x as [|c x IH]; intros cur.
  - change ("" +:+ sep +:+ s) with (String d s).
    cbn [JS.split_go]. rewrite prefix_char, Ascii.eqb_refl. reflexivity.
  - rewrite app_cons. cbn [JS.split_go]. rewrite !prefix_char.
    destruct (Ascii.eqb d c).
    + change (String.length sep - 1)%nat with 0%nat. by rewrite IH.
    + apply IH.
Qed.

Lemma split_go_whole cur x :
  JS.includes x sep = false ->
  JS.split_go sep 0 cur x = [JS.rev_str cur +:+ x].
Proof.
  revert cur. induction x as [|c x IH]; intros cur Hx.
  - simpl. by rewrite app_empty_r.
  - rewrite includes_char_cons in Hx. apply orb_false_iff in Hx as [Hc Hx].
    cbn [JS.split_go]. rewrite prefix_char, Hc, IH by done.
    by rewrite rev_str_cons, app_assoc_str.
Qed.

(** The last piece of a split is what follows the last separator. *)
Lemma split_last a m :
  JS.includes m sep = false ->
  last (JS.split (a +:+ sep +:+ m) sep) = Some m.
Proof.
  intros Hm. unfold JS.split. rewrite split_go_at, (split_go_whole "" m) by done.
  by rewrite last_snoc.
Qed.

Lemma includes_char_app (a b : string) :
  JS.includes (a +:+ b) sep = JS.includes a sep || JS.includes b sep.
Proof.
  induction a as [|c a IH]; [reflexivity |].
  by rewrite app_cons, !includes_char_cons, IH, orb_assoc.
Qed.

(** Two texts cut at their first separator are equal only piece by
    piece. *)
Lemma app_sep_inj (a b a' b' : string) :
  JS.includes a sep = false ->
  JS.includes a' sep = false ->
  a +:+ sep +:+ b = a' +:+ sep +:+ b' ->
  a = a' /\ b = b'.
Proof.
  revert a'. induction a as [|c a IH]; intros [|c' a'] Ha Ha' Heq.
  - change (String d b = String d b') in Heq. by injection Heq.
  - change (String d b = String c' (a' +:+ sep +:+ b')) in Heq. injection Heq as <- _.
    rewrite includes_char_cons, Ascii.eqb_refl in Ha'. discriminate.
  - change (String c (a +:+ sep +:+ b) = String d b') in Heq. injection Heq as -> _.
    rewrite includes_char_cons, Ascii.eqb_refl in Ha. discriminate.
  - rewrite !app_cons in Heq. injection Heq as -> Heq.
    rewrite includes_char_cons in Ha, Ha'.
    apply orb_false_iff in Ha as [_ Ha]. apply orb_false_iff in Ha' as [_ Ha'].
    destruct (IH a' Ha Ha' Heq) as [-> ->]. done.
Qed.

Lemma allDigits_no_char (s : string) :
  JS.isDigit d = false -> Transport.allDigits s = true -> JS.includes s sep = false.
Proof.
  intros Hd. induction s as [|c s IH]; [reflexivity |].
  intros Hs. cbn [Transport.allDigits] in Hs. apply andb_true_iff in Hs as [Hc Hs].
  rewrite includes_char_cons, IH by done. rewrite orb_false_r.
  apply Ascii.eqb_neq. intros <-. congruence.
Qed.

Lemma toString_no_char (n : Z) :
  JS.isDigit d = false -> d <> "-"%char -> JS.includes (JS.toString n) sep = false.
Proof.
  intros Hd Hminus.
  assert (Hpos : forall m, 0 <= m -> JS.includes (JS.toString m) sep = false).
  { intros m Hm. destruct (TransportFacts.toString_digits m Hm) as (c & ds & k & -> & Hds & _).
    by apply allDigits_no_char. }
  destruct n as [|p|p]; [by apply Hpos | by apply Hpos |].
  change (JS.toString (Z.neg p)) with ("-" +:+ JS.toString (Z.pos p)).
  rewrite includes_char_app, Hpos by lia. rewrite orb_false_r.
  rewrite includes_char_cons. change (JS.includes "" sep) with false.
  rewrite orb_false_r. by apply Ascii.eqb_neq.
Qed.

End WithSeparator.

Lemma index_last_element {A} (l : list A) : JS.index l (Z.of_nat (length l) - 1) = last l.
Proof.
  unfold JS.index. destruct l as [|x l] using rev_ind; [reflexivity |].
  rewrite length_app, last_snoc. simpl.
  destruct (Z.ltb_spec (Z.of_nat (length l + 1) - 1) 0); [lia |].
  replace (Z.to_nat (Z.of_nat (length l + 1) - 1)) with (length l) by lia.
  by rewrite lookup_app_r, Nat.sub_diag by lia.
Qed.

End SplitFacts.

(** ** The match policy of the references tool *)

Module ReferencesToolFacts.
Import Types ReferencesTool.

(** A symbol is taken by the references tool: for a query with a dot, iff
    its name is the query or what follows the query's last dot; for a query
    without a dot, iff its name is the query, whatever its kind.  So for a
    dotted query every symbol the definition tool accepts is accepted here
    too, and for a query without a dot every symbol accepted here is
    accepted by the definition tool. *)
Theorem findReferences_match_policy :
  (forall container method rawSymbol,
      JS.includes method "." = false ->
      let symbolName := container +:+ "." +:+ method in
      ReferencesTool.accepted symbolName rawSymbol = true
      <-> getName (wrapSymbol rawSymbol) = symbolName
          \/ getName (wrapSymbol rawSymbol) = method)
  /\ (forall symbolName rawSymbol,
        JS.includes symbolName "." = false ->
        (ReferencesTool.accepted symbolName rawSymbol = true
         <-> getName (wrapSymbol rawSymbol) = symbolName))
  /\ (forall symbolName rawSymbol,
        JS.includes symbolName "." = true ->
        DefinitionTool.accepted symbolName rawSymbol = true ->
        ReferencesTool.accepted symbolName rawSymbol = true)
  /\ (forall symbolName rawSymbol,
        JS.includes symbolName "." = false ->
        ReferencesTool.accepted symbolName rawSymbol = true ->
        DefinitionTool.accepted symbolName rawSymbol = true).
Proof.
  split; [| split; [| split]].
  - intros container method rawSymbol Hmethod symbolName.
    unfold ReferencesTool.accepted, ReferencesTool.skipped.
    assert (Hdot : JS.includes symbolName "." = true).
    { apply StringFacts.includes_spec. by exists container, method. }
    rewrite Hdot, SplitFacts.index_last_element. subst symbolName.
    rewrite (SplitFacts.split_last "." container method Hmethod).
    destruct (String.eqb_spec (getName (wrapSymbol rawSymbol))
                (container +:+ "." +:+ method)) as [Heq | Hne]; simpl.
    + split; [by left | done].
    + destruct (bool_decide_reflect (Some (getName (wrapSymbol rawSymbol)) = Some method))
        as [Hm | Hm]; simpl.
      * split; [| done]. intros _. right. congruence.
      * split; [done |]. intros [Heq | Heq]; [done | congruence].
  - intros symbolName rawSymbol Hdot.
    unfold ReferencesTool.accepted, ReferencesTool.skipped. rewrite Hdot.
    rewrite negb_involutive. apply String.eqb_eq.
  - intros symbolName rawSymbol Hdot.
    unfold ReferencesTool.accepted, ReferencesTool.skipped,
      DefinitionTool.accepted, DefinitionTool.skipped.
    rewrite Hdot. by destruct (String.eqb _ _).
  - intros symbolName rawSymbol Hdot.
    unfold ReferencesTool.accepted, ReferencesTool.skipped,
      DefinitionTool.accepted, DefinitionTool.skipped.
    rewrite Hdot. destruct (String.eqb _ _); [| done].
    intros _. destruct (bool_decide _); [| done]. by rewrite !andb_false_r.
Qed.

Lemma findReferences_match_policy_witness :
  ReferencesTool.accepted "Bar.Foo" (DefinitionTool.methodNamed "Foo") = true.
Proof.
  apply (proj1 findReferences_match_policy "Bar" "Foo" (DefinitionTool.methodNamed "Foo"));
    [reflexivity | by right].
Defined.

End ReferencesToolFacts.

(** ** Header blocks and broken streams *)

Module TransportHeaderFacts.
Import Transport StringFacts TransportFacts.

Lemma prefix_separator_not_CR (c : ascii) (s : string) :
  c <> ascii_of_nat 13 -> String.prefix headerSeparator (String c s) = false.
Proof.
  intros Hc. unfold headerSeparator, JS.CRLF, JS.CR. rewrite !app_cons. cbn [String.prefix].
  destruct (ascii_dec (ascii_of_nat 13) c); [congruence | reflexivity].
Qed.

Lemma prefix_CRLF_not_CR (c : ascii) (s : string) :
  c <> ascii_of_nat 13 -> String.prefix JS.CRLF (String c s) = false.
Proof.
  intros Hc. unfold JS.CRLF, JS.CR. rewrite app_cons. cbn [String.prefix].
  destruct (ascii_dec (ascii_of_nat 13) c); [congruence | reflexivity].
Qed.

Lemma noCR_head (c : ascii) (s : string) :
  noCR (String c s) = true -> c <> ascii_of_nat 13 /\ noCR s = true.
Proof.
  simpl. intros [Hc Hs]%andb_true_iff. split; [| exact Hs].
  by apply negb_true_iff, Ascii.eqb_neq in Hc.
Qed.

(** The search for the separator passes over a line and the line break
    after it when the next line does not begin with a carriage return. *)
Lemma indexOfFrom_skip_line (h : string) (c : ascii) (t : string) (i : nat) :
  noCR h = true ->
  c <> ascii_of_nat 13 ->
  JS.indexOfFrom headerSeparator (h +:+ JS.CRLF +:+ String c t) i
  = JS.indexOfFrom headerSeparator (String c t) (i + String.length h + 2).
Proof.
  revert i. induction h as [|d h IH]; intros i Hh Hc.
  - change ("" +:+ JS.CRLF +:+ String c t)
      with (String (ascii_of_nat 13) (String (ascii_of_nat 10) (String c t))).
    cbn [JS.indexOfFrom].
    assert (String.prefix headerSeparator
              (String (ascii_of_nat 13) (String (ascii_of_nat 10) (String c t))) = false) as ->.
    { change headerSeparator
        with (String (ascii_of_nat 13) (String (ascii_of_nat 10)
               (String (ascii_of_nat 13) (String (ascii_of_nat 10) "")))).
      cbn [String.prefix].
      destruct (ascii_dec (ascii_of_nat 13) (ascii_of_nat 13)); [| done].
      destruct (ascii_dec (ascii_of_nat 10) (ascii_of_nat 10)); [| done].
      destruct (ascii_dec (ascii_of_nat 13) c); [congruence | reflexivity]. }
    rewrite prefix_separator_not_CR by (intros H; vm_compute in H; discriminate).
    replace (i + String.length "" + 2)%nat with (S (S i)) by (simpl; lia).
    reflexivity.
  - apply noCR_head in Hh as [Hd Hh]. rewrite app_cons. cbn [JS.indexOfFrom].
    rewrite prefix_separator_not_CR by exact Hd.
    rewrite IH by done.
    replace (i + String.length (String d h) + 2)%nat with (S i + String.length h + 2)%nat
      by (simpl; lia).
    reflexivity.
Qed.

Lemma join_head_plain (h : string) (hs : list string) :
  Forall plainHeader (h :: hs) ->
  exists c t, JS.join JS.CRLF (h :: hs) = String c t /\ c <> ascii_of_nat 13.
Proof.
  intros Hall. apply Forall_cons in Hall as [(Hcr & _ & Hne) _].
  destruct h as [|c h]; [done |]. apply noCR_head in Hcr as [Hc _].
  destruct hs as [|h2 hs]; [by exists c, h |].
  rewrite join_cons by done. rewrite app_cons. by eexists _, _.
Qed.

Lemma indexOf_header_block (hs : list string) (y : string) : forall i,
  hs <> [] ->
  Forall plainHeader hs ->
  JS.indexOfFrom headerSeparator (JS.join JS.CRLF hs +:+ headerSeparator +:+ y) i
  = Some (i + String.length (JS.join JS.CRLF hs))%nat.
Proof.
  induction hs as [|h hs IH]; intros i Hne Hall; [done |].
  destruct hs as [|h2 hs].
  - apply Forall_cons in Hall as [(Hcr & _) _]. cbn [JS.join].
    rewrite (indexOfFrom_separator h _ "" y i Hcr) by (by rewrite app_empty_r).
    rewrite !length_app_str. change (String.length headerSeparator) with 4%nat.
    destruct (Nat.leb_spec (String.length h + 4) (String.length h + (4 + String.length y)));
      [reflexivity | lia].
  - pose proof Hall as Hall'. apply Forall_cons in Hall' as [(Hcr & _) Htail].
    destruct (join_head_plain h2 hs Htail) as (c & t & Hjoin & Hc).
    rewrite join_cons by done. rewrite !app_assoc_str.
    specialize (IH (i + String.length h + 2)%nat ltac:(done) Htail).
    rewrite Hjoin in IH |- *. rewrite app_cons in IH |- *.
    rewrite indexOfFrom_skip_line by done. rewrite IH.
    rewrite !length_app_str. change (String.length JS.CRLF) with 2%nat.
    f_equal. simpl. lia.
Qed.

Lemma split_go_line (h t cur : string) :
  noCR h = true ->
  JS.split_go JS.CRLF 0 cur (h +:+ JS.CRLF +:+ t)
  = (JS.rev_str cur +:+ h) :: JS.split_go JS.CRLF 0 "" t.
Proof.
  revert cur. induction h as [|d h IH]; intros cur Hh.
  - change ("" +:+ JS.CRLF +:+ t) with (String (ascii_of_nat 13) (String (ascii_of_nat 10) t)).
    cbn [JS.split_go].
    assert (String.prefix JS.CRLF (String (ascii_of_nat 13) (String (ascii_of_nat 10) t)) = true)
      as -> by (apply prefix_spec; by exists t).
    change (String.length JS.CRLF - 1)%nat with 1%nat. cbn [JS.split_go].
    by rewrite app_empty_r.
  - apply noCR_head in Hh as [Hd Hh]. rewrite app_cons. cbn [JS.split_go].
    rewrite prefix_CRLF_not_CR by exact Hd. rewrite IH by exact Hh.
    by rewrite rev_str_cons, app_assoc_str.
Qed.

Lemma split_header_block (hs : list string) :
  hs <> [] -> Forall plainHeader hs -> JS.split (JS.join JS.CRLF hs) JS.CRLF = hs.
Proof.
  induction hs as [|h hs IH]; intros Hne Hall; [done |].
  apply Forall_cons in Hall as [(Hcr & _) Htail].
  destruct hs as [|h2 hs].
  - unfold JS.split. cbn [JS.join]. by rewrite split_go_noCR.
  - rewrite join_cons by done. unfold JS.split. rewrite split_go_line by done.
    f_equal. by apply IH.
Qed.

Lemma allAscii_header_block (hs : list string) :
  Forall plainHeader hs -> allAscii (JS.join JS.CRLF hs) = true.
Proof.
  induction 1 as [|h hs (_ & Hascii & _) _ IH]; [reflexivity |].
  destruct hs as [|h2 hs]; [exact Hascii |].
  rewrite join_cons by done. by rewrite !allAscii_app, Hascii, IH.
Qed.

Lemma readHeaderLine_other (hs : list string) (contentLength : JS.Num) :
  Forall notContentLength hs -> foldl readHeaderLine contentLength hs = contentLength.
Proof.
  induction 1 as [|h hs Hh _ IH]; [reflexivity |].
  simpl. unfold readHeaderLine at 2. unfold notContentLength in Hh. by rewrite Hh.
Qed.

Lemma readHeaderLine_content_length (n : Z) (contentLength : JS.Num) :
  0 <= n -> readHeaderLine contentLength (headerFields n) = JS.Int n.
Proof.
  intros Hn. unfold readHeaderLine, JS.startsWith.
  assert (String.prefix contentLengthPrefix (headerFields n) = true) as ->.
  { apply prefix_spec. by exists (JS.toString n). }
  unfold JS.substring_from, headerFields.
  change (Z.to_nat 16) with (String.length contentLengthPrefix).
  rewrite drop_str_app_length. by apply parseInt_toString.
Qed.

Section WithRuntime.

Variable LSPMessage : Type.
Variable JSON_stringify : LSPMessage -> string.
Variable JSON_parse : string -> option LSPMessage.
Variable utf8_encode : string -> Buffer.
Variable utf8_decode : Buffer -> string.

Hypothesis utf8_encode_ascii_app :
  forall a s, allAscii a = true -> utf8_encode (a +:+ s) = a +:+ utf8_encode s.
Hypothesis utf8_decode_ascii :
  forall b, allAscii b = true -> utf8_decode b = b.

Local Abbreviation writeMessage := (writeMessage LSPMessage JSON_stringify utf8_encode).
Local Abbreviation body := (body LSPMessage JSON_stringify utf8_encode).
Local Abbreviation roundTrips :=
  (roundTrips LSPMessage JSON_stringify JSON_parse utf8_encode utf8_decode).
Local Abbreviation parseContent := (parseContent LSPMessage JSON_parse utf8_decode).
Local Abbreviation tryParse := (tryParse LSPMessage JSON_parse utf8_decode).
Local Abbreviation onData := (onData LSPMessage JSON_parse utf8_decode).
Local Abbreviation awaitData := (awaitData LSPMessage JSON_parse utf8_decode).
Local Abbreviation readMessage := (readMessage LSPMessage JSON_parse utf8_decode).

(** What [tryParse] reads from a block of header lines. *)
Lemma tryParse_header_block (hs : list string) (y : Buffer) :
  hs <> [] ->
  Forall plainHeader hs ->
  tryParse {| buffer := JS.join JS.CRLF hs +:+ headerSeparator +:+ y;
              contentLength := JS.Int (-1) |}
  = let contentLength' := foldl readHeaderLine (JS.Int (-1)) hs in
    if JS.num_ltb contentLength' (JS.Int 0) then
      (Rejected "Missing Content-Length header",
       {| buffer := JS.join JS.CRLF hs +:+ headerSeparator +:+ y;
          contentLength := contentLength' |})
    else parseContent {| buffer := y; contentLength := contentLength' |}.
Proof.
  intros Hne Hall. unfold Transport.tryParse. cbn [buffer contentLength JS.num_ltb].
  change (-1 <? 0) with true. cbn iota.
  unfold JS.indexOf. rewrite indexOf_header_block by done. cbn [Nat.add].
  set (H := JS.join JS.CRLF hs).
  assert (Hlen : (String.length H <= String.length (H +:+ headerSeparator +:+ y))%nat)
    by (rewrite length_app_str; lia).
  rewrite sliceTo_nat by exact Hlen. rewrite take_str_app_length.
  rewrite utf8_decode_ascii by (by apply allAscii_header_block).
  assert (Hsplit : JS.split H JS.CRLF = hs) by (by apply split_header_block).
  rewrite !Hsplit. cbv zeta. destruct (JS.num_ltb _ _); [reflexivity |].
  replace (Z.of_nat (String.length H) + 4)
    with (Z.of_nat (String.length (H +:+ headerSeparator)))
    by (rewrite length_app_str; change (String.length headerSeparator) with 4%nat; lia).
  rewrite <- app_assoc_str.
  rewrite sliceFrom_nat by (rewrite (length_app_str (H +:+ headerSeparator)); lia).
  by rewrite drop_str_app_length.
Qed.

(** Header lines besides [Content-Length] are passed over: a frame whose
    header block holds other lines before and after the [Content-Length]
    line (a [Content-Type] line, say) is read as the message it carries,
    and the bytes after its body are kept. *)
Theorem readMessage_extra_headers (m : LSPMessage) (before after : list string)
    (rest : Buffer) :
  roundTrips m ->
  Forall plainHeader (before ++ after) ->
  Forall notContentLength after ->
  let headers := before ++ [headerFields (JS.strlen (body m))] ++ after in
  readMessage newReader [JS.join JS.CRLF headers +:+ headerSeparator +:+ body m +:+ rest]
  = (Resolved m, {| buffer := rest; contentLength := JS.Int (-1) |}, []).
Proof.
  intros Hround Hplain Hafter headers.
  assert (Hn : 0 <= JS.strlen (body m)) by (unfold JS.strlen; lia).
  assert (Hall : Forall plainHeader headers).
  { apply Forall_app in Hplain as [Hb Ha]. unfold headers.
    apply Forall_app. split; [exact Hb |]. apply Forall_cons. split; [| exact Ha].
    destruct (headerFields_plain _ Hn) as [Hascii Hcr]. split; [exact Hcr |].
    split; [exact Hascii | discriminate]. }
  assert (Hne : headers <> []) by (unfold headers; by destruct before).
  unfold Transport.readMessage.
  change (tryParse newReader) with (@Pending LSPMessage, newReader).
  cbn [Transport.awaitData]. unfold Transport.onData, newReader. cbn [buffer contentLength].
  rewrite app_empty_l, (tryParse_header_block headers _ Hne Hall). cbv zeta.
  assert (Hcl : foldl readHeaderLine (JS.Int (-1)) headers = JS.Int (JS.strlen (body m))).
  { unfold headers. rewrite !foldl_app. rewrite readHeaderLine_other by exact Hafter.
    simpl. by apply readHeaderLine_content_length. }
  rewrite Hcl. cbn [JS.num_ltb]. destruct (Z.ltb_spec (JS.strlen (body m)) 0); [lia |].
  unfold Transport.parseContent. cbn [buffer contentLength JS.num_ltb numOrZero].
  destruct (Z.ltb_spec (JS.strlen (body m +:+ rest)) (JS.strlen (body m))) as [Hlt |].
  { unfold JS.strlen in Hlt. rewrite length_app_str in Hlt. lia. }
  unfold JS.strlen at 1 2.
  rewrite sliceTo_nat, sliceFrom_nat by (rewrite length_app_str; lia).
  rewrite take_str_app_length, drop_str_app_length.
  unfold Transport.roundTrips in Hround. unfold Transport.body at 1. rewrite Hround.
  reflexivity.
Qed.

(** A header block without a [Content-Length] line is refused, and the
    reader keeps its buffer: nothing of the broken frame is skipped. *)
Theorem tryParse_missing_content_length (headers : list string) (rest : Buffer) :
  headers <> [] ->
  Forall plainHeader headers ->
  Forall notContentLength headers ->
  let r := {| buffer := JS.join JS.CRLF headers +:+ headerSeparator +:+ rest;
              contentLength := JS.Int (-1) |} in
  tryParse r = (Rejected "Missing Content-Length header", r).
Proof.
  intros Hne Hall Hother r. unfold r.
  rewrite (tryParse_header_block headers _ Hne Hall). cbv zeta.
  by rewrite readHeaderLine_other.
Qed.

Lemma parseContent_short (buf : Buffer) (n : nat) :
  (String.length buf < n)%nat ->
  parseContent {| buffer := buf; contentLength := JS.Int (Z.of_nat n) |}
  = (Pending, {| buffer := buf; contentLength := JS.Int (Z.of_nat n) |}).
Proof.
  intros Hlt. unfold Transport.parseContent. cbn [buffer contentLength JS.num_ltb].
  unfold JS.strlen. destruct (Z.ltb_spec (Z.of_nat (String.length buf)) (Z.of_nat n));
    [reflexivity | lia].
Qed.

Lemma length_lt_of_app (z x whole : string) :
  z +:+ x = whole -> x <> ""%string -> (String.length z < String.length whole)%nat.
Proof.
  intros <- Hx. rewrite length_app_str. destruct x; [done | simpl; lia].
Qed.

Lemma app_nonempty_r (a b : string) : b <> ""%string -> a +:+ b <> ""%string.
Proof. intros Hb. destruct a; [exact Hb | rewrite app_cons; discriminate]. Qed.

Lemma awaitData_body_truncated (m : LSPMessage) (missing : Buffer) :
  missing <> ""%string ->
  forall chunks z,
    z +:+ concatBuffers chunks +:+ missing = body m ->
    exists r,
      awaitData {| buffer := z; contentLength := JS.Int (Z.of_nat (String.length (body m))) |}
        chunks
      = (Rejected "LSP connection closed (EOF)", r, []).
Proof.
  intros Hmissing. induction chunks as [|c chunks IH]; intros z Heq; [by eexists |].
  cbn [concatBuffers] in Heq. rewrite (app_assoc_str c), <- app_assoc_str in Heq.
  cbn [Transport.awaitData]. unfold Transport.onData. cbn [buffer contentLength].
  rewrite (tryParse_in_body LSPMessage JSON_parse utf8_decode).
  rewrite parseContent_short.
  - by apply IH.
  - eapply (length_lt_of_app _ (concatBuffers chunks +:+ missing)); [exact Heq |].
    by apply app_nonempty_r.
Qed.

(** What [tryParse], still before the headers, makes of the start of a
    frame that is not all there: it goes on waiting. *)
Lemma tryParse_partial (m : LSPMessage) (buf x : Buffer) :
  buf +:+ x = writeMessage m ->
  x <> ""%string ->
  let before := {| buffer := buf; contentLength := JS.Int (-1) |} in
  tryParse before = (Pending, before)
  \/ exists z,
       tryParse before
       = (Pending, {| buffer := z;
                      contentLength := JS.Int (Z.of_nat (String.length (body m))) |})
       /\ z +:+ x = body m.
Proof.
  intros Heq Hx before. subst before.
  assert (Heq' : buf +:+ x = writeMessage m +:+ "") by (by rewrite app_empty_r).
  rewrite (tryParse_headers LSPMessage JSON_stringify JSON_parse utf8_encode utf8_decode
             utf8_encode_ascii_app utf8_decode_ascii m _ _ _ Heq').
  cbv zeta. set (n := String.length (body m)).
  destruct (Nat.leb_spec (String.length (headerFields (Z.of_nat n)) + 4) (String.length buf))
    as [Hle | Hgt]; [| by left].
  right.
  rewrite (frame_assoc LSPMessage JSON_stringify utf8_encode utf8_encode_ascii_app) in Heq'.
  fold n in Heq'. rewrite app_empty_r in Heq'.
  assert (Hlen : (String.length (headerFields (Z.of_nat n) +:+ headerSeparator)
                  <= String.length buf)%nat).
  { rewrite length_app_str. change (String.length headerSeparator) with 4%nat. exact Hle. }
  destruct (app_eq_long _ _ _ _ Heq' Hlen) as (z & Hbuf & Hz).
  assert (Hdrop : JS.drop_str (String.length (headerFields (Z.of_nat n)) + 4) buf = z).
  { rewrite Hbuf.
    replace (String.length (headerFields (Z.of_nat n)) + 4)%nat
      with (String.length (headerFields (Z.of_nat n) +:+ headerSeparator))
      by (rewrite length_app_str; reflexivity).
    apply drop_str_app_length. }
  rewrite Hdrop. exists z. split; [| by symmetry].
  apply parseContent_short. eapply length_lt_of_app; [symmetry; exact Hz | exact Hx].
Qed.

Lemma awaitData_truncated (m : LSPMessage) (missing : Buffer) :
  missing <> ""%string ->
  forall chunks buf,
    buf +:+ concatBuffers chunks +:+ missing = writeMessage m ->
    exists r,
      awaitData {| buffer := buf; contentLength := JS.Int (-1) |} chunks
      = (Rejected "LSP connection closed (EOF)", r, []).
Proof.
  intros Hmissing. induction chunks as [|c chunks IH]; intros buf Heq; [by eexists |].
  cbn [concatBuffers] in Heq. rewrite (app_assoc_str c), <- app_assoc_str in Heq.
  cbn [Transport.awaitData]. unfold Transport.onData. cbn [buffer contentLength].
  destruct (tryParse_partial m (buf +:+ c) (concatBuffers chunks +:+ missing) Heq)
    as [-> | (z & -> & Hz)].
  - by apply app_nonempty_r.
  - by apply IH.
  - by apply (awaitData_body_truncated m missing).
Qed.

(** A stream that ends inside a frame, cut into chunks in any way, never
    makes the reader resolve: the read waits through every chunk and is
    rejected with the end-of-stream error, with no chunk left over. *)
Theorem readMessage_truncated_frame (m : LSPMessage) (chunks : list Buffer)
    (missing : Buffer) :
  concatBuffers chunks +:+ missing = writeMessage m ->
  missing <> ""%string ->
  exists r,
    readMessage newReader chunks = (Rejected "LSP connection closed (EOF)", r, []).
Proof.
  intros Heq Hmissing. unfold Transport.readMessage.
  change (tryParse newReader) with (@Pending LSPMessage, newReader).
  apply (awaitData_truncated m missing Hmissing chunks ""). exact Heq.
Qed.

End WithRuntime.

Lemma readMessage_extra_headers_witness :
  readMessage string Some latin1_utf8_decode newReader
    [JS.join JS.CRLF
       ([contentType] ++ [headerFields (JS.strlen (latin1_utf8_encode sampleNotification))] ++ [])
     +:+ headerSeparator +:+ latin1_utf8_encode sampleNotification +:+ "tail"]
  = (Resolved sampleNotification, {| buffer := "tail"; contentLength := JS.Int (-1) |}, []).
Proof.
  apply (readMessage_extra_headers string (fun m => m) Some latin1_utf8_encode
           latin1_utf8_decode latin1_utf8_decode_ascii sampleNotification [contentType] []
           "tail").
  - vm_compute. reflexivity.
  - repeat constructor; vm_compute; discriminate.
  - constructor.
Defined.

Lemma tryParse_missing_content_length_witness :
  tryParse string Some latin1_utf8_decode
    {| buffer := JS.join JS.CRLF [contentType] +:+ headerSeparator +:+ sampleRequest;
       contentLength := JS.Int (-1) |}
  = (Rejected "Missing Content-Length header",
     {| buffer := JS.join JS.CRLF [contentType] +:+ headerSeparator +:+ sampleRequest;
        contentLength := JS.Int (-1) |}).
Proof.
  apply (tryParse_missing_content_length string Some latin1_utf8_decode
           latin1_utf8_decode_ascii [contentType] sampleRequest).
  - discriminate.
  - repeat constructor; vm_compute; discriminate.
  - repeat constructor.
Defined.

Lemma readMessage_truncated_frame_witness :
  exists r,
    readMessage string Some latin1_utf8_decode newReader
      [JS.take_str 10 (sampleWrite sampleRequest);
       JS.take_str 12 (JS.drop_str 10 (sampleWrite sampleRequest))]
    = (Rejected "LSP connection closed (EOF)", r, []).
Proof.
  apply (readMessage_truncated_frame string (fun m => m) Some latin1_utf8_encode
           latin1_utf8_decode latin1_utf8_encode_ascii_app latin1_utf8_decode_ascii
           sampleRequest _ (JS.drop_str 22 (sampleWrite sampleRequest))).
  - vm_compute. reflexivity.
  - vm_compute. discriminate.
Defined.

End TransportHeaderFacts.

(** ** The cache of query results *)

Module CacheFacts.
Import Cache StringFacts.

Lemma mapGet_mapSet {T} key (value : T) m : mapGet key (mapSet key value m) = Some value.
Proof.
  induction m as [|[k v] m IH]; simpl.
  - by rewrite String.eqb_refl.
  - destruct (String.eqb k key) eqn:Hk; simpl; by rewrite Hk.
Qed.

Lemma mapSet_fresh {T} key (value : T) m :
  mapGet key m = None -> mapSet key value m = m ++ [(key, value)].
Proof.
  induction m as [|[k v] m IH]; simpl; [done |].
  destruct (String.eqb k key); [done |]. intros Hm. by rewrite IH.
Qed.

Lemma mapSet_length {T} key (value : T) m :
  (length (mapSet key value m) <= length m + 1)%nat.
Proof.
  induction m as [|[k v] m IH]; simpl; [lia |].
  destruct (String.eqb k key); simpl; lia.
Qed.

Lemma mapSet_keys {T} (P : string -> Prop) key (value : T) m :
  P key -> Forall (fun kv => P (fst kv)) m -> Forall (fun kv => P (fst kv)) (mapSet key value m).
Proof.
  intros Hkey. induction 1 as [|[k v] m Hk Hm IH]; simpl; [by repeat constructor |].
  destruct (String.eqb k key); (constructor; [exact Hk |]); [exact Hm | exact IH].
Qed.

Lemma mapDelete_keys {T} (P : string -> Prop) key (m : OrderedMap T) :
  Forall (fun kv => P (fst kv)) m -> Forall (fun kv => P (fst kv)) (mapDelete key m).
Proof.
  intros Hm. unfold mapDelete, OrderedMap in *. rewrite Forall_forall in Hm |- *.
  intros kv Hkv. apply list_elem_of_filter in Hkv as [_ Hkv]. by apply Hm.
Qed.

Lemma mapDelete_first_length {T} key (v : T) m :
  (length (mapDelete key ((key, v) :: m)) <= length m)%nat.
Proof.
  unfold mapDelete, OrderedMap. rewrite filter_cons_False by (simpl; tauto).
  apply length_filter.
Qed.

Section WithSymbols.

Variable toLowerCase : string -> string.
Variable Symbols : Type.

Local Abbreviation getWorkspaceSymbols := (getWorkspaceSymbols toLowerCase Symbols).
Local Abbreviation setWorkspaceSymbols := (setWorkspaceSymbols toLowerCase Symbols).
Local Abbreviation cached := (cached toLowerCase Symbols).

(** What has just been cached for a query is found again, also under a
    spelling that differs in case only and also when caching it made the
    cache drop its oldest entry, as long as the entry has not outlived the
    TTL; the lookup leaves the cache as it is. *)
Theorem setWorkspaceSymbols_then_get config now now' symbolName symbolName' symbols cache :
  enabled config = true ->
  toLowerCase symbolName' = toLowerCase symbolName ->
  isExpired config now' {| data := symbols; timestamp := now |} = false ->
  let cache' := setWorkspaceSymbols config now symbolName symbols cache in
  getWorkspaceSymbols config now' symbolName' cache' = (Some symbols, cache').
Proof.
  intros Hon Hcase Hfresh cache'. subst cache'.
  unfold Cache.getWorkspaceSymbols, Cache.setWorkspaceSymbols, symbolCacheKey.
  rewrite Hon, Hcase. simpl. rewrite mapGet_mapSet, Hfresh. reflexivity.
Qed.

(** The invariant of the bound: no empty key, no more entries than the
    limit. *)
Lemma setWorkspaceSymbols_bounded config now symbolName symbols cache :
  1 <= maxSymbolCacheSize config ->
  toLowerCase symbolName <> ""%string ->
  Forall (fun kv => fst kv <> ""%string) cache ->
  mapSize cache <= maxSymbolCacheSize config ->
  let cache' := setWorkspaceSymbols config now symbolName symbols cache in
  Forall (fun kv => fst kv <> ""%string) cache'
  /\ mapSize cache' <= maxSymbolCacheSize config.
Proof.
  intros Hmax Hkey Hkeys Hsize cache'. subst cache'.
  unfold Cache.setWorkspaceSymbols, symbolCacheKey, mapSize in *.
  destruct (enabled config); simpl; [| done].
  destruct (Z.leb_spec (maxSymbolCacheSize config) (Z.of_nat (length cache))) as [Hfull | Hroom].
  - destruct cache as [|[firstKey v] cache]; [simpl in *; lia |].
    pose proof Hkeys as Hkeys'. apply Forall_cons in Hkeys' as [Hfirst _]. simpl in Hfirst.
    destruct (String.eqb_spec firstKey ""); [done |]. simpl. split.
    + apply (mapSet_keys (fun k => k <> ""%string)); [exact Hkey |].
      by apply (mapDelete_keys (fun k => k <> ""%string)).
    + pose proof (mapSet_length (toLowerCase symbolName) {| data := symbols; timestamp := now |}
                    (mapDelete firstKey ((firstKey, v) :: cache))).
      pose proof (mapDelete_first_length firstKey v cache). simpl in Hsize. lia.
  - split.
    + by apply (mapSet_keys (fun k => k <> ""%string)).
    + pose proof (mapSet_length (toLowerCase symbolName) {| data := symbols; timestamp := now |}
                    cache). lia.
Qed.

(** With a limit of at least one, and as long as the empty query is never
    cached, the cache of workspace symbols never holds more entries than
    [maxSymbolCacheSize], whatever queries are cached and in whatever
    order. *)
Theorem workspaceSymbolsCache_bounded config (queries : list (Z * string * Symbols)) :
  1 <= maxSymbolCacheSize config ->
  Forall (fun q => toLowerCase (snd (fst q)) <> ""%string) queries ->
  mapSize (cached config queries) <= maxSymbolCacheSize config.
Proof.
  intros Hmax Hqueries. unfold Cache.cached.
  set (f := fun cache (q : Z * string * Symbols) =>
              setWorkspaceSymbols config (fst (fst q)) (snd (fst q)) (snd q) cache).
  assert (Hinv : Forall (fun kv => fst kv <> ""%string) (foldl f [] queries)
                 /\ mapSize (foldl f [] queries) <= maxSymbolCacheSize config).
  { revert Hqueries. induction queries as [|q queries IH] using rev_ind; intros Hqueries.
    - simpl. split; [constructor | unfold mapSize; simpl; lia].
    - apply Forall_app in Hqueries as [Hqs Hq]. apply Forall_cons in Hq as [Hq _].
      rewrite foldl_app. simpl. destruct (IH Hqs) as [Hkeys Hsize].
      exact (setWorkspaceSymbols_bounded config _ _ _ _ Hmax Hq Hkeys Hsize). }
  apply Hinv.
Qed.

(** The empty query at the head of the cache is never evicted, and blocks
    eviction altogether: whatever the limit, caching a query that is not
    in the cache then adds an entry and drops none. *)
Theorem empty_query_blocks_eviction config now symbolName symbols entry rest :
  enabled config = true ->
  mapGet (toLowerCase symbolName) ((""%string, entry) :: rest) = None ->
  setWorkspaceSymbols config now symbolName symbols ((""%string, entry) :: rest)
  = (""%string, entry) :: rest
      ++ [(toLowerCase symbolName, {| data := symbols; timestamp := now |})].
Proof.
  intros Hon Hfresh. unfold Cache.setWorkspaceSymbols, symbolCacheKey. rewrite Hon. simpl.
  destruct (_ <=? _); by rewrite (mapSet_fresh _ _ _ Hfresh).
Qed.

End WithSymbols.

Lemma setWorkspaceSymbols_then_get_witness :
  fst (getWorkspaceSymbols lowerCase (list string) smallCache 5 "FOO"
         (setWorkspaceSymbols lowerCase (list string) smallCache 1 "Foo" ["Foo.bar"%string]
            [("a"%string, {| data := []; timestamp := 0 |});
             ("b"%string, {| data := []; timestamp := 0 |})]))
  = Some ["Foo.bar"%string].
Proof.
  rewrite (setWorkspaceSymbols_then_get lowerCase (list string) smallCache 1 5 "Foo" "FOO");
    reflexivity.
Defined.

Lemma workspaceSymbolsCache_bounded_witness :
  mapSize (cached lowerCase (list string) smallCache
             [(1, "A"%string, []); (2, "b"%string, []); (3, "C"%string, [])]) <= 2.
Proof.
  apply (workspaceSymbolsCache_bounded lowerCase (list string) smallCache
           [(1, "A"%string, []); (2, "b"%string, []); (3, "C"%string, [])]).
  - simpl. lia.
  - repeat constructor; discriminate.
Defined.

Lemma empty_query_blocks_eviction_witness :
  mapSize (setWorkspaceSymbols lowerCase (list string) smallCache 9 "C" []
             [(""%string, {| data := []; timestamp := 0 |});
              ("b"%string, {| data := []; timestamp := 0 |})])
  = 3.
Proof.
  rewrite (empty_query_blocks_eviction lowerCase (list string) smallCache 9 "C" []
             {| data := []; timestamp := 0 |} [("b"%string, {| data := []; timestamp := 0 |})]);
    reflexivity.
Defined.

Lemma positionCacheKey_inj line character line' character' :
  positionCacheKey line character = positionCacheKey line' character' ->
  line = line' /\ character = character'.
Proof.
  unfold positionCacheKey. intros Heq.
  assert (Hno : forall n, JS.includes (JS.toString n) ":" = false).
  { intros n. apply SplitFacts.toString_no_char; [reflexivity | discriminate]. }
  apply (SplitFacts.app_sep_inj ":") in Heq as [Hl Hc]; [| apply Hno | apply Hno].
  unfold JS.toString in Hl, Hc. by apply (inj pretty) in Hl, Hc.
Qed.

Section WithLocations.

Variable Locations : Type.

Local Abbreviation getDefinitions := (getDefinitions Locations).
Local Abbreviation setDefinitions := (setDefinitions Locations).
Local Abbreviation invalidateFile := (invalidateFile Locations).

(** The cache kept by file and position answers a lookup with what was
    last cached for that very file and position: what has just been cached
    is found again (while it has not outlived the TTL); caching for another
    file or another position changes no other answer, two positions never
    sharing a slot; after [invalidateFile] every lookup in that file
    misses, and the lookups in other files answer as before. *)
Theorem locationCache_laws config :
  enabled config = true ->
  (forall now now' filePath line character locations cache,
      isExpired config now' {| data := locations; timestamp := now |} = false ->
      let cache' := setDefinitions config now filePath line character locations cache in
      getDefinitions config now' filePath line character cache' = (Some locations, cache'))
  /\ (forall now now' filePath line character filePath' line' character' locations cache,
        (filePath', line', character') <> (filePath, line, character) ->
        fst (getDefinitions config now' filePath line character
               (setDefinitions config now filePath' line' character' locations cache))
        = fst (getDefinitions config now' filePath line character cache))
  /\ (forall now filePath line character cache,
        fst (getDefinitions config now filePath line character (invalidateFile filePath cache))
        = None)
  /\ (forall now filePath filePath' line character cache,
        filePath' <> filePath ->
        fst (getDefinitions config now filePath' line character (invalidateFile filePath cache))
        = fst (getDefinitions config now filePath' line character cache)).
Proof.
  intros Hon.
  unfold Cache.getDefinitions, Cache.setDefinitions, Cache.invalidateFile, LocationCaches.
  rewrite Hon. simpl. split; [| split; [| split]].
  - intros now now' filePath line character locations cache Hfresh.
    rewrite lookup_insert, decide_True by done.
    rewrite lookup_insert, decide_True by done. by rewrite Hfresh.
  - intros now now' filePath line character filePath' line' character' locations cache Hne.
    rewrite lookup_insert. destruct (decide (filePath' = filePath)) as [-> | Hfile].
    2: { destruct (cache !! filePath) as [uriCache|]; [| done].
         destruct (uriCache !! positionCacheKey line character) as [entry|]; [| done].
         by destruct (isExpired config now' entry). }
    assert (Hkey : positionCacheKey line' character' <> positionCacheKey line character).
    { intros Heq. apply positionCacheKey_inj in Heq as [-> ->]. done. }
    rewrite lookup_insert, decide_False by done.
    destruct (cache !! filePath) as [uriCache|]; simpl; [| by rewrite lookup_empty].
    destruct (uriCache !! positionCacheKey line character) as [entry|]; [| done].
    by destruct (isExpired config now' entry).
  - intros now filePath line character cache. by rewrite lookup_delete, decide_True.
  - intros now filePath filePath' line character cache Hne.
    rewrite lookup_delete, decide_False by congruence.
    destruct (cache !! filePath') as [uriCache|]; [| done].
    destruct (uriCache !! positionCacheKey line character) as [entry|]; [| done].
    by destruct (isExpired config now entry).
Qed.

End WithLocations.

Lemma locationCache_laws_witness :
  fst (getDefinitions (list Z) smallCache 9 "/a.ts" 1 23
         (setDefinitions (list Z) smallCache 5 "/a.ts" 12 3 [7]
            (setDefinitions (list Z) smallCache 1 "/a.ts" 1 23 [4] ∅)))
  = Some [4].
Proof.
  rewrite (proj1 (proj2 (locationCache_laws (list Z) smallCache eq_refl)));
    [| discriminate].
  rewrite (proj1 (locationCache_laws (list Z) smallCache eq_refl)); reflexivity.
Defined.

End CacheFacts.

(** ** Batches of line edits *)

Module BatchEditFacts.
Import WorkspaceEdit EditTool StringFacts LineFacts.

(** *** The sort, for any comparator that orders totally *)

Lemma StronglySorted_weaken {A} (R S : A -> A -> Prop) (l : list A) :
  (forall a b, R a b -> S a b) -> StronglySorted R l -> StronglySorted S l.
Proof.
  intros Himpl. induction 1 as [|x l Hs IH Hall]; constructor; [exact IH |].
  eapply Forall_impl; [exact Hall |]. intros y. apply Himpl.
Qed.

Section Sorting.

Context {A : Type} (cmp : A -> A -> Z).

Local Abbreviation before := (fun a b : A => cmp a b <= 0).

Hypothesis before_total : forall a b, ~ before a b -> before b a.
Hypothesis before_trans : forall a b c, before a b -> before b c -> before a c.

Lemma sort_insert_ordered x l :
  StronglySorted before l -> StronglySorted before (JS.sort_insert cmp x l).
Proof.
  induction 1 as [|y l Hs IH Hall]; simpl; [repeat constructor |].
  destruct (Z.ltb_spec 0 (cmp y x)) as [Hgt | Hle].
  - assert (Hxy : before x y) by (apply before_total; lia).
    constructor; [by constructor |].
    constructor; [exact Hxy |].
    eapply Forall_impl; [exact Hall |]. intros z Hyz. by eapply (before_trans x y z).
  - constructor; [exact IH |].
    rewrite WorkspaceEditFacts.sort_insert_Permutation. constructor; [exact Hle | exact Hall].
Qed.

Lemma sort_ordered (l : list A) : StronglySorted before (JS.sort cmp l).
Proof.
  unfold JS.sort.
  assert (Hgen : forall acc, StronglySorted before acc ->
            StronglySorted before (foldl (fun acc x => JS.sort_insert cmp x acc) acc l)).
  { induction l as [|x l IH]; intros acc Hacc; simpl; [exact Hacc |].
    apply IH. by apply sort_insert_ordered. }
  apply Hgen. constructor.
Qed.

(** A list already in order, with no two elements that tie, is what the
    sort makes of any of its permutations. *)
Lemma sort_of_permutation (ordered given : list A) :
  StronglySorted before ordered ->
  (forall a b, a ∈ ordered -> b ∈ ordered -> before a b -> before b a -> a = b) ->
  given ≡ₚ ordered ->
  JS.sort cmp given = ordered.
Proof.
  intros Hsorted Hties Hperm.
  apply (StronglySorted_unique_strong before).
  - intros a b Ha Hb Hab Hba. apply Hties; [| exact Hb | exact Hab | exact Hba].
    by rewrite WorkspaceEditFacts.sort_Permutation, Hperm in Ha.
  - apply sort_ordered.
  - exact Hsorted.
  - by rewrite WorkspaceEditFacts.sort_Permutation.
Qed.

End Sorting.

(** *** Separated edits *)

Lemma separated_weaken below below' edits :
  below <= below' -> separated below edits -> separated below' edits.
Proof.
  destruct edits as [|edit rest]; [done |]. simpl. intros Hle (Hrange & Hend & Hrest).
  split; [exact Hrange |]. split; [lia | exact Hrest].
Qed.

Lemma separated_Forall below edits :
  separated below edits ->
  Forall (fun edit => 1 <= startLine edit <= endLine edit /\ endLine edit < below) edits.
Proof.
  revert below. induction edits as [|edit rest IH]; intros below; [constructor |].
  simpl. intros (Hrange & Hend & Hrest). constructor; [by split |].
  eapply Forall_impl; [apply (IH _ Hrest) |]. simpl. intros y [Hy Hlt]. split; [exact Hy | lia].
Qed.

Lemma separated_sorted below edits :
  separated below edits ->
  StronglySorted (fun a b => startLine b < startLine a) edits.
Proof.
  revert below. induction edits as [|edit rest IH]; intros below; [constructor |].
  simpl. intros (Hrange & Hend & Hrest). constructor; [by eapply IH |].
  eapply Forall_impl; [apply (separated_Forall _ _ Hrest) |]. simpl. intros y [Hy Hlt]. lia.
Qed.

Lemma sorted_distinct {A} (key : A -> Z) (l : list A) a b :
  StronglySorted (fun a b => key b < key a) l ->
  a ∈ l -> b ∈ l -> key a = key b -> a = b.
Proof.
  induction 1 as [|x l Hs IH Hall]; intros Ha Hb Hkey; [by apply elem_of_nil in Ha |].
  rewrite Forall_forall in Hall.
  apply elem_of_cons in Ha as [-> | Ha]; apply elem_of_cons in Hb as [-> | Hb].
  - reflexivity.
  - specialize (Hall _ Hb). lia.
  - specialize (Hall _ Ha). lia.
  - by apply IH.
Qed.

(** The tool's sort puts any permutation of separated edits in their
    bottom-up order. *)
Lemma descending_sort below edits given :
  separated below edits -> given ≡ₚ edits ->
  JS.sort (fun a b => startLine b - startLine a) given = edits.
Proof.
  intros Hsep Hperm. pose proof (separated_sorted _ _ Hsep) as Hsorted.
  apply (sort_of_permutation (fun a b : LineEdit => startLine b - startLine a));
    [| | | | exact Hperm].
  - intros a b Hab. lia.
  - intros a b c Hab Hbc. lia.
  - eapply StronglySorted_weaken; [| exact Hsorted]. simpl. intros a b Hab. lia.
  - intros a b Ha Hb Hab Hba.
    apply (sorted_distinct startLine edits); [exact Hsorted | exact Ha | exact Hb | lia].
Qed.

Lemma wholeLines_sort below lines edits :
  separated below edits ->
  JS.sort compareEdits (wholeLines lines <$> edits) = wholeLines lines <$> edits.
Proof.
  intros Hsep. pose proof (separated_sorted _ _ Hsep) as Hsorted.
  assert (Hmapped : StronglySorted
                      (fun a b => line (startOf b) < line (startOf a))
                      (wholeLines lines <$> edits)).
  { clear Hsep. induction Hsorted as [|x l Hs IH Hall]; [constructor |].
    rewrite fmap_cons. constructor; [exact IH |].
    rewrite Forall_fmap. eapply Forall_impl; [exact Hall |].
    intros y Hy. unfold compose, startOf, wholeLines, mkEdit. simpl in *. lia. }
  apply (sort_of_permutation compareEdits).
  - intros a b. apply WorkspaceEditFacts.descends_total.
  - intros a b c. apply WorkspaceEditFacts.descends_trans.
  - eapply StronglySorted_weaken; [| exact Hmapped].
    intros a b Hab. apply WorkspaceEditFacts.descends_iff. by left.
  - intros a b Ha Hb Hab Hba.
    apply (sorted_distinct (fun e => line (startOf e)) (wholeLines lines <$> edits));
      [exact Hmapped | exact Ha | exact Hb |].
    by rewrite (WorkspaceEditFacts.descends_both_same_start a b Hab Hba).
  - reflexivity.
Qed.

(** *** The ranges and their application *)

Lemma lineRange_whole_lines content (edit : LineEdit) :
  JS.includes content JS.CRLF = false ->
  1 <= startLine edit <= endLine edit ->
  endLine edit <= Z.of_nat (length (JS.split content JS.LF)) ->
  lineRange content (startLine edit) (endLine edit)
  = Ok (edit_range (wholeLines (JS.split content JS.LF) edit)).
Proof.
  intros Hlf Hrange Hend. unfold lineRange, lineEnding. rewrite Hlf.
  set (lines := JS.split content JS.LF) in *.
  destruct (Z.ltb_spec (startLine edit) 1); [lia |].
  destruct (Z.leb_spec (Z.of_nat (length lines)) (startLine edit - 1)); [lia |].
  destruct (Z.leb_spec (Z.of_nat (length lines)) (endLine edit - 1)); [lia |].
  reflexivity.
Qed.

Lemma toLspEdits_whole_lines (disk : gmap string string) filePath content below edits :
  disk !! filePath = Some content ->
  JS.includes content JS.CRLF = false ->
  separated below edits ->
  below <= Z.of_nat (length (JS.split content JS.LF)) + 1 ->
  toLspEdits disk filePath edits = Ok (wholeLines (JS.split content JS.LF) <$> edits).
Proof.
  intros Hfile Hlf Hsep Hbelow. apply separated_Forall in Hsep.
  induction Hsep as [|edit rest [Hrange Hend] _ IH]; [reflexivity |].
  simpl. rewrite (EditToolFacts.getRange_read _ _ _ _ _ Hfile).
  rewrite lineRange_whole_lines by (done || lia). simpl. rewrite IH. simpl.
  by destruct edit.
Qed.

(** Edits that lie within the first lines [top] of the file, applied
    from the bottom up, rewrite [top] and leave what follows alone; the
    ranges are the ones computed on the file as it was ([lines]), of which
    [top] is the unchanged head. *)
Lemma applySorted_whole_lines lines edits : forall top rest,
  separated (Z.of_nat (length top) + 1) edits ->
  take (length top) lines = top ->
  applySorted (top ++ rest) (wholeLines lines <$> edits)
  = Ok (replaceLines top edits ++ rest).
Proof.
  induction edits as [|edit edits IH]; intros top rest Hsep Htop; [reflexivity |].
  simpl in Hsep. destruct Hsep as (Hrange & Hend & Hsep).
  rewrite fmap_cons. cbn [applySorted replaceLines].
  destruct (lookup_lt_is_Some_2 top (Z.to_nat (endLine edit - 1))) as [last Hlast]; [lia |].
  assert (Hlines : lines !! Z.to_nat (endLine edit - 1) = Some last).
  { rewrite <- Htop in Hlast. rewrite lookup_take_Some in Hlast. tauto. }
  assert (Hchar : lengthOrZero lines (endLine edit - 1) = JS.strlen last).
  { unfold lengthOrZero, JS.index. destruct (Z.ltb_spec (endLine edit - 1) 0); [lia |].
    by rewrite Hlines. }
  pose proof (EditLinesFacts.applyEdit_whole_lines (top ++ rest)
                (Z.to_nat (startLine edit - 1)) (Z.to_nat (endLine edit - 1)) last
                (lineText edit)) as Happly.
  unfold wholeLines at 1. rewrite Hchar.
  replace (startLine edit - 1) with (Z.of_nat (Z.to_nat (startLine edit - 1))) at 1 by lia.
  replace (endLine edit - 1) with (Z.of_nat (Z.to_nat (endLine edit - 1))) at 1 by lia.
  rewrite Happly; [| lia | by rewrite lookup_app_l by lia]. simpl.
  replace (S (Z.to_nat (endLine edit - 1))) with (Z.to_nat (endLine edit)) by lia.
  rewrite take_app_le, drop_app_le by lia.
  specialize (IH (take (Z.to_nat (startLine edit - 1)) top)
                (lineText edit :: drop (Z.to_nat (endLine edit)) top ++ rest)).
  rewrite IH.
  - by rewrite <- app_assoc.
  - rewrite length_take. eapply separated_weaken; [| exact Hsep]. lia.
  - rewrite length_take, Nat.min_l by lia. symmetry. rewrite <- Htop at 1.
    rewrite take_take. f_equal. lia.
Qed.

(** *** The start-line check *)

Lemma lineRange_outcome content s e :
  (exists r, lineRange content s e = Ok r /\ 1 <= s)
  \/ (lineRange content s e = Throw ("Start line must be >= 1, got " +:+ JS.toString s)
      /\ s < 1).
Proof.
  unfold lineRange. destruct (Z.ltb_spec s 1) as [Hlt | Hge]; [by right |].
  left. destruct (_ <=? s - 1); eexists; (split; [reflexivity | exact Hge]).
Qed.

(** The loop over the ranges stops at the first edit, in the order given,
    that starts before line 1. *)
Lemma toLspEdits_outcome (disk : gmap string string) filePath content edits :
  disk !! filePath = Some content ->
  (exists lspEdits,
      toLspEdits disk filePath edits = Ok lspEdits
      /\ Forall (fun edit => 1 <= startLine edit) edits)
  \/ (exists passed edit rest,
        edits = passed ++ edit :: rest
        /\ Forall (fun edit => 1 <= startLine edit) passed
        /\ startLine edit < 1
        /\ toLspEdits disk filePath edits
           = Throw ("Start line must be >= 1, got " +:+ JS.toString (startLine edit))).
Proof.
  intros Hfile. induction edits as [|edit edits IH].
  - left. exists []. split; [reflexivity | constructor].
  - cbn [toLspEdits]. rewrite (EditToolFacts.getRange_read _ _ _ _ _ Hfile).
    destruct (lineRange_outcome content (startLine edit) (endLine edit))
      as [(r & -> & Hge) | [-> Hlt]]; cbn [bind].
    + destruct IH as [(lspEdits & -> & Hall) | (passed & bad & rest & -> & Hall & Hlt & ->)].
      * left. eexists. split; [reflexivity |]. by constructor.
      * right. exists (edit :: passed), bad, rest.
        split; [reflexivity |]. split; [by constructor |]. by split.
    + right. exists [], edit, edits. split; [reflexivity |]. split; [constructor |]. by split.
Qed.

(** What the loop over the ranges can fail with. *)
Lemma toLspEdits_throws (disk : gmap string string) filePath edits msg :
  toLspEdits disk filePath edits = Throw msg ->
  msg = "ENOENT: no such file or directory"%string
  \/ exists edit,
       edit ∈ edits /\ startLine edit < 1
       /\ msg = ("Start line must be >= 1, got " +:+ JS.toString (startLine edit))%string.
Proof.
  destruct (disk !! filePath) as [content|] eqn:Hfile.
  - destruct (toLspEdits_outcome disk filePath content edits Hfile)
      as [(lspEdits & -> & _) | (passed & bad & rest & -> & _ & Hlt & ->)]; [discriminate |].
    intros [= <-]. right. exists bad. split; [| by split].
    apply elem_of_app. right. apply elem_of_cons. by left.
  - destruct edits as [|edit edits]; [discriminate |].
    cbn [toLspEdits]. unfold getRange, fs_readFile. rewrite Hfile. cbn [bind].
    intros [= <-]. by left.
Qed.

Lemma applySorted_throws lines edits msg :
  applySorted lines edits = Throw msg -> msg = undefinedLine.
Proof.
  revert lines. induction edits as [|edit edits IH]; intros lines; simpl; [discriminate |].
  destruct (applyEdit lines edit) as [lines'|msg'] eqn:Hedit; simpl; [apply IH |].
  intros [= <-]. unfold applyEdit in Hedit.
  repeat (destruct (JS.index _ _) in Hedit; try discriminate);
    destruct (_ =? _) in Hedit; try discriminate; by injection Hedit.
Qed.

Lemma start_line_message_differs {A} (N : Z) (msg rest : string) :
  msg = "ENOENT: no such file or directory"%string
  \/ msg = undefinedLine
  \/ msg = ("Could not open file: Error: " +:+ rest)%string ->
  @Throw A msg <> Throw ("Start line must be >= 1, got " +:+ JS.toString N).
Proof.
  intros [-> | [-> | ->]] Heq; injection Heq as Heq;
    cbv beta iota delta [String.append undefinedLine] in Heq; discriminate.
Qed.

Section WithClient.

Variable pathToUri : string -> string.
Variable detectLanguageId : string -> string.
Variable stdinWritable : bool.

Local Abbreviation openFile := (EditTool.openFile pathToUri detectLanguageId stdinWritable).
Local Abbreviation applyTextEdits :=
  (EditTool.applyTextEdits pathToUri detectLanguageId stdinWritable).

(** The start-line check of a batch.  When the file opens and is there and
    some edit of the batch starts before line 1, the call fails with
    [Start line must be >= 1, got N], where [N] is the greatest start line
    below 1 in the batch, and nothing is written.  When no edit starts
    before line 1 the call never fails with that message, whatever else
    happens. *)
Theorem applyTextEdits_start_line_check filePath env edits :
  (forall content,
      fst (openFile filePath env) = Ok tt ->
      disk env !! filePath = Some content ->
      (exists edit, edit ∈ edits /\ startLine edit < 1) ->
      exists edit,
        edit ∈ edits /\ startLine edit < 1
        /\ (forall other, other ∈ edits -> startLine other < 1 ->
              startLine other <= startLine edit)
        /\ applyTextEdits filePath edits env
           = (Throw ("Start line must be >= 1, got " +:+ JS.toString (startLine edit)),
              {| disk := disk env; client := snd (openFile filePath env) |}))
  /\ ((forall edit, edit ∈ edits -> 1 <= startLine edit) ->
      forall N,
        fst (applyTextEdits filePath edits env)
        <> Throw ("Start line must be >= 1, got " +:+ JS.toString N)).
Proof.
  pose proof (WorkspaceEditFacts.sort_Permutation
                (fun a b : LineEdit => startLine b - startLine a) edits) as Hperm.
  split.
  - intros content Hopen Hfile (bad & Hbad & Hbadlt).
    assert (Hsorted : StronglySorted (fun a b : LineEdit => startLine b - startLine a <= 0)
                        (JS.sort (fun a b : LineEdit => startLine b - startLine a) edits)).
    { apply (sort_ordered (fun a b : LineEdit => startLine b - startLine a)).
      - intros a b Hab. simpl in *. lia.
      - intros a b c Hab Hbc. simpl in *. lia. }
    unfold EditTool.applyTextEdits.
    destruct (openFile filePath env) as [[[]|err] client']; [| discriminate]. cbn [snd].
    destruct (toLspEdits_outcome (disk env) filePath content
                (JS.sort (fun a b : LineEdit => startLine b - startLine a) edits) Hfile)
      as [(lspEdits & _ & Hall) | (passed & edit & rest & Hsplit & Hall & Hlt & ->)].
    + rewrite <- Hperm in Hbad. rewrite Forall_forall in Hall.
      specialize (Hall _ Hbad). lia.
    + exists edit. split.
      { rewrite <- Hperm, Hsplit. apply elem_of_app. right. apply elem_of_cons. by left. }
      split; [exact Hlt |]. split; [| reflexivity].
      intros other Hother Holt. rewrite <- Hperm, Hsplit in Hother.
      rewrite Hsplit in Hsorted. apply StronglySorted_app_1_r in Hsorted.
      apply StronglySorted_inv in Hsorted as [_ Hafter].
      apply elem_of_app in Hother as [Hother | Hother].
      * rewrite Forall_forall in Hall. specialize (Hall _ Hother). lia.
      * apply elem_of_cons in Hother as [-> | Hother]; [lia |].
        rewrite Forall_forall in Hafter. specialize (Hafter _ Hother). simpl in Hafter. lia.
  - intros Hall N. unfold EditTool.applyTextEdits.
    destruct (openFile filePath env) as [[[]|err] client']; cbn [fst].
    2: { apply (start_line_message_differs N _ err). by do 2 right. }
    destruct (toLspEdits _ _ _) as [lspEdits | msg] eqn:Hranges.
    + cbn [WorkspaceEdit.applyWorkspaceEdit].
      destruct (disk env !! uriPath (pathToUri filePath)) as [content'|]; cbn [fst].
      2: { apply (start_line_message_differs N _ ""). by left. }
      unfold applyFileEdits.
      destruct (applySorted _ _) as [lines'|msg'] eqn:Hsorted; cbn [bind fst]; [discriminate |].
      apply applySorted_throws in Hsorted. subst msg'.
      apply (start_line_message_differs N _ ""). by right; left.
    + cbn [fst]. apply toLspEdits_throws in Hranges as [-> | (edit & Hin & Hlt & ->)].
      * apply (start_line_message_differs N _ ""). by left.
      * rewrite Hperm in Hin. specialize (Hall _ Hin). lia.
Qed.

(** On a file that opens, whose path comes back from its URI and that has
    line-feed endings, a batch of edits whose line ranges lie within the
    file and apart from each other, given in any order, succeeds and has
    the effect of replacing the lines of each edit by its text in that
    file: every line outside the ranges is written back unchanged, in
    place. *)
Theorem applyTextEdits_batch filePath env content edits given :
  fst (openFile filePath env) = Ok tt ->
  uriPath (pathToUri filePath) = filePath ->
  disk env !! filePath = Some content ->
  JS.includes content JS.CRLF = false ->
  let lines := JS.split content JS.LF in
  separated (Z.of_nat (length lines) + 1) edits ->
  given ≡ₚ edits ->
  applyTextEdits filePath given env
  = (Ok (report given),
     {| disk := <[filePath := JS.join JS.LF (replaceLines lines edits)]> (disk env);
        client := snd (openFile filePath env) |}).
Proof.
  intros Hopen Hpath Hfile Hlf lines Hsep Hperm.
  rewrite (EditToolFacts.applyTextEdits_opened _ _ _ _ _ _ _ Hopen Hpath Hfile).
  rewrite (descending_sort _ edits given Hsep Hperm).
  rewrite (toLspEdits_whole_lines _ _ content _ edits Hfile Hlf Hsep) by (fold lines; lia).
  cbn [bind]. unfold applyFileEdits. fold lines.
  rewrite (wholeLines_sort _ lines edits Hsep).
  pose proof (applySorted_whole_lines lines edits lines []) as Happly.
  rewrite !app_nil_r in Happly. rewrite Happly; [reflexivity | exact Hsep |].
  by rewrite firstn_all.
Qed.

End WithClient.

Lemma applyTextEdits_start_line_check_witness :
  fst (sampleApply "/count.txt" [lineEdit 2 2 "b"; lineEdit (-3) 1 "a"; lineEdit 0 1 "c"]
         (oneFile "/count.txt" fiveLines))
  = Throw "Start line must be >= 1, got 0"
  /\ disk (snd (sampleApply "/count.txt"
                  [lineEdit 2 2 "b"; lineEdit (-3) 1 "a"; lineEdit 0 1 "c"]
                  (oneFile "/count.txt" fiveLines)))
     = disk (oneFile "/count.txt" fiveLines).
Proof.
  destruct (proj1 (applyTextEdits_start_line_check Client.fileUri (fun _ => "plaintext"%string)
                     true "/count.txt" (oneFile "/count.txt" fiveLines)
                     [lineEdit 2 2 "b"; lineEdit (-3) 1 "a"; lineEdit 0 1 "c"])
              fiveLines)
    as (edit & Hin & Hlt & Hmax & Happly);
    [vm_compute; reflexivity | vm_compute; reflexivity
     | exists (lineEdit 0 1 "c"); split; [do 2 right; left | simpl; lia] |].
  unfold sampleApply. rewrite Happly. cbn [fst snd disk].
  split; [| reflexivity].
  assert (Hstart : startLine edit = 0).
  { assert (Hle : startLine (lineEdit 0 1 "c") <= startLine edit).
    { apply Hmax; [do 2 right; left | simpl; lia]. }
    simpl in Hle. lia. }
  by rewrite Hstart.
Defined.

Lemma applyTextEdits_batch_witness :
  sampleApply "/count.txt" [lineEdit 1 1 "ONE"; lineEdit 4 5 "end"; lineEdit 3 3 ""]
    (oneFile "/count.txt" fiveLines)
  = (Ok "Successfully applied text edits. 4 lines removed, 2 lines added."%string,
     {| disk := {[ "/count.txt"%string := JS.join JS.LF ["ONE"; "two"; ""; "end"]%string ]};
        client := snd (EditTool.openFile Client.fileUri (fun _ => "plaintext"%string) true
                         "/count.txt" (oneFile "/count.txt" fiveLines)) |}).
Proof.
  unfold sampleApply.
  rewrite (applyTextEdits_batch Client.fileUri (fun _ => "plaintext"%string) true
             "/count.txt" (oneFile "/count.txt" fiveLines) fiveLines
             [lineEdit 4 5 "end"; lineEdit 3 3 ""; lineEdit 1 1 "ONE"]).
  - unfold oneFile. cbn [disk]. rewrite insert_singleton_eq. reflexivity.
  - vm_compute. reflexivity.
  - reflexivity.
  - vm_compute. reflexivity.
  - vm_compute. reflexivity.
  - simpl. lia.
  - etransitivity; [apply perm_swap |]. apply perm_skip. apply perm_swap.
Defined.

End BatchEditFacts.

(** ** What the references tool displays *)

Module DisplayFacts.
Import Utilities UtilitiesSpec StringFacts.

Lemma range_snoc (s e : Z) : s <= e + 1 -> JS.range s (e + 1 + 1) = JS.range s (e + 1) ++ [e + 1].
Proof.
  intros Hse. unfold JS.range.
  replace (e + 1 + 1 - s) with ((e + 1 - s) + 1) by lia.
  rewrite seqZ_app by lia. f_equal.
  replace (s + (e + 1 - s)) with (e + 1) by lia. reflexivity.
Qed.

Lemma range_single (x : Z) : JS.range x (x + 1) = [x].
Proof. unfold JS.range. replace (x + 1 - x) with 1 by lia. reflexivity. Qed.

(** The index lists of the ranges, end to end, are the sorted lines. *)
Lemma collapseFrom_flatten l : forall s e,
  s <= e -> StronglySorted Z.lt (e :: l) ->
  collapseFrom s e l ≫= (fun r => JS.range (lr_start r) (lr_end r + 1))
  = JS.range s (e + 1) ++ l.
Proof.
  induction l as [|x l IH]; intros s e Hse Hsort; simpl.
  - by rewrite app_nil_r.
  - apply StronglySorted_inv in Hsort as [Hsort Hall].
    assert (e < x) by (inversion Hall; assumption).
    destruct (Z.eqb_spec x (e + 1)) as [-> | Hgap].
    + rewrite IH by (lia || assumption). rewrite range_snoc by lia.
      by rewrite <- app_assoc.
    + rewrite bind_cons. simpl. rewrite IH by (lia || assumption).
      by rewrite range_single.
Qed.

Lemma filter_lt_seqZ (b : Z) (k : nat) : forall s,
  filter (fun x => x < b) (seqZ s (Z.of_nat k)) = seqZ s (Z.min (Z.of_nat k) (b - s)).
Proof.
  induction k as [|k IH]; intros s.
  - rewrite !seqZ_nil by lia. reflexivity.
  - rewrite (seqZ_cons s (Z.of_nat (S k))) by lia.
    replace (Z.pred (Z.of_nat (S k))) with (Z.of_nat k) by lia.
    destruct (decide (s < b)) as [Hlt | Hge].
    + rewrite filter_cons_True by exact Hlt. rewrite IH.
      rewrite (seqZ_cons s (Z.min _ _)) by lia. do 2 f_equal. lia.
    + rewrite filter_cons_False by exact Hge. rewrite IH.
      rewrite !seqZ_nil by lia. reflexivity.
Qed.

(** The loop bound of [formatRange] drops the indices the file does not
    have. *)
Lemma range_within (s e len : Z) :
  JS.range s (Z.min (e + 1) len) = filter (fun x => x < len) (JS.range s (e + 1)).
Proof.
  unfold JS.range. destruct (Z.le_gt_cases (e + 1 - s) 0) as [Hempty | Hpos].
  - rewrite !seqZ_nil by lia. reflexivity.
  - rewrite <- (Z2Nat.id (e + 1 - s)) by lia.
    rewrite filter_lt_seqZ. f_equal. lia.
Qed.

Lemma gutter_not_ellipsis lineNum text : gutter lineNum text <> "..."%string.
Proof.
  intros Heq. apply (f_equal String.length) in Heq. unfold gutter, JS.padStart in Heq.
  rewrite !length_app_str in Heq.
  assert (Hpad : forall n s, (n <= String.length
                               (String.concat "" (replicate (n - String.length s) " "%string))
                               + String.length s)%nat).
  { intros n s. assert (Hrep : forall k,
        String.length (String.concat "" (replicate k " "%string)) = k).
    { induction k as [|k IHk]; [reflexivity |].
      simpl. destruct (replicate k " "%string) eqn:Hr; [by destruct k |].
      rewrite length_app_str, length_app_str, IHk. reflexivity. }
    rewrite Hrep. lia. }
  specialize (Hpad 6%nat (JS.toString lineNum)). simpl in Heq. lia.
Qed.

Lemma formatOutput_lines lines rs : forall first,
  filter (fun s => s <> "..."%string) (formatOutput lines first rs)
  = rs ≫= formatRange lines.
Proof.
  induction rs as [|r rs IH]; intros first; [reflexivity |].
  simpl. rewrite !filter_app, IH.
  assert (Hsep : filter (fun s => s <> "..."%string)
                   (if first then [] else ["..."%string]) = []).
  { destruct first; [reflexivity |]. by rewrite filter_cons_False by (intros H; by apply H). }
  rewrite Hsep. simpl. f_equal.
  unfold formatRange. induction (JS.range _ _) as [|x xs IHx]; [reflexivity |].
  simpl. rewrite filter_cons_True by apply gutter_not_ellipsis. by rewrite IHx.
Qed.

Lemma bind_filter_fmap {A B} (f : A -> B) (P : A -> Prop) `{!forall x, Decision (P x)}
    {C} (g : C -> list A) (l : list C) :
  l ≫= (fun c => f <$> filter P (g c)) = f <$> filter P (l ≫= g).
Proof.
  induction l as [|c l IH]; [reflexivity |].
  by rewrite !bind_cons, filter_app, fmap_app, IH.
Qed.

(** The references tool's display of the line set [S] of a file: apart
    from the [...] separators, one line for each index of [S] that the file
    has, in ascending order, each index shown once with its 1-based number
    in the gutter; indices past the end of the file are left out. *)
Theorem formatLinesWithRanges_shows_each_line_once (S : gset Z) (lines : list string)
    (totalLines : Z) :
  (forall x, x ∈ S -> 0 <= x) ->
  filter (fun s => s <> "..."%string)
    (formatOutput lines true (convertLinesToRanges S totalLines))
  = (fun x => gutter (x + 1) (lineText lines x))
      <$> filter (fun x => x < Z.of_nat (length lines)) (sortedLines S).
Proof.
  intros Hpos. rewrite formatOutput_lines. unfold convertLinesToRanges.
  pose proof (UtilitiesFacts.sortedLines_sorted S) as Hsorted.
  assert (Hall : Forall (fun y => 0 <= y) (sortedLines S)).
  { apply Forall_forall. intros y Hy. apply Hpos. by apply UtilitiesFacts.sortedLines_elem. }
  destruct (sortedLines S) as [|x0 l]; [reflexivity |].
  rewrite UtilitiesFacts.collapseLoop_cons by exact Hall.
  assert (Hfmt : forall r,
             formatRange lines r
             = (fun x => gutter (x + 1) (lineText lines x))
                 <$> filter (fun x => x < Z.of_nat (length lines))
                       (JS.range (lr_start r) (lr_end r + 1))).
  { intros r. unfold formatRange. by rewrite range_within. }
  rewrite (list_bind_ext _ _ _ _ Hfmt eq_refl).
  rewrite (bind_filter_fmap _ (fun x => x < Z.of_nat (length lines))).
  rewrite collapseFrom_flatten by (lia || exact Hsorted).
  by rewrite range_single.
Qed.

Lemma formatLinesWithRanges_shows_each_line_once_witness :
  filter (fun s => s <> "..."%string)
    (formatOutput ["a"; "b"; "c"; "d"]%string true
       (convertLinesToRanges {[ 0; 1; 3; 7 ]} 4))
  = [gutter 1 "a"; gutter 2 "b"; gutter 4 "d"].
Proof.
  rewrite (formatLinesWithRanges_shows_each_line_once {[ 0; 1; 3; 7 ]}
             ["a"; "b"; "c"; "d"]%string 4).
  - vm_compute. reflexivity.
  - intros x Hx. set_unfold in Hx. lia.
Defined.

End DisplayFacts.

(** ** The command line *)

Module MainFacts.
Import Main.

Lemma scanArgs_workspace value rest workspaceDir lspCommand :
  scanArgs ("--workspace"%string :: value :: rest) workspaceDir lspCommand
  = scanArgs rest (Some value) lspCommand.
Proof. reflexivity. Qed.

Lemma scanArgs_lsp value rest workspaceDir lspCommand :
  scanArgs ("--lsp"%string :: value :: rest) workspaceDir lspCommand
  = scanArgs rest workspaceDir (Some value).
Proof. reflexivity. Qed.

Lemma scanArgs_word word rest workspaceDir lspCommand :
  isKeyword word = false ->
  scanArgs (word :: rest) workspaceDir lspCommand = scanArgs rest workspaceDir lspCommand.
Proof.
  unfold isKeyword. intros Hword.
  apply orb_false_iff in Hword as [Hword Hdash].
  apply orb_false_iff in Hword as [Hws Hlsp].
  cbn [scanArgs]. by rewrite Hws, Hlsp, Hdash.
Qed.

Lemma last_value (value : string) (values : list string) (before : option string) :
  from_option Some before (last (value :: values))
  = from_option Some (Some value) (last values).
Proof.
  destruct values as [|v values]; [reflexivity |]. rewrite last_cons_cons.
  destruct (last (v :: values)) eqn:Hlast; [reflexivity |].
  by apply last_None in Hlast.
Qed.

Lemma scanArgs_options (opts : list CliOption) (afterDash : option (list string)) :
  Forall wellFormed opts ->
  forall workspaceDir lspCommand,
    scanArgs ((opts ≫= render) ++ tail afterDash) workspaceDir lspCommand
    = (from_option Some workspaceDir (last (omap workspaceOf opts)),
       from_option Some lspCommand (last (omap lspOf opts)),
       afterDash).
Proof.
  induction 1 as [|opt opts Hopt _ IH]; intros workspaceDir lspCommand.
  - destruct afterDash; reflexivity.
  - rewrite bind_cons, <- app_assoc. destruct opt as [value | value | word].
    + change (render (Workspace value) ++ (opts ≫= render) ++ tail afterDash)
        with ("--workspace"%string :: value :: (opts ≫= render) ++ tail afterDash).
      rewrite scanArgs_workspace, IH.
      change (omap workspaceOf (Workspace value :: opts))
        with (value :: omap workspaceOf opts).
      by rewrite last_value.
    + change (render (Lsp value) ++ (opts ≫= render) ++ tail afterDash)
        with ("--lsp"%string :: value :: (opts ≫= render) ++ tail afterDash).
      rewrite scanArgs_lsp, IH.
      change (omap lspOf (Lsp value :: opts)) with (value :: omap lspOf opts).
      by rewrite last_value.
    + change (render (Word word) ++ (opts ≫= render) ++ tail afterDash)
        with (word :: (opts ≫= render) ++ tail afterDash).
      rewrite scanArgs_word by exact Hopt. apply IH.
Qed.

Section WithFileSystem.

Variable path_resolve : string -> string.
Variable existsSync : string -> bool.

(** On a command line made of [--workspace <dir>] and [--lsp <command>]
    options and other words, followed or not by [--] and more words: the
    value of each flag is taken as it stands, even when it looks like a
    flag; of several values for a flag the last one counts; and everything
    after the [--] goes to the language server untouched, in order. *)
Theorem parseConfig_options (opts : list CliOption) (afterDash : option (list string))
    (dir command : string) :
  Forall wellFormed opts ->
  last (omap workspaceOf opts) = Some dir ->
  last (omap lspOf opts) = Some command ->
  dir <> ""%string ->
  command <> ""%string ->
  existsSync (path_resolve dir) = true ->
  parseConfig path_resolve existsSync ((opts ≫= render) ++ tail afterDash)
  = Ok {| workspaceDir := path_resolve dir;
          lspCommand := command;
          lspArgs := default [] afterDash |}.
Proof.
  intros Hopts Hdir Hcommand Hd Hc Hexists. unfold parseConfig.
  rewrite (scanArgs_options opts afterDash Hopts), Hdir, Hcommand. simpl.
  apply String.eqb_neq in Hd, Hc. rewrite Hd, Hc. simpl. by rewrite Hexists.
Qed.

(** A flag that comes last on the command line, with no value after it,
    leaves its setting undefined, whatever came before: for [--workspace]
    the call fails with the message that the directory is required. *)
Theorem parseConfig_flag_without_value (opts : list CliOption) :
  Forall wellFormed opts ->
  parseConfig path_resolve existsSync ((opts ≫= render) ++ ["--workspace"%string])
  = Throw "workspace directory is required (--workspace <dir>)".
Proof.
  intros Hopts. unfold parseConfig.
  assert (Hscan : forall workspaceDir lspCommand,
             exists lsp,
               scanArgs ((opts ≫= render) ++ ["--workspace"%string]) workspaceDir lspCommand
               = (None, lsp, None)).
  { induction Hopts as [|opt opts Hopt _ IH]; intros workspaceDir lspCommand.
    - by eexists.
    - rewrite bind_cons, <- app_assoc. destruct opt as [value | value | word].
      + change (render (Workspace value) ++ (opts ≫= render) ++ ["--workspace"%string])
          with ("--workspace"%string :: value :: (opts ≫= render) ++ ["--workspace"%string]).
        rewrite scanArgs_workspace. apply IH.
      + change (render (Lsp value) ++ (opts ≫= render) ++ ["--workspace"%string])
          with ("--lsp"%string :: value :: (opts ≫= render) ++ ["--workspace"%string]).
        rewrite scanArgs_lsp. apply IH.
      + change (render (Word word) ++ (opts ≫= render) ++ ["--workspace"%string])
          with (word :: (opts ≫= render) ++ ["--workspace"%string]).
        rewrite scanArgs_word by exact Hopt. apply IH. }
  destruct (Hscan (Some ""%string) (Some ""%string)) as [lsp ->]. reflexivity.
Qed.

End WithFileSystem.

Lemma parseConfig_options_witness :
  parseConfig id (fun _ => true)
    ["--workspace"; "/old"; "--lsp"; "--"; "--verbose"; "--workspace"; "/repo"; "--";
     "--stdio"; "--lsp"]%string
  = Ok {| workspaceDir := "/repo"; lspCommand := "--"; lspArgs := ["--stdio"; "--lsp"]%string |}.
Proof.
  apply (parseConfig_options id (fun _ => true)
           [Workspace "/old"; Lsp "--"; Word "--verbose"; Workspace "/repo"]
           (Some ["--stdio"; "--lsp"]%string) "/repo" "--");
    try reflexivity; try discriminate.
  repeat constructor.
Defined.

Lemma parseConfig_flag_without_value_witness :
  parseConfig id (fun _ => true) ["--lsp"; "gopls"; "--workspace"]%string
  = Throw "workspace directory is required (--workspace <dir>)".
Proof.
  apply (parseConfig_flag_without_value id (fun _ => true) [Lsp "gopls"]).
  repeat constructor.
Defined.

End MainFacts.
